(** * car_racing.py: track generator and tile occupancy / lookahead graph

    A shallow embedding of the parts of [gym/envs/box2d/car_racing.py]
    that decide the properties below, and the proofs of those properties.

    Conventions of the embedding.
    - Python [int] and numpy integer values are [Z]; [%] is [Z.modulo]
      (both take the sign of the divisor).
    - A Python [dict] is an association list in insertion order without
      repeated keys: iteration order is insertion order, assignment to a
      key that is present keeps its position, [del] removes the key.
    - Indexing a Python list or a numpy array is [py_index]: a negative
      index counts from the end, an index out of range raises.  A raised
      exception is [None] in the [option] monad.
    - Random draws are explicit inputs.  [self.np_random] (seeded through
      [seed]) and the module-level [np.random] are two different sources.
*)

From Stdlib Require Import ZArith QArith Qabs Qround Lia Lqa Bool.
From stdpp Require Import base tactics option list sorting.

Local Open Scope Z_scope.

(** ** Python containers *)

Module Py.

(** [l[i]] for a Python list or a one-dimensional numpy array. *)
Definition py_index {A : Type} (l : list A) (i : Z) : option A :=
  let n := Z.of_nat (length l) in
  if 0 <=? i then l !! Z.to_nat i
  else if - n <=? i then l !! Z.to_nat (n + i)
  else None.

Definition dict (V : Type) : Type := list (Z * V).

(** [d[k]] (reading) and [k in d]. *)
Fixpoint dget {V : Type} (k : Z) (d : dict V) : option V :=
  match d with
  | [] => None
  | (k', v) :: d' => if k =? k' then Some v else dget k d'
  end.

Definition dhas {V : Type} (k : Z) (d : dict V) : bool :=
  match dget k d with Some _ => true | None => false end.

(** [d[k] = v]: in place when [k] is present, at the end otherwise. *)
Fixpoint dset {V : Type} (k : Z) (v : V) (d : dict V) : dict V :=
  match d with
  | [] => [(k, v)]
  | (k', v') :: d' => if k =? k' then (k, v) :: d' else (k', v') :: dset k v d'
  end.

(** [del d[k]], used by the source only under a test that [k] is there. *)
Definition ddel {V : Type} (k : Z) (d : dict V) : dict V :=
  List.filter (fun p => negb (fst p =? k)) d.

Definition dlen {V : Type} (d : dict V) : Z := Z.of_nat (length d).

(** [d[k][l] = v] on a dict of dicts; [d[k]] raises [KeyError] when [k]
    is absent. *)
Definition dset2 (k l v : Z) (d : dict (dict Z)) : option (dict (dict Z)) :=
  inner ← dget k d; Some (dset k (dset l v inner) d).

(** [d[k][l]] read through both levels, [None] when either key is absent. *)
Definition dget2 (k l : Z) (d : dict (dict Z)) : option Z :=
  dget k d ≫= dget l.

(** Left-to-right loop over a list whose body may raise. *)
Fixpoint foldM {A B : Type} (f : B -> A -> option B) (l : list A) (b : B)
  : option B :=
  match l with
  | [] => Some b
  | a :: l' => b' ← f b a; foldM f l' b'
  end.

(** [l[i] = v] for a Python list. *)
Definition py_set {A : Type} (l : list A) (i : Z) (v : A) : option (list A) :=
  let n := Z.of_nat (length l) in
  if (0 <=? i) && (i <? n) then Some (<[Z.to_nat i := v]> l)
  else if (- n <=? i) && (i <? 0) then Some (<[Z.to_nat (n + i) := v]> l)
  else None.

(** [sum] of a boolean numpy array: the number of [True]. *)
Definition count_if {A : Type} (f : A -> bool) (l : list A) : Z :=
  Z.of_nat (length (List.filter f l)).

(** [range(n)] *)
Definition zrange (n : Z) : list Z := map Z.of_nat (seq 0 (Z.to_nat n)).

(** *** Facts about the containers *)

Section dict_facts.
Context {V : Type}.
Implicit Types (d : dict V) (k : Z).

Lemma dget_ddel_eq k d : dget k (ddel k d) = None.
Proof.
  induction d as [|[k' v] d IH]; simpl; [done|].
  destruct (Z.eqb_spec k' k) as [->|Hne]; simpl; [done|].
  destruct (Z.eqb_spec k k'); [congruence|done].
Qed.

Lemma dget_ddel_ne k k' d : k <> k' -> dget k' (ddel k d) = dget k' d.
Proof.
  intros Hne. induction d as [|[k0 v] d IH]; simpl; [done|].
  destruct (Z.eqb_spec k0 k) as [->|Hne0]; simpl.
  - destruct (Z.eqb_spec k' k); [congruence|done].
  - by rewrite IH.
Qed.

Lemma dget_dset_eq k (v : V) d : dget k (dset k v d) = Some v.
Proof.
  induction d as [|[k' v'] d IH]; simpl.
  - by rewrite Z.eqb_refl.
  - destruct (Z.eqb_spec k k') as [->|Hne]; simpl.
    + by rewrite Z.eqb_refl.
    + destruct (Z.eqb_spec k k'); [congruence|done].
Qed.

Lemma dget_dset_ne k k' (v : V) d :
  k <> k' -> dget k' (dset k v d) = dget k' d.
Proof.
  intros Hne. induction d as [|[k0 v0] d IH]; simpl.
  - destruct (Z.eqb_spec k' k); [congruence|done].
  - destruct (Z.eqb_spec k k0) as [->|Hne0]; simpl.
    + destruct (Z.eqb_spec k' k0); [congruence|done].
    + by rewrite IH.
Qed.

(** A dict with at most one entry that holds [k] holds nothing else. *)
Lemma dget_single k k' (v : V) d :
  dlen d <= 1 -> dget k d = Some v -> k <> k' -> dget k' d = None.
Proof.
  unfold dlen. destruct d as [|[k0 v0] [|? ?]]; simpl;
    intros Hlen Hget Hne; try done; [|lia].
  destruct (Z.eqb_spec k k0) as [->|]; [|done].
  destruct (Z.eqb_spec k' k0); [congruence|done].
Qed.

End dict_facts.

Lemma dget2_unfold k l (s : dict (dict Z)) :
  dget2 k l s = match dget k s with Some i => dget l i | None => None end.
Proof. unfold dget2. by destruct (dget k s). Qed.

Lemma foldM_snoc {A B : Type} (f : B -> A -> option B) l a b :
  foldM f (l ++ [a]) b = foldM f l b ≫= (fun b' => f b' a).
Proof.
  revert b. induction l as [|x l IH]; simpl; intros b.
  - by destruct (f b a).
  - destruct (f b x); simpl; [apply IH|done].
Qed.

(** Peel the next [x ← m; _] off a hypothesis [H : _ = Some _]. *)
Ltac bind_inv H :=
  repeat match type of H with
         | mbind _ ?x = Some _ => destruct x eqn:?; simpl in H; [|done]
         end.

Lemma foldM_preserve {A B : Type} (P : B -> Prop) (f : B -> A -> option B) l :
  (forall b a b', P b -> f b a = Some b' -> P b') ->
  forall b b', P b -> foldM f l b = Some b' -> P b'.
Proof.
  intros Hf. induction l as [|a l IH]; simpl; intros b b' Hb H.
  - by simplify_eq.
  - destruct (f b a) as [b1|] eqn:Hfa; simpl in H; [|done]. eauto.
Qed.

Lemma py_index_Some {A} (l : list A) i x :
  py_index l i = Some x ->
  exists j, l !! j = Some x /\ (0 <= i -> j = Z.to_nat i) /\
            py_set l i = fun v => Some (<[j := v]> l).
Proof.
  unfold py_index, py_set. intros H.
  destruct (Z.leb_spec 0 i).
  - exists (Z.to_nat i). split; [done|]. split; [done|].
    apply lookup_lt_Some in H.
    destruct (Z.ltb_spec i (Z.of_nat (length l))); [done|lia].
  - destruct (Z.leb_spec (- Z.of_nat (length l)) i); [|done].
    exists (Z.to_nat (Z.of_nat (length l) + i)). split; [done|]. split; [lia|].
    simpl. destruct (Z.ltb_spec i 0); [done|lia].
Qed.

Lemma py_set_pair {A} (a b v : A) lane m' :
  py_set [a; b] lane v = Some m' -> m' = [v; b] \/ m' = [a; v].
Proof.
  unfold py_set. simpl length.
  destruct (Z.leb_spec 0 lane), (Z.ltb_spec lane (Z.of_nat 2)); simpl.
  - intros; simplify_eq. assert (lane = 0 \/ lane = 1) as [->| ->] by lia; auto.
  - destruct (Z.leb_spec (- Z.of_nat 2) lane), (Z.ltb_spec lane 0); simpl; try done; lia.
  - destruct (Z.leb_spec (- Z.of_nat 2) lane), (Z.ltb_spec lane 0); simpl; try done; try lia.
    intros; simplify_eq. assert (lane = -1 \/ lane = -2) as [->| ->] by lia; auto.
  - lia.
Qed.

Lemma py_index_nat {A} (l : list A) (i : nat) : py_index l (Z.of_nat i) = l !! i.
Proof.
  unfold py_index. destruct (Z.leb_spec 0 (Z.of_nat i)); [|lia]. by rewrite Nat2Z.id.
Qed.

Lemma foldM_app {A B} (f : B -> A -> option B) l1 l2 b :
  foldM f (l1 ++ l2) b = foldM f l1 b ≫= foldM f l2.
Proof.
  revert b. induction l1 as [|a l1 IH]; intros b; simpl; [done|].
  destruct (f b a); simpl; [apply IH|done].
Qed.

Lemma dset_dset {V} k (v v' : V) d : dset k v (dset k v' d) = dset k v d.
Proof.
  induction d as [|[k0 v0] d IH]; simpl.
  - by rewrite Z.eqb_refl.
  - destruct (Z.eqb_spec k k0) as [->|]; simpl.
    + by rewrite Z.eqb_refl.
    + destruct (Z.eqb_spec k k0); [done|]. by rewrite IH.
Qed.

Lemma dget_fold_dset {V} (f : Z -> V) ids : forall acc k,
  dget k (fold_left (fun a t => dset t (f t) a) ids acc)
  = if decide (k ∈ ids) then Some (f k) else dget k acc.
Proof.
  induction ids as [|t ids IH]; intros acc k; cbn [fold_left].
  - case_decide as Hin; [by apply elem_of_nil in Hin|done].
  - rewrite IH. destruct (decide (k ∈ ids)) as [Hin|Hnin].
    + rewrite decide_True; [done|by right].
    + destruct (decide (k = t)) as [->|Hne].
      * rewrite decide_True by left. apply dget_dset_eq.
      * rewrite decide_False; [by apply dget_dset_ne|].
        intros Hc. apply elem_of_cons in Hc as [?|?]; done.
Qed.

End Py.
Import Py.

(** ** Tile table

    The fields of the structured array built by [_create_info] that the
    modelled functions read.  [end] is a keyword, hence [end_]. *)

Record tile_info : Type := TileInfo {
  track : Z;
  end_ : bool;
  start : bool;
  intersection_id : Z;
  lanes : list bool
}.

(** ** Tile occupancy and lookahead graph *)

Module Graph.

(** [self.info] and the lengths [len(self.tracks[k])]. *)
Record env : Type := Env {
  info : list tile_info;
  tracks : list nat
}.

(** One frontier step, and [self._current_nodes]: [id -> lane -> direction]. *)
Definition step : Type := dict (dict Z).

Record state : Type := State {
  _current_nodes : step;
  _next_nodes : list step
}.

Definition SHOW_NEXT_N_TILES : nat := 10.

(** [np.where(self.info['intersection_id'] == intersection)[0]] *)
Definition where_intersection (l : list tile_info) (intersection : Z) : list Z :=
  omap (fun p : nat * tile_info =>
          if intersection_id (snd p) =? intersection
          then Some (Z.of_nat (fst p)) else None)
       (imap (fun i t => (i, t)) l).

(** [id_relative] and [len(self.tracks[self.info[id]['track']])], computed
    the same way in [add_current_tile] and in [_get_next_node]. *)
Definition relative (e : env) (id : Z) (ti : tile_info) : option (Z * Z) :=
  id_relative ←
    (if 0 <? track ti
     then n ← py_index (tracks e) (track ti - 1); Some (id - Z.of_nat n)
     else Some id);
  n ← py_index (tracks e) (track ti);
  if Z.of_nat n =? 0 then None else Some (id_relative, Z.of_nat n).

(** Body of the loop over the tiles of an intersection group.  The loop
    carries [next_nodes] and the local variable [direction], which the
    start/end branches overwrite for the rest of the loop. *)
Definition group_body (e : env) (next_id lane : Z) (acc : step * Z) (tmp_id : Z)
  : option (step * Z) :=
  let '(next_nodes, direction) := acc in
  ti ← py_index (info e) tmp_id;
  let next_nodes := dset tmp_id [] next_nodes in
  if 0 <? track ti then
    let direction := if end_ ti then -1 else direction in
    let direction := if start ti then -1 else direction in
    next_nodes ← dset2 tmp_id 1 direction next_nodes;
    next_nodes ← dset2 tmp_id 0 direction next_nodes;
    Some (next_nodes, direction)
  else if tmp_id =? next_id then
    next_nodes ← dset2 tmp_id lane direction next_nodes;
    Some (next_nodes, direction)
  else
    next_nodes ← dset2 tmp_id 1 0 next_nodes;
    next_nodes ← dset2 tmp_id 0 0 next_nodes;
    Some (next_nodes, direction).

Definition _get_next_node (e : env) (id lane direction : Z) : option step :=
  ti ← py_index (info e) id;
  if (end_ ti && (direction =? 1)) || (start ti && (direction =? -1))
  then Some []
  else
    '(id_relative, n) ← relative e id ti;
    let next_id := (id_relative + direction) mod n in
    tn ← py_index (info e) (id - id_relative + next_id);
    let intersection := intersection_id tn in
    if negb (intersection =? -1) then
      fst <$> foldM (group_body e next_id lane)
                    (where_intersection (info e) intersection) ([], direction)
    else
      let naive := id - id_relative + next_id in
      let next_nodes : step := [] in
      let next_nodes := if dhas naive next_nodes then next_nodes
                        else dset naive [] next_nodes in
      dset2 naive lane direction next_nodes.

(** The [for k, v in tmp_pred.items()] loop that merges one successor
    dict into [next_nodes]; a later write to the same key overwrites. *)
Definition merge_pred (next_nodes : step) (tmp_pred : step) : option step :=
  foldM (fun nn (kv : Z * dict Z) =>
           let nn := if dhas (fst kv) nn then nn else dset (fst kv) [] nn in
           foldM (fun nn (ld : Z * Z) => dset2 (fst kv) (fst ld) (snd ld) nn)
                 (snd kv) nn)
        tmp_pred next_nodes.

(** One pass of the [while] body: the successors of every
    [(id, lane, direction)] of [elems]. *)
Definition expand (e : env) (elems : step) : option step :=
  foldM (fun next_nodes (iv : Z * dict Z) =>
    foldM (fun next_nodes (ld : Z * Z) =>
      let id := fst iv in
      let lane := fst ld in
      let direction := snd ld in
      tmp_preds ←
        (if direction =? 0 then
           a ← _get_next_node e id lane 1;
           b ← _get_next_node e id lane (-1);
           Some [a; b]
         else
           a ← _get_next_node e id lane direction;
           Some [a]);
      foldM merge_pred tmp_preds next_nodes)
    (snd iv) next_nodes)
  elems [].

(** [while len(self._next_nodes) < SHOW_NEXT_N_TILES]: every pass appends
    one step, so the loop runs [SHOW_NEXT_N_TILES - len] times. *)
Fixpoint refill (passes : nat) (e : env) (cur : step) (nn : list step)
  : option (list step) :=
  match passes with
  | O => Some nn
  | S passes' =>
      let elems := match last nn with None => cur | Some s => s end in
      next_nodes ← expand e elems;
      refill passes' e cur (nn ++ [next_nodes])
  end.

(** The test at the head of the frontier:
    [id in nn[0] and lane in nn[0][id] and nn[0][id][lane] == direction]. *)
Definition head_matches (id lane direction : Z) (s0 : step) : bool :=
  match dget id s0 with
  | Some inner =>
      match dget lane inner with
      | Some d => d =? direction
      | None => false
      end
  | None => false
  end.

(** "Removing current new tile from nexts". *)
Definition reconcile (id lane direction : Z) (nn : list step) : list step :=
  match nn with
  | [] => []
  | s0 :: rest =>
      if head_matches id lane direction s0 then
        match dget id s0 with
        | Some inner =>
            if 1 <? dlen inner
            then dset id (ddel lane inner) s0 :: rest
            else ddel id s0 :: rest
        | None => s0 :: rest
        end
      else []
  end.

(** [[item for item in self._next_nodes if len(item) > 0]] *)
Definition clean (nn : list step) : list step :=
  List.filter (fun item : step => 0 <? dlen item) nn.

(** The one floating-point test of [add_current_tile],
    [abs((track[id,0,1] - car.hull.angle + pi/2) % (2*pi)) > pi],
    is the input [wrapped_gt_pi]. *)
Definition direction_of (wrapped_gt_pi : bool) : Z :=
  if wrapped_gt_pi then -1 else 1.

Definition add_current_tile (e : env) (st : state) (id lane : Z)
  (wrapped_gt_pi : bool) : option state :=
  ti ← py_index (info e) id;
  _ ← relative e id ti;
  let direction := direction_of wrapped_gt_pi in
  cur ← (if dhas id (_current_nodes st)
         then dset2 id lane direction (_current_nodes st)
         else Some (dset id [(lane, direction)] (_current_nodes st)));
  let nn := clean (reconcile id lane direction (_next_nodes st)) in
  nn ← refill (SHOW_NEXT_N_TILES - length nn) e cur nn;
  Some (State cur nn).

Definition remove_current_tile (st : state) (id lane : Z) : option state :=
  match dget id (_current_nodes st) with
  | Some inner =>
      cur ← (if 1 <? dlen inner
             then (if dhas lane inner
                   then Some (dset id (ddel lane inner) (_current_nodes st))
                   else None)
             else Some (ddel id (_current_nodes st)));
      Some (State cur (if dlen cur =? 0 then [] else _next_nodes st))
  | None => Some st
  end.

(** The stream of contact events of an episode, as [FrictionDetector]
    hands them to the graph, starting from the state [reset] leaves. *)
Inductive event : Type :=
| BeginContact (id lane : Z) (wrapped_gt_pi : bool)
| EndContact (id lane : Z).

Definition handle (e : env) (st : state) (ev : event) : option state :=
  match ev with
  | BeginContact id lane w => add_current_tile e st id lane w
  | EndContact id lane => remove_current_tile st id lane
  end.

Definition run (e : env) (evs : list event) : option state :=
  foldM (handle e) evs (State [] []).

(** *** Example tracks *)

(** A main track of 20 tiles and a spur of 20 tiles (ids 20..39) that
    starts at tile 20 and dead-ends at tile 39; no junction. *)
Definition spur_env : env :=
  Env (map (fun i : nat =>
              let z := Z.of_nat i in
              TileInfo (if z <? 20 then 0 else 1) (z =? 39) (z =? 20) (-1)
                       [true; true])
           (seq 0 40))
      [20%nat; 20%nat].

(** A main track of 100 tiles and a second track of 60 tiles (ids
    100..159) that cross in an x-junction: main tile 31 and second-track
    tile 131 form intersection group 31; nothing is cut, so there is no
    start or end tile. *)
Definition cross_env : env :=
  Env (map (fun i : nat =>
              let z := Z.of_nat i in
              TileInfo (if z <? 100 then 0 else 1) false false
                       (if (z =? 31) || (z =? 131) then 31 else -1)
                       [true; true])
           (seq 0 160))
      [100%nat; 60%nat].

(** The state after entering tile 5, lane 0, of [spur_env] heading
    forward, and the state after then entering the predicted tile 6. *)
Definition on_tile_5 : state :=
  Eval vm_compute in
    default (State [] []) (run spur_env [BeginContact 5 0 false]).

Definition on_tile_6 : state :=
  Eval vm_compute in
    default (State [] [])
            (run spur_env [BeginContact 5 0 false; BeginContact 6 0 false]).

(** *** The frontier after an update *)

Lemma refill_app passes e cur nn nn' :
  refill passes e cur nn = Some nn' ->
  exists added, nn' = nn ++ added /\ length added = passes.
Proof.
  revert nn. induction passes as [|p IH]; simpl; intros nn H.
  - exists []. simplify_eq. by rewrite app_nil_r.
  - destruct (expand e _) as [nx|]; simpl in H; [|done].
    apply IH in H as (added & -> & Hlen).
    exists (nx :: added). split; [by rewrite <- app_assoc|simpl; lia].
Qed.

Lemma clean_length nn : (length (clean nn) <= length nn)%nat.
Proof. apply List.filter_length_le. Qed.

Lemma reconcile_length id lane d nn :
  (length (reconcile id lane d nn) <= length nn)%nat.
Proof.
  destruct nn as [|s0 rest]; simpl; [lia|].
  destruct (head_matches _ _ _ _); simpl; [|lia].
  destruct (dget id s0); [destruct (1 <? _)|]; simpl; lia.
Qed.

Lemma add_current_tile_length e st id lane w st' :
  (length (_next_nodes st) <= SHOW_NEXT_N_TILES)%nat ->
  add_current_tile e st id lane w = Some st' ->
  length (_next_nodes st') = SHOW_NEXT_N_TILES.
Proof.
  unfold add_current_tile. intros Hlen H. bind_inv H. simplify_eq. simpl.
  match goal with
  | H : refill _ _ _ _ = Some _ |- _ =>
      apply refill_app in H as (added & -> & Hadd)
  end.
  rewrite length_app, Hadd.
  pose proof (clean_length (reconcile id lane (direction_of w) (_next_nodes st))).
  pose proof (reconcile_length id lane (direction_of w) (_next_nodes st)).
  lia.
Qed.

Lemma add_current_tile_occupied e st id lane w st' :
  add_current_tile e st id lane w = Some st' -> _current_nodes st' <> [].
Proof.
  unfold add_current_tile. intros H. bind_inv H. simplify_eq. simpl.
  match goal with
  | H : (if dhas _ _ then _ else _) = Some _ |- _ => rename H into Hc
  end.
  destruct (dhas id (_current_nodes st)).
  - unfold dset2 in Hc.
    destruct (dget id (_current_nodes st)) as [d|]; simpl in Hc; [|done].
    simplify_eq. intros Hnil.
    pose proof (dget_dset_eq id (dset lane (direction_of w) d)
                             (_current_nodes st)) as Hx.
    by rewrite Hnil in Hx.
  - simplify_eq. intros Hnil.
    pose proof (dget_dset_eq id [(lane, direction_of w)]
                             (_current_nodes st)) as Hx.
    by rewrite Hnil in Hx.
Qed.

Lemma remove_current_tile_length st id lane st' :
  remove_current_tile st id lane = Some st' ->
  (length (_next_nodes st') <= length (_next_nodes st))%nat.
Proof.
  unfold remove_current_tile. intros H.
  destruct (dget id _); [|by simplify_eq].
  bind_inv H. simplify_eq. simpl. destruct (dlen _ =? 0); simpl; lia.
Qed.

(** The frontier never grows past [SHOW_NEXT_N_TILES] during an episode. *)
Lemma run_frontier_bound e evs st :
  run e evs = Some st -> (length (_next_nodes st) <= SHOW_NEXT_N_TILES)%nat.
Proof.
  revert st. induction evs as [|ev evs IH] using rev_ind; intros st.
  - unfold run; simpl. intros; simplify_eq. simpl. unfold SHOW_NEXT_N_TILES. lia.
  - unfold run. rewrite foldM_snoc. fold (run e evs).
    destruct (run e evs) as [st0|] eqn:Hrun; simpl; [|done].
    specialize (IH _ eq_refl). destruct ev as [id lane w|id lane]; simpl; intros H.
    + apply add_current_tile_length in H; [lia|done].
    + apply remove_current_tile_length in H. lia.
Qed.

(** The step the refill loop expands to produce step [k] of the frontier:
    [self._next_nodes[-1]], or [self._current_nodes] while the frontier is
    still empty. *)
Definition step_before (cur : step) (nn : list step) (k : nat) : step :=
  match k with
  | O => cur
  | S k' => default cur (nn !! k')
  end.

(** [(id, lane, direction)] has no successor: the tile is an end tile and
    the heading is forward, or a start tile and the heading is backward
    (both for the undetermined heading 0). *)
Definition no_successor (e : env) (id d : Z) : Prop :=
  exists ti, py_index (info e) id = Some ti /\
    ((d = 1 /\ end_ ti = true) \/
     (d = -1 /\ start ti = true) \/
     (d = 0 /\ end_ ti = true /\ start ti = true)).

Lemma refill_chain passes e cur : forall nn nn',
  refill passes e cur nn = Some nn' ->
  forall k s, (length nn <= k)%nat -> nn' !! k = Some s ->
    expand e (step_before cur nn' k) = Some s.
Proof.
  induction passes as [|p IH]; intros nn nn' H k s Hk Hs.
  - simpl in H. simplify_eq. apply lookup_lt_Some in Hs. lia.
  - cbn [refill] in H.
    destruct (expand e _) as [nx|] eqn:Hx; cbn [mbind option_bind] in H; [|done].
    destruct (decide (k = length nn)) as [->|Hne].
    + apply refill_app in H as (added & -> & _).
      rewrite <- app_assoc in Hs |- *.
      rewrite lookup_app_r in Hs by lia. rewrite Nat.sub_diag in Hs.
      simpl in Hs. simplify_eq. rewrite <- Hx. f_equal.
      unfold step_before. destruct nn as [|s0 nn] using rev_ind; [done|].
      rewrite last_snoc, length_app. simpl.
      replace (length nn + 1)%nat with (S (length nn)) by lia.
      rewrite <- app_assoc. simpl. by rewrite list_lookup_middle.
    + eapply IH; [exact H| |done]. rewrite length_app. simpl. lia.
Qed.

Lemma dset_nonempty {V} k (v : V) d : dset k v d <> [].
Proof. destruct d as [|[k' v'] d]; simpl; [done|]. by destruct (_ =? _). Qed.

Lemma dset2_nonempty k l v d d' : dset2 k l v d = Some d' -> d' <> [].
Proof.
  unfold dset2. intros H. bind_inv H. simplify_eq. apply dset_nonempty.
Qed.

Lemma foldM_nil {A B} (P : A -> Prop) (f : list B -> A -> option (list B)) :
  (forall acc x r, f acc x = Some r -> r = [] -> acc = [] /\ P x) ->
  forall l acc, foldM f l acc = Some [] -> acc = [] /\ Forall P l.
Proof.
  intros Hf l. induction l as [|x l IH]; intros acc H; simpl in H.
  - by simplify_eq.
  - destruct (f acc x) as [r|] eqn:Hr; simpl in H; [|done].
    apply IH in H as [-> Hl]. apply Hf in Hr as [-> Hx]; [|done].
    split; [done|by constructor].
Qed.

Lemma foldM_last {A B} (Q : B -> Prop) (f : B -> A -> option B) :
  (forall acc x r, f acc x = Some r -> Q r) ->
  forall l acc r, l <> [] -> foldM f l acc = Some r -> Q r.
Proof.
  intros Hf l. induction l as [|x l IH] using rev_ind; intros acc r Hl H; [done|].
  rewrite foldM_snoc in H.
  destruct (foldM f l acc) as [b|]; simpl in H; [|done]. by eapply Hf.
Qed.

Lemma merge_pred_nil nn tmp :
  merge_pred nn tmp = Some [] -> nn = [] /\ tmp = [].
Proof.
  unfold merge_pred. destruct tmp as [|kv tmp] using rev_ind.
  - simpl. intros; by simplify_eq.
  - clear IHtmp. rewrite foldM_snoc.
    match goal with
    | |- context [foldM ?f tmp nn] => destruct (foldM f tmp nn) as [b|]
    end; cbn [mbind option_bind]; [|done].
    intros H. exfalso.
    set (b' := if dhas kv.1 b then b else dset kv.1 [] b) in H.
    assert (b' <> []) as Hb'.
    { unfold b'. destruct (dhas kv.1 b) eqn:Hh; [|apply dset_nonempty].
      intros ->. by unfold dhas in Hh. }
    revert H. generalize b' Hb'. clear.
    induction (kv.2) as [|ld l IH]; intros b Hb H; simpl in H; [by simplify_eq|].
    destruct (dset2 _ _ _ b) as [b2|] eqn:H2; simpl in H; [|done].
    eapply IH; [|exact H]. by eapply dset2_nonempty.
Qed.

Lemma where_intersection_nonempty l j tn :
  l !! j = Some tn -> where_intersection l (intersection_id tn) <> [].
Proof.
  unfold where_intersection.
  assert (forall (G : nat -> tile_info -> nat * tile_info) l j,
            (forall i t, (G i t).2 = t) -> l !! j = Some tn ->
            omap (fun p : nat * tile_info =>
                    if intersection_id p.2 =? intersection_id tn
                    then Some (Z.of_nat p.1) else None) (imap G l) <> [])
    as Hgen; [|intros Hj; by eapply Hgen].
  clear. intros G l. revert G. induction l as [|t l IH]; intros G j HG Hj; [done|].
  simpl. destruct j as [|j]; simpl in Hj.
  - simplify_eq. by rewrite HG, Z.eqb_refl.
  - destruct (_ =? _); [done|].
    apply (IH (G ∘ S) j); [|done]. intros i t'. apply HG.
Qed.

Lemma group_body_nonempty e next_id lane acc t r :
  group_body e next_id lane acc t = Some r -> r.1 <> [].
Proof.
  unfold group_body. destruct acc as [nn d]. intros H.
  destruct (py_index (info e) t) as [ti|]; cbn [mbind option_bind] in H; [|done].
  destruct (0 <? track ti); [|destruct (t =? next_id)].
  all: repeat match type of H with
       | (?m ≫= _) = Some _ =>
           let E := fresh "E" in
           destruct m eqn:E; cbn [mbind option_bind] in H; [|done]
       end; simplify_eq; simpl; by eapply dset2_nonempty.
Qed.

Lemma get_next_node_empty e id lane d :
  _get_next_node e id lane d = Some [] ->
  exists ti, py_index (info e) id = Some ti /\
    ((d = 1 /\ end_ ti = true) \/ (d = -1 /\ start ti = true)).
Proof.
  unfold _get_next_node. intros H.
  destruct (py_index (info e) id) as [ti|]; cbn [mbind option_bind] in H; [|done].
  exists ti. split; [done|].
  destruct (end_ ti && (d =? 1) || start ti && (d =? -1)) eqn:Ht.
  - apply orb_true_iff in Ht as [Ht|Ht]; apply andb_true_iff in Ht as [? Hd];
      apply Z.eqb_eq in Hd; auto.
  - exfalso.
    destruct (relative e id ti) as [[idr n]|]; cbn [mbind option_bind] in H; [|done].
    destruct (py_index (info e) _) as [tn|] eqn:Htn; cbn [mbind option_bind] in H;
      [|done].
    destruct (negb _).
    + destruct (foldM _ _ _) as [r|] eqn:Hf; simpl in H; [|done].
      simplify_eq.
      apply py_index_Some in Htn as (j & Hj & _).
      eapply (foldM_last (fun r : step * Z => r.1 <> [])) in Hf; [done| |].
      * intros acc x r'. apply group_body_nonempty.
      * by eapply where_intersection_nonempty.
    + by apply dset2_nonempty in H.
Qed.

Lemma expand_nil e s :
  expand e s = Some [] ->
  forall id inner lane d, (id, inner) ∈ s -> (lane, d) ∈ inner ->
    no_successor e id d.
Proof.
  unfold expand. intros H.
  apply (foldM_nil (fun iv : Z * dict Z =>
           forall ld : Z * Z, ld ∈ iv.2 -> no_successor e iv.1 ld.2)) in H
    as [_ HF].
  - intros id inner lane d Hi Hl. rewrite Forall_forall in HF.
    apply (HF _ Hi (lane, d) Hl).
  - intros acc iv r Hr ->.
    apply (foldM_nil (fun ld : Z * Z => no_successor e iv.1 ld.2)) in Hr
      as [-> HF]; [split; [done|]|].
    + rewrite Forall_forall in HF. intros ld. apply HF.
    + clear. intros acc ld r Hr ->. cbv zeta in Hr.
      destruct (ld.2 =? 0) eqn:Hd.
      * apply Z.eqb_eq in Hd.
        destruct (_get_next_node e iv.1 ld.1 1) as [a|] eqn:Ha;
          cbn [mbind option_bind] in Hr; [|done].
        destruct (_get_next_node e iv.1 ld.1 (-1)) as [b|] eqn:Hb;
          cbn [mbind option_bind] in Hr; [|done].
        cbn [foldM] in Hr.
        destruct (merge_pred acc a) as [x|] eqn:Hx; cbn [mbind option_bind] in Hr;
          [|done].
        destruct (merge_pred x b) as [y|] eqn:Hy; cbn [mbind option_bind] in Hr;
          [|done].
        simplify_eq. apply merge_pred_nil in Hy as [-> ->].
        apply merge_pred_nil in Hx as [-> ->]. split; [done|].
        apply get_next_node_empty in Ha as (ti & Hti & Ha).
        apply get_next_node_empty in Hb as (ti' & Hti' & Hb).
        simplify_eq. exists ti. split; [done|].
        destruct Ha as [[_ Ha]|[? _]]; [|lia].
        destruct Hb as [[? _]|[_ Hb]]; [lia|]. auto.
      * apply Z.eqb_neq in Hd.
        destruct (_get_next_node e iv.1 ld.1 ld.2) as [a|] eqn:Ha;
          cbn [mbind option_bind] in Hr; [|done].
        cbn [foldM] in Hr.
        destruct (merge_pred acc a) as [x|] eqn:Hx; cbn [mbind option_bind] in Hr;
          [|done].
        simplify_eq. apply merge_pred_nil in Hx as [-> ->]. split; [done|].
        apply get_next_node_empty in Ha as (ti & Hti & Ha).
        exists ti. split; [done|]. tauto.
Qed.

(** Live steps first, then empty ones; the first empty step, if any, is
    the expansion of the step before it. *)
Definition frontier_shape (e : env) (cur : step) (nn : list step) : Prop :=
  exists live m, Forall (fun s : step => s <> []) live /\
    nn = live ++ replicate m [] /\
    ((0 < m)%nat -> expand e (default cur (last live)) = Some []).

Lemma clean_filter nn :
  clean nn
  = List.filter (fun s : step => match s with [] => false | _ :: _ => true end) nn.
Proof. unfold clean. apply List.filter_ext. by intros []. Qed.

Lemma clean_shape e cur nn : frontier_shape e cur (clean nn).
Proof.
  exists (clean nn), 0%nat. split; [|split; [by rewrite app_nil_r|lia]].
  unfold clean. apply List.Forall_forall. intros s Hs.
  apply List.filter_In in Hs as [_ Hs]. by destruct s.
Qed.

Lemma refill_shape passes e cur : forall nn nn',
  frontier_shape e cur nn -> refill passes e cur nn = Some nn' ->
  frontier_shape e cur nn'.
Proof.
  induction passes as [|p IH]; intros nn nn' Hnn H; [simpl in H; by simplify_eq|].
  cbn [refill] in H.
  destruct (expand e _) as [nx|] eqn:Hx; cbn [mbind option_bind] in H; [|done].
  apply (IH _ _) in H; [done|]. clear H IH.
  destruct Hnn as (live & m & Hlive & -> & Hm). destruct m as [|m].
  - simpl in Hx. rewrite app_nil_r in Hx. destruct nx as [|kv nx].
    + exists live, 1%nat. rewrite app_nil_r. split; [done|]. split; [done|].
      intros _. etrans; [|exact Hx]. done.
    + exists (live ++ [kv :: nx]), 0%nat. rewrite !app_nil_r.
      split; [|split; [done|lia]].
      apply Forall_app. split; [done|]. by repeat constructor.
  - match type of Hx with
    | context [last ?l] => assert (last l = Some []) as Hlast
    end.
    { replace (S m) with (m + 1)%nat by lia. rewrite replicate_add, app_assoc.
      simpl. by rewrite last_snoc. }
    rewrite Hlast in Hx. cbn in Hx. simplify_eq.
    exists live, (S (S m)). split; [done|]. split; [|intros _; apply Hm; lia].
    rewrite <- app_assoc. f_equal.
    replace (S (S m)) with (S m + 1)%nat by lia. by rewrite replicate_add.
Qed.

Lemma add_current_tile_shape e st id lane w st' :
  add_current_tile e st id lane w = Some st' ->
  frontier_shape e (_current_nodes st') (_next_nodes st').
Proof.
  unfold add_current_tile. intros H. bind_inv H. simplify_eq. simpl.
  eapply refill_shape; [|done]. apply clean_shape.
Qed.

(** C3, as amended: after every begin-contact update of an episode the
    occupancy is non-empty and the prediction frontier holds exactly
    N = 10 steps, wherever the vehicle is: it is never shorter.  Its steps
    are non-empty mappings followed by empty mappings only.  When there is
    an empty step, the first one is the expansion of the step before it
    (of the occupancy when it is the first step of the frontier), that
    expanded step is not empty, and every [(tile, lane, heading)] in it has
    no successor: an end tile headed forward or a start tile headed
    backward. *)
Theorem frontier_length_after_begin e evs id lane w st' :
  run e (evs ++ [BeginContact id lane w]) = Some st' ->
  length (_next_nodes st') = SHOW_NEXT_N_TILES /\
  _current_nodes st' <> [] /\
  exists live,
    Forall (fun s : step => s <> []) live /\
    _next_nodes st' = live ++ replicate (SHOW_NEXT_N_TILES - length live) [] /\
    ((length live < SHOW_NEXT_N_TILES)%nat ->
       exists before,
         before = default (_current_nodes st') (last live) /\
         before <> [] /\
         expand e before = Some [] /\
         forall id inner lane d,
           (id, inner) ∈ before -> (lane, d) ∈ inner -> no_successor e id d).
Proof.
  unfold run. rewrite foldM_snoc. fold (run e evs).
  destruct (run e evs) as [st0|] eqn:Hrun; simpl; [|done].
  intros H.
  assert (length (_next_nodes st') = SHOW_NEXT_N_TILES) as Hlen.
  { eapply add_current_tile_length; [|done]. by eapply run_frontier_bound. }
  assert (_current_nodes st' <> []) as Hocc
    by (by eapply add_current_tile_occupied).
  split; [done|]. split; [done|].
  apply add_current_tile_shape in H as (live & m & Hlive & Hnn & Hm).
  exists live. split; [done|]. rewrite Hnn in Hlen |- *.
  rewrite length_app, length_replicate in Hlen.
  split; [f_equal; f_equal; lia|].
  intros Hlt. eexists; split; [done|].
  assert (expand e (default (_current_nodes st') (last live)) = Some []) as Hx
    by (apply Hm; lia).
  split; [|split; [done|by apply expand_nil]].
  destruct (last live) as [s|] eqn:Hl; [|done]. simpl.
  rewrite Forall_forall in Hlive. apply Hlive.
  rewrite last_lookup in Hl. by eapply list_elem_of_lookup_2.
Qed.

Lemma frontier_length_after_begin_witness :
  exists st',
    run spur_env ([BeginContact 35 0 false] ++ [BeginContact 36 0 false])
      = Some st' /\
    length (_next_nodes st') = SHOW_NEXT_N_TILES /\
    _current_nodes st' <> [] /\
    exists live,
      Forall (fun s : step => s <> []) live /\
      _next_nodes st' = live ++ replicate (SHOW_NEXT_N_TILES - length live) [] /\
      ((length live < SHOW_NEXT_N_TILES)%nat ->
         exists before,
           before = default (_current_nodes st') (last live) /\
           before <> [] /\
           expand spur_env before = Some [] /\
           forall id inner lane d,
             (id, inner) ∈ before -> (lane, d) ∈ inner ->
             no_successor spur_env id d).
Proof.
  eexists. split; [vm_compute; reflexivity|].
  apply (frontier_length_after_begin spur_env [BeginContact 35 0 false] 36 0 false).
  vm_compute; reflexivity.
Defined.

(** C3, as stated, fails on the dead-end tile itself: entering tile 39 of
    the spur heading forward leaves no successor at all, yet the frontier
    is not shorter than N: it holds ten empty steps. *)
Lemma frontier_not_shorter_at_dead_end :
  exists st',
    run spur_env [BeginContact 39 0 false] = Some st' /\
    _current_nodes st' = [(39, [(0, 1)])] /\
    _get_next_node spur_env 39 0 1 = Some [] /\
    _next_nodes st' = replicate 10 [] /\
    ~ (length (_next_nodes st') < SHOW_NEXT_N_TILES)%nat.
Proof.
  eexists. split; [vm_compute; reflexivity|].
  split; [vm_compute; reflexivity|].
  split; [vm_compute; reflexivity|].
  split; [vm_compute; reflexivity|].
  vm_compute. lia.
Qed.

(** *** Reconciliation with the head of the frontier *)

Lemma reconcile_match id lane d s0 rest :
  head_matches id lane d s0 = true ->
  exists s0', reconcile id lane d (s0 :: rest) = s0' :: rest /\
    dget2 id lane s0' = None /\
    (forall k l, (k, l) <> (id, lane) -> dget2 k l s0' = dget2 k l s0) /\
    (forall inner, dget id s0 = Some inner -> dlen inner <= 1 ->
       dget id s0' = None) /\
    (forall inner, dget id s0 = Some inner -> 1 < dlen inner ->
       dget id s0' = Some (ddel lane inner)).
Proof.
  intros Hm. simpl. rewrite Hm. unfold head_matches in Hm.
  destruct (dget id s0) as [inner|] eqn:Hin; [|done].
  destruct (dget lane inner) as [d0|] eqn:Hl; [|done].
  destruct (Z.ltb_spec 1 (dlen inner)) as [Hlt|Hle].
  - eexists; split; [done|]. repeat split.
    + rewrite dget2_unfold, dget_dset_eq. apply dget_ddel_eq.
    + intros k l Hne. rewrite !dget2_unfold.
      destruct (Z.eq_dec id k) as [<-|Hk].
      * rewrite dget_dset_eq, Hin. apply dget_ddel_ne. congruence.
      * by rewrite dget_dset_ne.
    + intros inner' ? ?; simplify_eq; lia.
    + intros inner' ? _; simplify_eq. apply dget_dset_eq.
  - eexists; split; [done|]. repeat split.
    + rewrite dget2_unfold. by rewrite dget_ddel_eq.
    + intros k l Hne. rewrite !dget2_unfold.
      destruct (Z.eq_dec id k) as [<-|Hk].
      * rewrite dget_ddel_eq, Hin. symmetry.
        eapply (dget_single lane l); [done|done|congruence].
      * by rewrite dget_ddel_ne.
    + intros. apply dget_ddel_eq.
    + intros inner' ? ?; simplify_eq; lia.
Qed.

(** C2, as amended: on a begin-contact for tile [id], lane [lane].  When
    the first step of the frontier holds [(id, lane)] with the computed
    direction, that entry alone is consumed (the lane entry, or the tile
    entry when it was its only lane) and every other entry of the step is
    unchanged.  The steps that are then non-empty are kept, in order, at
    the front of the new frontier; the steps after them are new, as many
    as are missing to N, each one the expansion of the step before it (of
    the occupancy when nothing is kept).  When no step is kept, the update
    gives what it gives from an empty frontier: a full rebuild.  In every
    other case (another tile or lane, or another direction) the old
    frontier plays no part: the update gives what it gives from an empty
    frontier. *)
Theorem add_current_tile_reconciles e st id lane w st' :
  add_current_tile e st id lane w = Some st' ->
  match _next_nodes st with
  | s0 :: rest =>
      if head_matches id lane (direction_of w) s0 then
        exists s0' kept added,
          dget2 id lane s0' = None /\
          (forall k l, (k, l) <> (id, lane) -> dget2 k l s0' = dget2 k l s0) /\
          (forall inner, dget id s0 = Some inner -> dlen inner <= 1 ->
             dget id s0' = None) /\
          (forall inner, dget id s0 = Some inner -> 1 < dlen inner ->
             dget id s0' = Some (ddel lane inner)) /\
          kept = List.filter (fun s : step =>
                                match s with [] => false | _ :: _ => true end)
                             (s0' :: rest) /\
          _next_nodes st' = kept ++ added /\
          length added = (SHOW_NEXT_N_TILES - length kept)%nat /\
          (forall k s, (length kept <= k)%nat -> _next_nodes st' !! k = Some s ->
             expand e (step_before (_current_nodes st') (_next_nodes st') k)
               = Some s) /\
          (kept = [] ->
             add_current_tile e (State (_current_nodes st) []) id lane w = Some st')
      else
        add_current_tile e (State (_current_nodes st) []) id lane w = Some st'
  | [] => add_current_tile e (State (_current_nodes st) []) id lane w = Some st'
  end.
Proof.
  intros H. destruct st as [cur nn]; simpl. destruct nn as [|s0 rest]; [done|].
  destruct (head_matches id lane (direction_of w) s0) eqn:Hm.
  - destruct (reconcile_match id lane _ s0 rest Hm)
      as (s0' & Hrec & H1 & H2 & H3 & H4).
    exists s0', (clean (s0' :: rest)).
    pose proof H as H0.
    unfold add_current_tile in H. cbn [_next_nodes _current_nodes] in H.
    rewrite Hrec in H. bind_inv H. simplify_eq.
    match goal with
    | H : refill _ _ _ _ = Some _ |- _ =>
        pose proof (refill_chain _ _ _ _ _ H) as Hchain;
        apply refill_app in H as (added & Heq & Hadd)
    end.
    exists added. cbn [_next_nodes _current_nodes].
    split; [done|]. split; [done|]. split; [done|]. split; [done|].
    split; [apply clean_filter|]. split; [done|]. split; [done|].
    split; [done|].
    intros Hk. rewrite <- H0. unfold add_current_tile.
    cbn [_next_nodes _current_nodes]. by rewrite Hrec, Hk.
  - rewrite <- H. unfold add_current_tile.
    cbn [_next_nodes _current_nodes reconcile]. by rewrite Hm.
Qed.

Lemma add_current_tile_reconciles_witness :
  add_current_tile spur_env on_tile_5 6 0 false = Some on_tile_6 /\
  match _next_nodes on_tile_5 with
  | s0 :: rest =>
      if head_matches 6 0 (direction_of false) s0 then
        exists s0' kept added,
          dget2 6 0 s0' = None /\
          (forall k l, (k, l) <> (6, 0) -> dget2 k l s0' = dget2 k l s0) /\
          (forall inner, dget 6 s0 = Some inner -> dlen inner <= 1 ->
             dget 6 s0' = None) /\
          (forall inner, dget 6 s0 = Some inner -> 1 < dlen inner ->
             dget 6 s0' = Some (ddel 0 inner)) /\
          kept = List.filter (fun s : step =>
                                match s with [] => false | _ :: _ => true end)
                             (s0' :: rest) /\
          _next_nodes on_tile_6 = kept ++ added /\
          length added = (SHOW_NEXT_N_TILES - length kept)%nat /\
          (forall k s, (length kept <= k)%nat ->
             _next_nodes on_tile_6 !! k = Some s ->
             expand spur_env
               (step_before (_current_nodes on_tile_6) (_next_nodes on_tile_6) k)
               = Some s) /\
          (kept = [] ->
             add_current_tile spur_env (State (_current_nodes on_tile_5) [])
               6 0 false = Some on_tile_6)
      else
        add_current_tile spur_env (State (_current_nodes on_tile_5) []) 6 0 false
          = Some on_tile_6
  | [] =>
      add_current_tile spur_env (State (_current_nodes on_tile_5) []) 6 0 false
        = Some on_tile_6
  end.
Proof.
  split; [vm_compute; reflexivity|].
  apply (add_current_tile_reconciles spur_env on_tile_5 6 0 false on_tile_6).
  vm_compute; reflexivity.
Defined.

(** C2, as stated, fails one step before a dead end.  After entering
    tile 38 of the spur heading forward, the frontier is the single
    prediction of tile 39 followed by nine empty steps.  Entering tile 39
    matches the head of the frontier, yet consuming the entry leaves no
    non-empty step: nothing of the old frontier is kept, all ten steps are
    built again from the occupancy, and the result is the one of a
    discarded frontier. *)
Lemma matching_head_rebuilds_before_dead_end :
  exists st st',
    run spur_env [BeginContact 38 0 false] = Some st /\
    _next_nodes st = [(39, [(0, 1)])] :: replicate 9 [] /\
    head_matches 39 0 (direction_of false) [(39, [(0, 1)])] = true /\
    add_current_tile spur_env st 39 0 false = Some st' /\
    clean (reconcile 39 0 (direction_of false) (_next_nodes st)) = [] /\
    refill SHOW_NEXT_N_TILES spur_env (_current_nodes st') []
      = Some (_next_nodes st') /\
    add_current_tile spur_env (State (_current_nodes st) []) 39 0 false
      = Some st'.
Proof.
  eexists. eexists. split; [vm_compute; reflexivity|].
  split; [vm_compute; reflexivity|].
  split; [vm_compute; reflexivity|].
  split; [vm_compute; reflexivity|].
  split; [vm_compute; reflexivity|].
  split; vm_compute; reflexivity.
Qed.

(** *** Successors at an intersection group *)

Section group.
Context (e : env) (next_id lane direction : Z).

(** What the loop writes for a tile of the main track. *)
Definition main_entry (t : Z) : dict Z :=
  if t =? next_id then [(lane, direction)] else [(1, 0); (0, 0)].

Lemma group_body_main nn d t tt :
  py_index (info e) t = Some tt -> (0 <? track tt) = false ->
  group_body e next_id lane (nn, d) t
  = Some (dset t (if t =? next_id then [(lane, d)] else [(1, 0); (0, 0)]) nn, d).
Proof.
  intros Ht Hm. unfold group_body. rewrite Ht. simpl. rewrite Hm.
  unfold dset2. destruct (t =? next_id); rewrite !dget_dset_eq; simpl;
    rewrite ?dget_dset_eq; simpl; by rewrite !dset_dset.
Qed.

Lemma group_body_other nn d t tt :
  py_index (info e) t = Some tt -> (0 <? track tt) = true ->
  exists d', group_body e next_id lane (nn, d) t
             = Some (dset t [(1, d'); (0, d')] nn, d') /\
    (end_ tt || start tt = true -> d' = -1).
Proof.
  intros Ht Hm. unfold group_body. rewrite Ht. simpl. rewrite Hm.
  eexists. split.
  - unfold dset2. rewrite !dget_dset_eq. simpl. rewrite dget_dset_eq. simpl.
    by rewrite !dset_dset.
  - by destruct (end_ tt), (start tt).
Qed.

Lemma group_loop_main ids : forall acc,
  Forall (fun t => exists tt, py_index (info e) t = Some tt /\
                              (0 <? track tt) = false) ids ->
  foldM (group_body e next_id lane) ids (acc, direction)
  = Some (fold_left (fun a t => dset t (main_entry t) a) ids acc, direction).
Proof.
  induction ids as [|t ids IH]; intros acc Hall; cbn [foldM fold_left]; [done|].
  apply Forall_cons in Hall as [(tt & Ht & Hm) Hall].
  rewrite (group_body_main _ _ _ _ Ht Hm). cbn [mbind option_bind].
  by rewrite IH.
Qed.

Lemma group_loop_other ids : forall acc d,
  Forall (fun t => exists tt, py_index (info e) t = Some tt /\
                              (0 <? track tt) = true) ids ->
  exists r d', foldM (group_body e next_id lane) ids (acc, d) = Some (r, d') /\
    (forall k, k ∉ ids -> dget k r = dget k acc) /\
    (forall t tt, t ∈ ids -> py_index (info e) t = Some tt ->
       exists d0, dget t r = Some [(1, d0); (0, d0)] /\
                  (end_ tt || start tt = true -> d0 = -1)).
Proof.
  induction ids as [|t ids IH]; intros acc d Hall.
  - exists acc, d. split; [done|]. split; [done|].
    intros t tt Hin. by apply elem_of_nil in Hin.
  - apply Forall_cons in Hall as [(tt & Ht & Hm) Hall].
    destruct (group_body_other acc d t tt Ht Hm) as (d1 & Hb & Hd1).
    destruct (IH (dset t [(1, d1); (0, d1)] acc) d1 Hall) as (r & d' & Hf & Hout & Hin).
    exists r, d'. cbn [foldM]. rewrite Hb. cbn [mbind option_bind].
    split; [done|]. split.
    + intros k Hk. apply not_elem_of_cons in Hk as [Hne Hk].
      rewrite Hout by done. by apply dget_dset_ne.
    + intros t' tt' Ht' Hidx. destruct (decide (t' ∈ ids)) as [Hi|Hni].
      * by apply Hin.
      * apply elem_of_cons in Ht' as [->|?]; [|done].
        simplify_eq. exists d1. split; [|done].
        rewrite Hout by done. apply dget_dset_eq.
Qed.

End group.

Definition in_group (g : Z) (p : nat * tile_info) : option Z :=
  if intersection_id (snd p) =? g then Some (Z.of_nat (fst p)) else None.

Lemma where_intersection_app m o g :
  where_intersection (m ++ o) g
  = where_intersection m g ++
    omap (in_group g) (imap (fun i t => ((length m + i)%nat, t)) o).
Proof. unfold where_intersection. by rewrite imap_app, omap_app. Qed.

Lemma elem_of_where g (F : nat -> nat) (l : list tile_info) z :
  z ∈ omap (in_group g) (imap (fun i t => (F i, t)) l) <->
  exists i tt, z = Z.of_nat (F i) /\ l !! i = Some tt /\ intersection_id tt = g.
Proof.
  rewrite list_elem_of_omap. split.
  - intros ([j t] & Hin & Hf). apply elem_of_lookup_imap in Hin as (i & tt & Heq & Hl).
    simplify_eq. unfold in_group in Hf. simpl in Hf.
    destruct (Z.eqb_spec (intersection_id tt) g); [|done]. simplify_eq. eauto.
  - intros (i & tt & -> & Hl & Hg). exists (F i, tt). split.
    + apply elem_of_lookup_imap. eauto.
    + unfold in_group. simpl. by rewrite Hg, Z.eqb_refl.
Qed.

(** C4 for a caller on the main track.  The table lists the main track
    first ([m], without start or end tiles, as [_create_info] leaves it)
    and the other tiles after it ([o]).  When the naive successor
    [next_id] lies in group [g], every tile of the group is a key of the
    result; a tile of another track has the same direction on both lanes,
    -1 when it is a start or end tile; the naive successor keeps the
    caller's lane and direction; every other main-track tile of the group
    has direction 0 on both lanes. *)
Lemma get_next_node_group_from_main e m o n0 rest id lane direction ti tn g :
  info e = m ++ o ->
  Forall (fun t => (0 <? track t) = false /\ end_ t = false /\ start t = false) m ->
  Forall (fun t => (0 <? track t) = true) o ->
  tracks e = n0 :: rest -> n0 <> 0%nat ->
  0 <= id -> m !! Z.to_nat id = Some ti -> track ti = 0 ->
  let next_id := (id + direction) mod Z.of_nat n0 in
  info e !! Z.to_nat next_id = Some tn -> intersection_id tn = g -> g <> -1 ->
  exists r, _get_next_node e id lane direction = Some r /\
    forall t tt, info e !! t = Some tt -> intersection_id tt = g ->
      if 0 <? track tt
      then exists d, dget (Z.of_nat t) r = Some [(1, d); (0, d)] /\
                     (end_ tt || start tt = true -> d = -1)
      else dget (Z.of_nat t) r
           = Some (if Z.of_nat t =? next_id then [(lane, direction)]
                   else [(1, 0); (0, 0)]).
Proof.
  intros Hinfo Hm Ho Htracks Hn0 Hid Hti Htrack next_id Htn Hg Hg1.
  assert (0 <= next_id) as Hnext by (apply Z.mod_pos_bound; lia).
  assert (py_index (info e) id = Some ti) as Hidx.
  { rewrite <- (Z2Nat.id id), py_index_nat, Hinfo by done. by apply lookup_app_l_Some. }
  pose proof (Forall_lookup_1 _ _ _ _ Hm Hti) as (_ & He & Hs).
  (* the two halves of the group *)
  assert (Forall (fun t => exists tt, py_index (info e) t = Some tt /\
                                      (0 <? track tt) = false)
                 (where_intersection m g)) as Hmain.
  { apply Forall_forall. intros z Hz.
    apply (elem_of_where g (fun i => i) m z) in Hz as (i & tt & -> & Hl & _).
    exists tt. rewrite py_index_nat, Hinfo. split; [by apply lookup_app_l_Some|].
    by apply (Forall_lookup_1 _ _ _ _ Hm Hl). }
  set (others := omap (in_group g) (imap (fun i t => ((length m + i)%nat, t)) o)).
  assert (Forall (fun t => exists tt, py_index (info e) t = Some tt /\
                                      (0 <? track tt) = true) others) as Hoth.
  { apply Forall_forall. intros z Hz.
    apply (elem_of_where g (fun i => (length m + i)%nat) o z) in Hz
      as (i & tt & -> & Hl & _).
    exists tt. rewrite py_index_nat, Hinfo. split.
    - rewrite lookup_app_r by lia. by replace (length m + i - length m)%nat with i by lia.
    - by apply (Forall_lookup_1 _ _ _ _ Ho Hl). }
  destruct (group_loop_other e next_id lane others
              (fold_left (fun a t => dset t (main_entry next_id lane direction t) a)
                         (where_intersection m g) [])
              direction Hoth) as (r & d' & Hfold & Hout & Hin).
  exists r. split.
  - unfold _get_next_node. rewrite Hidx. simpl. rewrite He, Hs. simpl.
    unfold relative. rewrite Htrack. simpl. rewrite Htracks. simpl.
    destruct (Z.eqb_spec (Z.of_nat n0) 0); [lia|]. simpl.
    replace (id - id + (id + direction) mod Z.of_nat n0) with next_id
      by (unfold next_id; lia).
    rewrite <- (Z2Nat.id next_id), py_index_nat, Htn by done. simpl.
    rewrite Hg. destruct (Z.eqb_spec g (-1)); [done|]. simpl.
    fold next_id.
    rewrite Hinfo, where_intersection_app, foldM_app.
    rewrite (group_loop_main e next_id lane direction _ _ Hmain).
    cbn [mbind option_bind]. fold others.
    exact (f_equal (fmap fst) Hfold).
  - intros t tt Ht Htg. rewrite Hinfo in Ht.
    apply lookup_app_Some in Ht as [Ht|[Hlen Ht]].
    + pose proof (Forall_lookup_1 _ _ _ _ Hm Ht) as (Hmt & _). rewrite Hmt.
      rewrite Hout.
      * rewrite dget_fold_dset. rewrite decide_True; [done|].
        apply (elem_of_where g (fun i => i) m). eauto.
      * intros Hc.
        apply (elem_of_where g (fun i => (length m + i)%nat) o) in Hc
          as (i & ? & Heq & _). apply lookup_lt_Some in Ht. lia.
    + pose proof (Forall_lookup_1 _ _ _ _ Ho Ht) as Hot. rewrite Hot.
      apply Hin.
      * apply (elem_of_where g (fun i => (length m + i)%nat) o).
        exists (t - length m)%nat, tt. split; [f_equal; lia|]. done.
      * rewrite py_index_nat, Hinfo, lookup_app_r by done. done.
Qed.

(** The lemma at [cross_env], from tile 30 of the main track. *)
Example get_next_node_group_from_main_cross :
  exists r, _get_next_node cross_env 30 0 1 = Some r /\
    dget 31 r = Some [(0, 1)] /\
    exists d, dget 131 r = Some [(1, d); (0, d)].
Proof.
  destruct (get_next_node_group_from_main cross_env
              (take 100 (info cross_env)) (drop 100 (info cross_env))
              100%nat [60%nat] 30 0 1
              (TileInfo 0 false false (-1) [true; true])
              (TileInfo 0 false false 31 [true; true]) 31)
    as (r & Hr & Hgroup); try (vm_compute; reflexivity); try done.
  - apply Forall_forall. intros t0 Ht.
    repeat (apply elem_of_cons in Ht as [->|Ht]; [by vm_compute|]).
    by apply elem_of_nil in Ht.
  - apply Forall_forall. intros t0 Ht.
    repeat (apply elem_of_cons in Ht as [->|Ht]; [by vm_compute|]).
    by apply elem_of_nil in Ht.
  - exists r. split; [done|]. split.
    + apply (Hgroup 31%nat (TileInfo 0 false false 31 [true; true]));
        vm_compute; reflexivity.
    + destruct (Hgroup 131%nat (TileInfo 1 false false 31 [true; true]))
        as (d & Hd & _); [vm_compute; reflexivity..|]. by exists d.
Qed.

(** C4 at a caller on the second track.  From tile 130 (relative index
    30) heading forward on lane 0, the naive successor is tile 131, in
    group 31.  Tile 31 is a main-track tile of the group and is not the
    naive successor, yet it keeps the caller's lane and direction, because
    the loop compares the absolute [tmp_id] with the relative [next_id]
    (31 = 31); both lanes at direction 0 is what the comment in the loop
    and the sibling branch (which uses [id - id_relative + next_id])
    call for. *)
Lemma get_next_node_relative_id_clash :
  _get_next_node cross_env 130 0 1
    = Some [(31, [(0, 1)]); (131, [(1, 1); (0, 1)])] /\
  (track <$> py_index (info cross_env) 31) = Some 0 /\
  dget2 31 1 [(31, [(0, 1)]); (131, [(1, 1); (0, 1)])] = None /\
  dget2 31 0 [(31, [(0, 1)]); (131, [(1, 1); (0, 1)])] <> Some 0.
Proof.
  split; [vm_compute; reflexivity|].
  split; [vm_compute; reflexivity|].
  split; [vm_compute; reflexivity|].
  vm_compute. congruence.
Qed.

(** The same group entered from the main track (tile 30, lane 0,
    forward): tile 31 is then the naive successor and rightly keeps the
    caller's lane and direction. *)
Lemma get_next_node_main_caller :
  _get_next_node cross_env 30 0 1
    = Some [(31, [(0, 1)]); (131, [(1, 1); (0, 1)])].
Proof. vm_compute; reflexivity. Qed.

End Graph.

(** ** Contact listener and tile credit *)

Module Contact.

(** A body of [self.road]: a tile body carries [id], [lane] and its own
    [road_visited] flag ([_create_track] makes one body per tile and
    enabled lane); an obstacle body is created with [road_visited = True]
    and has no [id]. *)
Inductive body : Type :=
| Tile (id lane : Z) (road_visited : bool)
| Obstacle (road_visited : bool).

Definition road_visited_of (b : body) : bool :=
  match b with Tile _ _ v => v | Obstacle v => v end.

Definition visit (b : body) : body :=
  match b with Tile i l _ => Tile i l true | Obstacle _ => Obstacle true end.

(** What [_contact] reads and writes.  [tiles] is the union of the sets
    [obj.tiles] of the wheels, as pairs (wheel, index in [road]). *)
Record world : Type := World {
  road : list body;
  graph : Graph.state;
  reward : Q;
  tile_visited_count : Z;
  tiles : list (nat * nat);
  last_touch_with_track : Q;
  t : Q
}.

Definition OBSTACLE_VALUE : Q := (-10)%Q.

(** [np.clip] with bounds that may be infinite ([None]). *)
Definition clip (x : Q) (lo hi : option Q) : Q :=
  let x := match lo with Some l => if Qle_bool l x then x else l | None => x end in
  match hi with Some h => if Qle_bool x h then x else h | None => x end.

(** "Create tiles" of [_create_track]: the bodies appended to
    [self.road], in order.  The joint geometry of start and end tiles,
    which may raise, is in [Reset.create_tiles] below. *)
Definition tile_bodies (num_lanes : Z) (info : list tile_info)
  : option (list body) :=
  foldM (fun road (jt : nat * tile_info) =>
           foldM (fun road lane =>
                    on ← py_index (lanes (snd jt)) lane;
                    Some (if on : bool
                          then road ++ [Tile (Z.of_nat (fst jt)) lane false]
                          else road))
                 (zrange num_lanes) road)
        (imap (fun j ti => (j, ti)) info) [].

(** [FrictionDetector._contact] for a contact between the road body of
    index [b] and the other body [obj]: [Some wheel] when it is a wheel
    (it has [tiles]), [None] otherwise.  The name [env] that line 122 and
    136 use is the module-level environment of the script, the same
    object as [self.env].  The colour reset is not modelled. *)
Definition _contact (e : Graph.env) (min_episode_reward max_episode_reward : option Q)
  (w : world) (b : nat) (obj : option nat) (begin : bool)
  (wrapped_gt_pi : bool) : option world :=
  match road w !! b, obj with
  | None, _ => Some w
  | Some _, None => Some w
  | Some tile, Some wheel =>
      let reward0 :=
        match tile with
        | Obstacle _ => (reward w + OBSTACLE_VALUE)%Q
        | Tile _ _ _ => reward w
        end in
      if begin then
        g ← match tile with
            | Tile id lane _ => Graph.add_current_tile e (graph w) id lane wrapped_gt_pi
            | Obstacle _ => Some (graph w)
            end;
        let tiles' := if bool_decide ((wheel, b) ∈ tiles w) then tiles w
                      else tiles w ++ [(wheel, b)] in
        if negb (road_visited_of tile) then
          let n := length (Graph.info e) in
          if Nat.eqb n 0 then None else
          let reward_episode :=
            clip (1000 / inject_Z (Z.of_nat n))%Q
                 min_episode_reward max_episode_reward in
          Some (World (<[b := visit tile]> (road w)) g
                      (reward0 + reward_episode)%Q
                      (tile_visited_count w + 1) tiles'
                      (last_touch_with_track w) (t w))
        else
          Some (World (road w) g reward0 (tile_visited_count w) tiles'
                      (last_touch_with_track w) (t w))
      else
        if bool_decide ((wheel, b) ∈ tiles w) then
          match tile with
          | Tile id lane _ =>
              g ← Graph.remove_current_tile (graph w) id lane;
              Some (World (road w) g reward0 (tile_visited_count w)
                          (List.filter (fun p => negb (bool_decide (p = (wheel, b))))
                                       (tiles w))
                          (t w) (t w))
          | Obstacle _ => None
          end
        else None
  end.

(** The state [reset] leaves, over a given road. *)
Definition reset_world (road : list body) : world :=
  World road (Graph.State [] []) 0%Q 0 [] 0%Q 0%Q.

(** A single closed track of 12 tiles, built with [num_lanes = 2] and
    every lane enabled. *)
Definition two_lane_env : Graph.env :=
  Graph.Env (map (fun _ : nat => TileInfo 0 false false (-1) [true; true])
                 (seq 0 12))
            [12%nat].

Definition two_lane_road : list body :=
  Eval vm_compute in default [] (tile_bodies 2 (Graph.info two_lane_env)).

(** A body that is already visited earns no credit. *)
Lemma contact_visited_no_credit e lo hi w b obj begin wg w' tile :
  road w !! b = Some tile -> road_visited_of tile = true ->
  _contact e lo hi w b obj begin wg = Some w' ->
  tile_visited_count w' = tile_visited_count w.
Proof.
  unfold _contact. intros -> Hv H. destruct obj as [wheel|]; [|by simplify_eq].
  rewrite Hv in H. destruct begin; simpl in H.
  - bind_inv H. by simplify_eq.
  - destruct (bool_decide _); [|done]. destruct tile; [|done].
    bind_inv H. by simplify_eq.
Qed.

(** The number of bodies whose flag is set. *)
Definition visited_bodies (road : list body) : Z :=
  count_if road_visited_of road.

Lemma visited_bodies_visit road b tile :
  road !! b = Some tile -> road_visited_of tile = false ->
  visited_bodies (<[b := visit tile]> road) = visited_bodies road + 1.
Proof.
  intros Hb Hv. unfold visited_bodies, count_if.
  rewrite insert_take_drop by (by eapply lookup_lt_Some).
  rewrite <- (take_drop_middle road b tile Hb) at 3.
  rewrite !List.filter_app, !length_app. simpl. rewrite Hv.
  assert (road_visited_of (visit tile) = true) as -> by (by destruct tile).
  simpl. lia.
Qed.

(** Every credit sets the flag of one more body. *)
Lemma contact_credit_per_body e lo hi w b obj begin wg w' :
  _contact e lo hi w b obj begin wg = Some w' ->
  tile_visited_count w' - visited_bodies (road w')
  = tile_visited_count w - visited_bodies (road w).
Proof.
  unfold _contact. intros H.
  destruct (road w !! b) as [tile|] eqn:Hb; [|by simplify_eq].
  destruct obj as [wheel|]; [|by simplify_eq].
  destruct begin.
  - bind_inv H. destruct (road_visited_of tile) eqn:Hv; simpl in H.
    + by simplify_eq.
    + destruct (Nat.eqb _ 0); [done|]. simplify_eq. simpl.
      rewrite (visited_bodies_visit _ _ _ Hb Hv). lia.
  - destruct (bool_decide _); [|done]. destruct tile; [|done].
    bind_inv H. by simplify_eq.
Qed.

(** A contact event: road body, other body, begin or end, heading test. *)
Definition contact_event : Type := (nat * option nat * bool * bool)%type.

Definition contacts (e : Graph.env) (lo hi : option Q) (w : world)
  (evs : list contact_event) : option world :=
  foldM (fun w '(b, obj, begin, wg) => _contact e lo hi w b obj begin wg) evs w.

(** Over an episode the count of credits is the count of visited bodies:
    one credit per body (tile and lane) at most. *)
Lemma credits_are_visited_bodies e lo hi bodies evs w' :
  Forall (fun b => road_visited_of b = false) bodies ->
  contacts e lo hi (reset_world bodies) evs = Some w' ->
  tile_visited_count w' = visited_bodies (road w') /\
  tile_visited_count w' <= Z.of_nat (length (road w')).
Proof.
  intros Hfresh Hrun.
  assert (tile_visited_count w' - visited_bodies (road w') = 0) as Heq.
  { revert Hrun. unfold contacts.
    apply (foldM_preserve
             (fun w => tile_visited_count w - visited_bodies (road w) = 0)).
    - intros w [[[b obj] begin] wg] w1 Hw Hc.
      apply contact_credit_per_body in Hc. lia.
    - simpl. unfold visited_bodies, count_if.
      replace (List.filter road_visited_of bodies) with (@nil body); [done|].
      symmetry. induction Hfresh as [|x l Hx _ IH]; simpl; [done|]. by rewrite Hx. }
  split; [lia|].
  assert (visited_bodies (road w') <= Z.of_nat (length (road w'))).
  { unfold visited_bodies, count_if. pose proof (List.filter_length_le road_visited_of (road w')). lia. }
  lia.
Qed.

(** C1 on a two-lane road: the two lanes of tile 5 are the bodies of
    index 10 and 11, each with a flag of its own.  The first begin-contact
    on lane 0 credits the tile, and the later first begin-contact on lane 1
    credits the same tile id a second time. *)
Lemma tile_credited_once_per_lane :
  tile_bodies 2 (Graph.info two_lane_env) = Some two_lane_road /\
  two_lane_road !! 10%nat = Some (Tile 5 0 false) /\
  two_lane_road !! 11%nat = Some (Tile 5 1 false) /\
  exists w1 w2,
    _contact two_lane_env None None (reset_world two_lane_road)
             10 (Some 0%nat) true false = Some w1 /\
    _contact two_lane_env None None w1 11 (Some 0%nat) true false = Some w2 /\
    tile_visited_count w1 = 1 /\
    tile_visited_count w2 = 2 /\
    (reward w2 == 2 * (1000 / 12))%Q.
Proof.
  split; [vm_compute; reflexivity|].
  split; [vm_compute; reflexivity|].
  split; [vm_compute; reflexivity|].
  eexists _, _.
  split; [vm_compute; reflexivity|].
  split; [vm_compute; reflexivity|].
  split; [vm_compute; reflexivity|].
  split; [vm_compute; reflexivity|].
  vm_compute; reflexivity.
Qed.

End Contact.

(** ** Lane assigner *)

Module Lanes.

Record config : Type := Config {
  num_tracks : Z;
  num_lanes : Z;
  num_lanes_changes : Z;
  max_single_lane : Z
}.

(** The four settings of [_set_config] that the lane assigner reads. *)
Definition _set_config (num_tracks num_lanes num_lanes_changes max_single_lane : Z)
  : config :=
  {| num_lanes := if (num_lanes =? 1) || (num_lanes =? 2) then num_lanes else 1;
     num_tracks := if (0 <? num_tracks) && (num_tracks <=? 2)
                   then num_tracks else 1;
     num_lanes_changes := if 0 <=? num_lanes_changes
                          then num_lanes_changes else 0;
     max_single_lane := if 10 <? max_single_lane then max_single_lane else 50 |}.

Definition with_lanes (ti : tile_info) (m : list bool) : tile_info :=
  TileInfo (track ti) (end_ ti) (start ti) (intersection_id ti) m.

(** [_create_info], lines 624-625: every tile gets a fresh list
    [[True, True]]; the other fields are inputs here. *)
Definition _create_info_lanes (info : list tile_info) : list tile_info :=
  map (fun ti => with_lanes ti [true; true]) info.

(** [self.info[i]['lanes'][lane] = v].  The list is an object shared by
    [self.info] and by every copy [self.info[mask]], so a write through a
    copy is a write to the tile itself. *)
Definition set_lane (info : list tile_info) (i lane : Z) (v : bool)
  : option (list tile_info) :=
  ti ← py_index info i;
  m ← py_set (lanes ti) lane v;
  py_set info i (with_lanes ti m).

(** The [for i in range(50+1)] loop with its [break]. *)
Fixpoint near_boundary (track_info : list tile_info) (idx_relative : Z)
  (range_i : list Z) : option bool :=
  match range_i with
  | [] => Some false
  | i :: range_i' =>
      a ← py_index track_info
             ((idx_relative + i) mod Z.of_nat (length track_info));
      if end_ a then Some true
      else
        b ← py_index track_info (idx_relative - i);
        if start b then Some true
        else near_boundary track_info idx_relative range_i'
  end.

(** Body of [for pos, idx in enumerate(changes)]; [next] on line 794 is
    an expression without effect, so both tests run. *)
Definition check_change (info : list tile_info) (changes : list Z)
  (changes_bad : list Z) (idx : Z) : option (list Z) :=
  ti ← py_index info idx;
  let start_from := count_if (fun t => track t <? track ti) info in
  let until := count_if (fun t => track t =? track ti) info in
  let changes_in_track :=
    List.filter (fun c => (c <? until) && (0 <? c))
                (map (fun c => c - start_from) changes) in
  let idx_relative := idx - start_from in
  let changes_bad :=
    if 0 <? count_if (fun c => (0 <? c - idx) && (c - idx <? 10))
                     changes_in_track
    then changes_bad ++ [idx] else changes_bad in
  let track_info := List.filter (fun t => track t =? track ti) info in
  near ← near_boundary track_info idx_relative (zrange 51);
  Some (if near : bool then changes_bad ++ [idx] else changes_bad).

(** [np.setdiff1d]: the sorted, unique values of [a] that are not in [b]. *)
Definition setdiff1d (a b : list Z) : list Z :=
  merge_sort Z.le (remove_dups (List.filter (fun x => negb (bool_decide (x ∈ b))) a)).

(** State of the main loop: [rm_lane], [lane], [counter], the number of
    draws taken from [np.random] so far, and the table. *)
Record walk : Type := Walk {
  rm_lane : Z;
  lane : Z;
  counter : Z;
  drawn : nat;
  table : list tile_info
}.

(** Body of [for i, point in enumerate(self.track)].  [picks k] is the
    value of the [k]-th call [np.random.randint(0,2,1)[0]] ([true] for 1). *)
Definition lane_body (c : config) (changes : list Z) (picks : nat -> bool)
  (s : walk) (i : Z) : option walk :=
  let change := bool_decide (i ∈ changes) in
  let rm_lane := (rm_lane s + Z.b2z change) mod 2 in
  let '(lane, drawn) :=
    if change && (rm_lane =? 1)
    then (Z.b2z (picks (drawn s)), S (drawn s))
    else (lane s, drawn s) in
  '(table, counter) ←
    (if negb (rm_lane =? 0)
     then tb ← set_lane (table s) i lane false; Some (tb, counter s + 1)
     else Some (table s, 0));
  ti ← py_index table i;
  let rm_lane :=
    if end_ ti || start ti || (max_single_lane c <? counter) then 0
    else rm_lane in
  Some (Walk rm_lane lane counter drawn table).

(** [np.where(self.info['track'] == num_track)[0]]: the tiles that the
    copy [self.info[self.info['track'] == num_track]] lists, in order. *)
Definition positions (info : list tile_info) (num_track : Z) : list Z :=
  omap (fun p : nat * tile_info =>
          if track (snd p) =? num_track then Some (Z.of_nat (fst p)) else None)
       (imap (fun i t => (i, t)) info).

(** Lines 827-828 for one [num_track], [lane], [i]. *)
Definition override_one (num_track lane : Z) (info : list tile_info) (i : Z)
  : option (list tile_info) :=
  p ← py_index (positions info num_track) i;
  info ← set_lane info p lane true;
  q ← py_index (positions info num_track) (- i);
  set_lane info q lane true.

Definition override (c : config) (info : list tile_info)
  : option (list tile_info) :=
  foldM (fun info num_track =>
           foldM (fun info lane =>
                    foldM (override_one num_track lane) (zrange 10) info)
                 (zrange (num_lanes c)) info)
        (zrange (num_tracks c)) info.

(** [_set_lanes].  [seeded] is the array that
    [self.np_random.randint(0, len(self.track), self.num_lanes_changes)]
    returns; [picks] are the draws of the module-level [np.random]. *)
Definition _set_lanes (c : config) (info : list tile_info) (seeded : list Z)
  (picks : nat -> bool) : option (list tile_info) :=
  if (0 <? num_lanes_changes c) && (1 <? num_lanes c) then
    let changes := merge_sort Z.le seeded in
    changes_bad ← foldM (check_change info changes) changes [];
    let changes := if (0 <? Z.of_nat (length changes_bad))
                   then setdiff1d changes changes_bad else changes in
    s ← foldM (lane_body c changes picks)
              (zrange (Z.of_nat (length info)))
              (Walk 0 0 0 O info);
    override c (table s)
  else Some info.

(** A single closed track of 100 tiles as [_create_info] leaves it. *)
Definition ring100 : list tile_info :=
  _create_info_lanes (replicate 100 (TileInfo 0 false false (-1) [])).

(** Two lanes, one lane change, [max_single_lane] left at its default. *)
Definition two_lanes_one_change : config := _set_config 1 2 1 0.

(** *** Some lane of every tile stays enabled *)

(** A lane mask with both slots and at least one lane enabled. *)
Definition ok (m : list bool) : Prop :=
  m = [true; true] \/ m = [true; false] \/ m = [false; true].

Lemma py_set_ok_true m lane m' : ok m -> py_set m lane true = Some m' -> ok m'.
Proof.
  unfold ok. intros [->|[->| ->]] H; apply py_set_pair in H as [->| ->]; auto.
Qed.

Lemma py_set_fresh_false lane m' : py_set [true; true] lane false = Some m' -> ok m'.
Proof. unfold ok. intros H; apply py_set_pair in H as [->| ->]; auto. Qed.

Lemma set_lane_Some info i lane v info' :
  set_lane info i lane v = Some info' ->
  exists j ti m, info !! j = Some ti /\ py_set (lanes ti) lane v = Some m /\
    info' = <[j := with_lanes ti m]> info /\ (0 <= i -> j = Z.to_nat i).
Proof.
  unfold set_lane. intros H. bind_inv H.
  match goal with H : py_index _ _ = Some _ |- _ =>
    apply py_index_Some in H as (j & Hj & Hi & Hset) end.
  rewrite Hset in H. simplify_eq. eauto 10.
Qed.

Definition all_ok (tb : list tile_info) : Prop := Forall (fun ti => ok (lanes ti)) tb.

Lemma set_lane_true_ok info i lane info' :
  all_ok info -> set_lane info i lane true = Some info' -> all_ok info'.
Proof.
  intros Hok H. apply set_lane_Some in H as (j & ti & m & Hj & Hm & -> & _).
  apply Forall_insert; [done|]. simpl.
  eapply py_set_ok_true; [|done]. by eapply (Forall_lookup_1 _ _ _ _ Hok).
Qed.

Lemma override_one_ok num_track lane info i info' :
  all_ok info -> override_one num_track lane info i = Some info' -> all_ok info'.
Proof.
  unfold override_one. intros Hok H. bind_inv H.
  eapply set_lane_true_ok; [|done]. by eapply set_lane_true_ok.
Qed.

Lemma override_ok c info info' :
  all_ok info -> override c info = Some info' -> all_ok info'.
Proof.
  unfold override. apply foldM_preserve. intros b nt b' Hb.
  apply foldM_preserve; [|done]. intros b1 ln b1' Hb1.
  apply foldM_preserve; [|done]. intros b2 i b2'. apply override_one_ok.
Qed.

Definition untouched_from (k : nat) (tb : list tile_info) : Prop :=
  forall j ti, (k <= j)%nat -> tb !! j = Some ti -> lanes ti = [true; true].

Lemma table_step_inv (b : bool) tb k lane cnt0 tb' cnt :
  all_ok tb -> untouched_from k tb ->
  (if b then set_lane tb (Z.of_nat k) lane false
             ≫= (fun tb1 => Some (tb1, cnt0))
   else Some (tb, 0)) = Some (tb', cnt) ->
  all_ok tb' /\ untouched_from (S k) tb'.
Proof.
  intros Hok Hun H. destruct b.
  - destruct (set_lane _ _ _ _) as [tb1|] eqn:Hset; simpl in H; [|done].
    simplify_eq.
    apply set_lane_Some in Hset as (j & ti & m & Hj & Hm & -> & Hjk).
    rewrite Hjk, Nat2Z.id in * by lia.
    rewrite (Hun k ti (le_n _) Hj) in Hm. apply py_set_fresh_false in Hm.
    split; [by apply Forall_insert|].
    intros j' ti' Hle Hl. rewrite list_lookup_insert_ne in Hl by lia.
    eapply Hun; [|done]. lia.
  - simplify_eq. split; [done|]. intros j ti ? ?. eapply Hun; [|done]. lia.
Qed.

Lemma lane_body_inv c changes picks s k s' :
  all_ok (table s) -> untouched_from k (table s) ->
  lane_body c changes picks s (Z.of_nat k) = Some s' ->
  all_ok (table s') /\ untouched_from (S k) (table s').
Proof.
  unfold lane_body. intros Hok Hun H.
  destruct (_ && _);
    (match type of H with
     | mbind _ ?x = _ => destruct x as [[tb cnt]|] eqn:Hs; simpl in H; [|done]
     end);
    (destruct (py_index tb _); simpl in H; [|done]);
    simplify_eq; simpl; by eapply table_step_inv.
Qed.

Lemma lane_loop_inv c changes picks n k s s' :
  all_ok (table s) -> untouched_from k (table s) ->
  foldM (lane_body c changes picks) (map Z.of_nat (seq k n)) s = Some s' ->
  all_ok (table s').
Proof.
  revert k s. induction n as [|n IH]; simpl; intros k s Hok Hun H.
  - by simplify_eq.
  - destruct (lane_body _ _ _ _ _) as [s1|] eqn:Hb; simpl in H; [|done].
    apply lane_body_inv in Hb as [? ?]; [|done..]. eauto.
Qed.

Lemma create_info_lanes_fresh info :
  all_ok (_create_info_lanes info) /\ untouched_from 0 (_create_info_lanes info).
Proof.
  unfold _create_info_lanes. split.
  - apply Forall_map, Forall_true. intros ti. simpl. by left.
  - intros j ti _ H.
    assert (Forall (fun ti => lanes ti = [true; true])
                   (map (fun ti => with_lanes ti [true; true]) info)) as Hall
      by (apply Forall_map, Forall_true; done).
    by eapply (Forall_lookup_1 _ _ _ _ Hall).
Qed.

(** Every mask that [_set_lanes] returns has both slots and an enabled
    lane. *)
Lemma set_lanes_all_ok c info seeded picks info' :
  _set_lanes c (_create_info_lanes info) seeded picks = Some info' ->
  all_ok info'.
Proof.
  destruct (create_info_lanes_fresh info) as [Hok Hun].
  unfold _set_lanes. intros H. destruct (_ && _).
  - bind_inv H. eapply override_ok; [|done].
    eapply lane_loop_inv; [| |done]; simpl; [done|].
    intros j ti ?. by apply Hun.
  - by simplify_eq.
Qed.

(** C7: after [_create_info] and [_set_lanes] (main loop and final
    override) no tile has the lane mask [[False, False]], whatever the
    configuration, the tile table and the random draws. *)
Theorem lane_mask_never_all_false c info seeded picks info' :
  _set_lanes c (_create_info_lanes info) seeded picks = Some info' ->
  Forall (fun ti => lanes ti <> [false; false]) info'.
Proof.
  intros H. apply set_lanes_all_ok in H. revert H.
  apply List.Forall_impl. intros ti [->|[->| ->]]; done.
Qed.

Lemma lane_mask_never_all_false_witness :
  exists info',
    _set_lanes two_lanes_one_change ring100 [90] (fun _ => false) = Some info' /\
    Forall (fun ti => lanes ti <> [false; false]) info'.
Proof.
  eexists. split; [vm_compute; reflexivity|].
  apply (lane_mask_never_all_false two_lanes_one_change
           (replicate 100 (TileInfo 0 false false (-1) [])) [90]
           (fun _ => false)).
  vm_compute; reflexivity.
Defined.

(** *** The final override *)

(** C6 on a ring of 100 tiles with two lanes and one lane change drawn at
    tile 90, lane 0 picked: the run of removed lanes covers tiles 90..99;
    the override restores the first ten tiles and, through [-i] with
    [i = 0..9], tile 0 again and the last nine tiles 91..99.  Tile 90, the
    tenth tile from the end, keeps lane 0 disabled. *)
Lemma tenth_last_tile_not_restored :
  exists info',
    _set_lanes two_lanes_one_change ring100 [90] (fun _ => false) = Some info' /\
    length info' = 100%nat /\
    lanes <$> take 10 info' = replicate 10 [true; true] /\
    lanes <$> drop 90 info' = [false; true] :: replicate 9 [true; true].
Proof.
  eexists. split; [vm_compute; reflexivity|].
  split; [vm_compute; reflexivity|].
  split; vm_compute; reflexivity.
Qed.

(** *** Which random source decides the lanes *)

(** C5 on the same ring: with the same draw of the seeded generator (one
    change, at tile 50) two runs that differ only in what the
    module-level [np.random] returns on line 811 give different lane
    masks. *)
Lemma lane_pick_not_seeded :
  exists a b,
    _set_lanes two_lanes_one_change ring100 [50] (fun _ => false) = Some a /\
    _set_lanes two_lanes_one_change ring100 [50] (fun _ => true) = Some b /\
    lanes <$> a !! 50%nat = Some [false; true] /\
    lanes <$> b !! 50%nat = Some [true; false] /\
    a <> b.
Proof.
  eexists _, _.
  split; [vm_compute; reflexivity|].
  split; [vm_compute; reflexivity|].
  split; [vm_compute; reflexivity|].
  split; [vm_compute; reflexivity|].
  intros E. apply (f_equal (fun l => lanes <$> l !! 50%nat)) in E.
  vm_compute in E. discriminate E.
Qed.

(** *** The guard *)

(** C10: unless there are more than one lane and at least one lane
    change, [_set_lanes] returns at once and the table stays as
    [_create_info] made it: both lanes enabled on every tile. *)
Theorem set_lanes_idle c info seeded picks :
  ~ (1 < num_lanes c /\ 0 < num_lanes_changes c) ->
  _set_lanes c (_create_info_lanes info) seeded picks
    = Some (_create_info_lanes info) /\
  Forall (fun ti => lanes ti = [true; true]) (_create_info_lanes info).
Proof.
  intros Hguard. split.
  - unfold _set_lanes.
    destruct (Z.ltb_spec 0 (num_lanes_changes c)),
             (Z.ltb_spec 1 (num_lanes c)); simpl; try done.
    exfalso. apply Hguard. lia.
  - unfold _create_info_lanes. apply List.Forall_map, Forall_true. done.
Qed.

Lemma set_lanes_idle_witness :
  ~ (1 < num_lanes (_set_config 1 1 3 0) /\
     0 < num_lanes_changes (_set_config 1 1 3 0)) /\
  _set_lanes (_set_config 1 1 3 0) ring100 [10; 40; 70] (fun _ => false)
    = Some ring100 /\
  Forall (fun ti => lanes ti = [true; true]) ring100.
Proof.
  split; [intros [H _]; vm_compute in H; discriminate H|].
  apply (set_lanes_idle (_set_config 1 1 3 0)
           (replicate 100 (TileInfo 0 false false (-1) []))
           [10; 40; 70] (fun _ => false)).
  intros [H _]; vm_compute in H; discriminate H.
Defined.

End Lanes.

(** ** Path synthesizer: the cursor loop of [_get_track]

    Numbers.  The source computes in binary64 floats.  The model computes
    in exact rationals: [math.pi] is the rational value of the double
    3.141592653589793, arithmetic does not round, and there is no NaN or
    infinity.  [math.atan2], [math.cos] and [math.sin] are parameters, and
    so are the draws of [self.np_random.uniform]. *)

Module Synth.

Local Open Scope Q_scope.

Definition pi : Q := 884279719003555 # 281474976710656.
Definition SCALE : Q := 6.
Definition TRACK_RAD : Q := 900 / SCALE.
Definition TRACK_DETAIL_STEP : Q := 21 / SCALE.
Definition TRACK_TURN_RATE : Q := 31 # 100.

(** [a > b] and [a < b] on numbers. *)
Definition gt (a b : Q) : bool := negb (Qle_bool a b).
Definition lt (a b : Q) : bool := negb (Qle_bool b a).

Definition Qmin (a b : Q) : Q := if Qle_bool a b then a else b.

(** The state of the [while 1] loop. *)
Record cursor : Type := Cursor {
  x : Q;
  y : Q;
  beta : Q;
  dest_i : Z;
  laps : Z;
  no_freeze : Z;
  visited_other_side : bool;
  track : list (Q * Q * Q * Q)
}.

Inductive stop : Type := ByLaps | ByBudget.

(** The two tests that end an iteration, lines 530-532:
    [if laps > 4: break], [no_freeze -= 1], [if no_freeze==0: break]. *)
Definition after_body (s : cursor) : cursor * option stop :=
  if (4 <? laps s)%Z then (s, Some ByLaps)
  else
    let s' := Cursor (x s) (y s) (beta s) (dest_i s) (laps s)
                     (no_freeze s - 1) (visited_other_side s) (track s) in
    (s', if (no_freeze s' =? 0)%Z then Some ByBudget else None).

Section cursor_loop.

Variables (atan2 : Q -> Q -> Q) (cos sin : Q -> Q).
(** The [c]-th results of [uniform(0, 2*pi/12)] and
    [uniform(TRACK_RAD/3, TRACK_RAD)]. *)
Variables (uniform_alpha uniform_rad : nat -> Q).

(** One pass of [for c in range(CHECKPOINTS)], with [CHECKPOINTS = 12]. *)
Definition checkpoint (c : nat) : Q * Q * Q :=
  let alpha := 2 * pi * inject_Z (Z.of_nat c) / 12 + uniform_alpha c in
  let rad := uniform_rad c in
  let '(alpha, rad) :=
    if Nat.eqb c 0 then (0, (3 # 2) * TRACK_RAD) else (alpha, rad) in
  let '(alpha, rad) :=
    if Nat.eqb c 11
    then (2 * pi * inject_Z (Z.of_nat c) / 12, (3 # 2) * TRACK_RAD)
    else (alpha, rad) in
  (alpha, rad * cos alpha, rad * sin alpha).

Definition checkpoints : list (Q * Q * Q) := map checkpoint (seq 0 12).

(** "Find destination from checkpoints": the two nested [while True]
    loops, one step of [fuel] per test of a checkpoint.  A failed scan
    (the index wraps to a multiple of 12) takes a full turn off [alpha]
    and scans again. *)
Fixpoint find_dest (fuel : nat) (alpha : Q) (dest_i : Z)
  : option (Q * Z * (Q * Q * Q)) :=
  match fuel with
  | O => None
  | S fuel' =>
      let dest := nth (Z.to_nat (dest_i mod 12)) checkpoints (0, 0, 0) in
      if Qle_bool alpha (fst (fst dest)) then Some (alpha, dest_i, dest)
      else
        let dest_i := (dest_i + 1)%Z in
        if (dest_i mod 12 =? 0)%Z then find_dest fuel' (alpha - 2 * pi) dest_i
        else find_dest fuel' alpha dest_i
  end.

(** [while beta - alpha > 1.5*math.pi: beta -= 2*math.pi] *)
Fixpoint beta_down (fuel : nat) (beta alpha : Q) : option Q :=
  match fuel with
  | O => None
  | S fuel' =>
      if gt (beta - alpha) ((3 # 2) * pi)
      then beta_down fuel' (beta - 2 * pi) alpha
      else Some beta
  end.

(** [while beta - alpha < -1.5*math.pi: beta += 2*math.pi] *)
Fixpoint beta_up (fuel : nat) (beta alpha : Q) : option Q :=
  match fuel with
  | O => None
  | S fuel' =>
      if lt (beta - alpha) (- ((3 # 2) * pi))
      then beta_up fuel' (beta + 2 * pi) alpha
      else Some beta
  end.

(** Lines 495-501: the polar angle of the cursor, the lap count and
    the flag. *)
Definition polar (s : cursor) : Z * bool * Q :=
  let alpha := atan2 (y s) (x s) in
  let '(laps, visited) :=
    if visited_other_side s && gt alpha 0
    then ((laps s + 1)%Z, false) else (laps s, visited_other_side s) in
  if lt alpha 0 then (laps, true, alpha + 2 * pi) else (laps, visited, alpha).

(** Lines 514-529 without the two [while] loops on [beta]: [beta] is
    the heading those loops leave. *)
Definition advance (s : cursor) (laps : Z) (visited : bool) (alpha : Q)
  (dest_i : Z) (dest : Q * Q * Q) (beta : Q) : cursor :=
  let dest_x := snd (fst dest) in
  let dest_y := snd dest in
  let r1x := cos (Synth.beta s) in
  let r1y := sin (Synth.beta s) in
  let p1x := - r1y in
  let p1y := r1x in
  let dest_dx := dest_x - x s in
  let dest_dy := dest_y - y s in
  let proj := r1x * dest_dx + r1y * dest_dy in
  let prev_beta := beta in
  let proj := proj * SCALE in
  let beta :=
    if gt proj (3 # 10)
    then beta - Qmin TRACK_TURN_RATE (Qabs ((1 # 1000) * proj)) else beta in
  let beta :=
    if lt proj (- (3 # 10))
    then beta + Qmin TRACK_TURN_RATE (Qabs ((1 # 1000) * proj)) else beta in
  let x := x s + p1x * TRACK_DETAIL_STEP in
  let y := y s + p1y * TRACK_DETAIL_STEP in
  Cursor x y beta dest_i laps (no_freeze s) visited
         (track s ++ [(alpha, prev_beta * (1 # 2) + beta * (1 # 2), x, y)]).

(** Lines 495-529: one iteration up to [track.append]. *)
Definition cursor_body (fuel : nat) (s : cursor) : option cursor :=
  let '(laps, visited, alpha) := polar s in
  '(alpha, dest_i, dest) ← find_dest fuel alpha (dest_i s);
  beta ← beta_down fuel (beta s) alpha;
  beta ← beta_up fuel beta alpha;
  Some (advance s laps visited alpha dest_i dest beta).

(** The [while 1] loop.  [fuel] bounds the iterations of this loop and
    of each loop inside the body; [None] is "still running". *)
Fixpoint cursor_loop (fuel : nat) (s : cursor) : option (cursor * stop) :=
  match fuel with
  | O => None
  | S fuel' =>
      s ← cursor_body fuel s;
      match after_body s with
      | (s, Some why) => Some (s, why)
      | (s, None) => cursor_loop fuel' s
      end
  end.

(** Line 488-493. *)
Definition start_cursor : cursor :=
  Cursor ((3 # 2) * TRACK_RAD) 0 0 0%Z 0%Z 2500%Z false [].

(** *** The loops inside the body terminate *)

Lemma archimedean (d : Q) : exists n : nat, d <= inject_Z (Z.of_nat n).
Proof.
  exists (Z.to_nat (Qceiling d)). pose proof (Qle_ceiling d) as Hc.
  destruct (Z.le_gt_cases 0 (Qceiling d)) as [Hpos|Hneg].
  - by rewrite Z2Nat.id.
  - apply Qle_trans with (inject_Z (Qceiling d)); [done|].
    rewrite <- Zle_Qle. lia.
Qed.

Lemma inject_nat_S n : inject_Z (Z.of_nat (S n)) == inject_Z (Z.of_nat n) + 1.
Proof. rewrite Nat2Z.inj_succ. unfold Z.succ. by rewrite inject_Z_plus. Qed.

Lemma inject_nat_nonneg n : 0 <= inject_Z (Z.of_nat n).
Proof. change 0 with (inject_Z 0). rewrite <- Zle_Qle. lia. Qed.

Lemma pi_bounds : 3 < pi /\ pi < 4.
Proof. split; reflexivity. Qed.

Lemma gt_false a b : gt a b = false -> a <= b.
Proof. unfold gt. intros H. apply negb_false_iff in H. by apply Qle_bool_iff. Qed.
Lemma gt_true a b : gt a b = true -> b < a.
Proof.
  unfold gt. intros H. apply negb_true_iff in H. apply Qnot_le_lt. intros Hle.
  apply Qle_bool_iff in Hle. congruence.
Qed.
Lemma lt_true a b : lt a b = true -> a < b.
Proof. apply gt_true. Qed.

Lemma beta_down_enough n : forall beta alpha fuel,
  beta - alpha <= (3 # 2) * pi + inject_Z (Z.of_nat n) * (2 * pi) ->
  (n < fuel)%nat -> is_Some (beta_down fuel beta alpha).
Proof.
  induction n as [|n IH]; intros beta alpha fuel Hd Hf;
    (destruct fuel as [|fuel]; [lia|]); simpl;
    destruct (gt _ _) eqn:Hgt; try done.
  - apply gt_true in Hgt. change (inject_Z (Z.of_nat 0)) with 0 in Hd. lra.
  - apply IH; [|lia]. rewrite inject_nat_S in Hd. lra.
Qed.

Lemma beta_up_enough n : forall beta alpha fuel,
  - (beta - alpha) <= (3 # 2) * pi + inject_Z (Z.of_nat n) * (2 * pi) ->
  (n < fuel)%nat -> is_Some (beta_up fuel beta alpha).
Proof.
  induction n as [|n IH]; intros beta alpha fuel Hd Hf;
    (destruct fuel as [|fuel]; [lia|]); simpl;
    destruct (lt _ _) eqn:Hlt; try done.
  - apply lt_true in Hlt. change (inject_Z (Z.of_nat 0)) with 0 in Hd. lra.
  - apply IH; [|lia]. rewrite inject_nat_S in Hd. lra.
Qed.

Lemma beta_down_total beta alpha :
  exists N, forall fuel, (N <= fuel)%nat -> is_Some (beta_down fuel beta alpha).
Proof.
  destruct (archimedean (beta - alpha)) as [n Hn]. exists (S n). intros fuel Hf.
  apply (beta_down_enough n); [|lia].
  pose proof (inject_nat_nonneg n). pose proof pi_bounds. nra.
Qed.

Lemma beta_up_total beta alpha :
  exists N, forall fuel, (N <= fuel)%nat -> is_Some (beta_up fuel beta alpha).
Proof.
  destruct (archimedean (- (beta - alpha))) as [n Hn]. exists (S n). intros fuel Hf.
  apply (beta_up_enough n); [|lia].
  pose proof (inject_nat_nonneg n). pose proof pi_bounds. nra.
Qed.

(** The first checkpoint sits at polar angle 0. *)
Lemma first_checkpoint_angle :
  fst (fst (nth 0 checkpoints (0, 0, 0))) = 0.
Proof. reflexivity. Qed.

(** Steps of the scan until the index is a multiple of 12 again. *)
Definition to_wrap (dest_i : Z) : Z := ((12 - dest_i mod 12) mod 12)%Z.

(** The turn that the scan takes off [alpha] before it comes back to the
    first checkpoint. *)
Definition pending (dest_i : Z) : Q :=
  if (dest_i mod 12 =? 0)%Z then 0 else 2 * pi.

Lemma find_dest_enough fuel : forall n alpha dest_i,
  alpha - pending dest_i <= inject_Z (Z.of_nat n) * (2 * pi) ->
  (12 * Z.of_nat n + to_wrap dest_i + 1 <= Z.of_nat fuel)%Z ->
  is_Some (find_dest fuel alpha dest_i).
Proof.
  induction fuel as [|fuel IH]; intros n alpha dest_i Ha Hf.
  - unfold to_wrap in Hf. Z.div_mod_to_equations. lia.
  - cbn [find_dest]. destruct (Qle_bool alpha _) eqn:Hle; [done|].
    destruct (Z.eqb_spec ((dest_i + 1) mod 12) 0) as [Hw|Hw].
    + apply (IH n).
      * unfold pending in *. rewrite Hw. simpl.
        destruct (Z.eqb_spec (dest_i mod 12) 0) as [H0|H0];
          [exfalso; Z.div_mod_to_equations; lia|]. lra.
      * unfold to_wrap in *. Z.div_mod_to_equations. lia.
    + destruct (Z.eqb_spec (dest_i mod 12) 0) as [H0|H0].
      * assert (~ alpha <= 0) as Hpos.
        { intros Hc. rewrite H0 in Hle. change (Z.to_nat 0) with O in Hle.
          rewrite first_checkpoint_angle in Hle.
          apply Qle_bool_iff in Hc. congruence. }
        unfold pending in Ha. rewrite H0 in Ha. simpl in Ha.
        destruct n as [|n].
        { exfalso. apply Hpos. change (inject_Z (Z.of_nat 0)) with 0 in Ha. lra. }
        apply (IH n).
        -- unfold pending.
           destruct (Z.eqb_spec ((dest_i + 1) mod 12) 0); [done|].
           rewrite inject_nat_S in Ha. lra.
        -- unfold to_wrap in *. Z.div_mod_to_equations. lia.
      * apply (IH n).
        -- unfold pending in *.
           destruct (Z.eqb_spec ((dest_i + 1) mod 12) 0); [done|].
           destruct (Z.eqb_spec (dest_i mod 12) 0); [done|]. done.
        -- unfold to_wrap in *. Z.div_mod_to_equations. lia.
Qed.

Lemma find_dest_total alpha dest_i :
  exists N, forall fuel, (N <= fuel)%nat -> is_Some (find_dest fuel alpha dest_i).
Proof.
  destruct (archimedean alpha) as [n Hn]. exists (12 * n + 13)%nat.
  intros fuel Hf. apply (find_dest_enough fuel n).
  - pose proof (inject_nat_nonneg n). pose proof pi_bounds.
    unfold pending. destruct (_ =? _)%Z; nra.
  - unfold to_wrap. Z.div_mod_to_equations. lia.
Qed.

(** More fuel does not change a result. *)
Lemma find_dest_mono fuel : forall alpha dest_i r fuel',
  find_dest fuel alpha dest_i = Some r -> (fuel <= fuel')%nat ->
  find_dest fuel' alpha dest_i = Some r.
Proof.
  induction fuel as [|fuel IH]; intros alpha dest_i r fuel' H Hf; [done|].
  destruct fuel' as [|fuel']; [lia|]. cbn [find_dest] in *.
  destruct (Qle_bool _ _); [done|].
  destruct (_ =? _)%Z; (apply IH; [done|lia]).
Qed.

Lemma beta_down_mono fuel : forall beta alpha r fuel',
  beta_down fuel beta alpha = Some r -> (fuel <= fuel')%nat ->
  beta_down fuel' beta alpha = Some r.
Proof.
  induction fuel as [|fuel IH]; intros beta alpha r fuel' H Hf; [done|].
  destruct fuel' as [|fuel']; [lia|]. cbn [beta_down] in *.
  destruct (gt _ _); [|done]. apply IH; [done|lia].
Qed.

Lemma beta_up_mono fuel : forall beta alpha r fuel',
  beta_up fuel beta alpha = Some r -> (fuel <= fuel')%nat ->
  beta_up fuel' beta alpha = Some r.
Proof.
  induction fuel as [|fuel IH]; intros beta alpha r fuel' H Hf; [done|].
  destruct fuel' as [|fuel']; [lia|]. cbn [beta_up] in *.
  destruct (lt _ _); [|done]. apply IH; [done|lia].
Qed.

Lemma cursor_body_mono fuel fuel' s s' :
  cursor_body fuel s = Some s' -> (fuel <= fuel')%nat ->
  cursor_body fuel' s = Some s'.
Proof.
  unfold cursor_body. destruct (polar s) as [[lp vis] alpha]. intros H Hf.
  destruct (find_dest fuel _ _) as [[[a d] dest]|] eqn:Hfd; simpl in H; [|done].
  rewrite (find_dest_mono _ _ _ _ _ Hfd Hf). simpl.
  destruct (beta_down fuel _ _) as [b1|] eqn:Hbd; simpl in H; [|done].
  rewrite (beta_down_mono _ _ _ _ _ Hbd Hf). simpl.
  destruct (beta_up fuel _ _) as [b2|] eqn:Hbu; simpl in H; [|done].
  by rewrite (beta_up_mono _ _ _ _ _ Hbu Hf).
Qed.

(** *** One iteration *)

Lemma polar_laps s :
  let '(lp, _, _) := polar s in lp = laps s \/ lp = (laps s + 1)%Z.
Proof.
  unfold polar. destruct (_ && _); destruct (lt _ _); auto.
Qed.

Lemma cursor_body_total s :
  exists N s', forall fuel, (N <= fuel)%nat ->
    cursor_body fuel s = Some s' /\
    (laps s' = laps s \/ laps s' = (laps s + 1)%Z) /\
    no_freeze s' = no_freeze s /\
    length (track s') = S (length (track s)).
Proof.
  unfold cursor_body. pose proof (polar_laps s) as Hlp.
  destruct (polar s) as [[lp vis] alpha].
  destruct (find_dest_total alpha (dest_i s)) as [N1 H1].
  destruct (H1 N1 (le_n _)) as [[[a d] dest] Hfd].
  destruct (beta_down_total (beta s) a) as [N2 H2].
  destruct (H2 N2 (le_n _)) as [b1 Hbd].
  destruct (beta_up_total b1 a) as [N3 H3].
  destruct (H3 N3 (le_n _)) as [b2 Hbu].
  exists (N1 `max` (N2 `max` N3))%nat, (advance s lp vis a d dest b2).
  intros fuel Hf.
  rewrite (find_dest_mono _ _ _ _ fuel Hfd) by lia. simpl.
  rewrite (beta_down_mono _ _ _ _ fuel Hbd) by lia. simpl.
  rewrite (beta_up_mono _ _ _ _ fuel Hbu) by lia. simpl.
  split; [done|]. split; [done|]. split; [done|].
  rewrite length_app. simpl. lia.
Qed.

(** *** The loop *)

(** What holds when the loop is left. *)
Definition stopped (s : cursor) (why : stop) : Prop :=
  (length (track s) <= 2500)%nat /\
  match why with
  | ByLaps => laps s = 5%Z
  | ByBudget =>
      (laps s <= 4)%Z /\ no_freeze s = 0%Z /\ length (track s) = 2500%nat
  end.

Lemma cursor_loop_total k : forall s,
  no_freeze s = Z.of_nat (S k) -> (laps s <= 4)%Z ->
  (length (track s) + S k = 2500)%nat ->
  exists N s' why, forall fuel, (N <= fuel)%nat ->
    cursor_loop fuel s = Some (s', why) /\ stopped s' why.
Proof.
  induction k as [|k IH]; intros s Hnf Hl Hlen;
    destruct (cursor_body_total s) as (N1 & s1 & H1);
    destruct (H1 N1 (le_n _)) as (_ & Hlaps & Hnf1 & Hlen1);
    destruct (Z.ltb_spec 4 (laps s1)) as [Hlt|Hge].
  - exists (S N1), s1, ByLaps. intros fuel Hf. destruct fuel as [|fuel]; [lia|].
    cbn [cursor_loop]. rewrite (proj1 (H1 (S fuel) ltac:(lia))). simpl.
    unfold after_body. destruct (Z.ltb_spec 4 (laps s1)); [|lia].
    split; [done|]. split; [lia|]. simpl. lia.
  - exists (S N1). eexists. exists ByBudget. intros fuel Hf.
    destruct fuel as [|fuel]; [lia|].
    cbn [cursor_loop]. rewrite (proj1 (H1 (S fuel) ltac:(lia))). simpl.
    unfold after_body. destruct (Z.ltb_spec 4 (laps s1)); [lia|]. simpl.
    destruct (Z.eqb_spec (no_freeze s1 - 1) 0); [|lia].
    split; [reflexivity|]. split; simpl; [lia|]. repeat split; lia.
  - exists (S N1), s1, ByLaps. intros fuel Hf. destruct fuel as [|fuel]; [lia|].
    cbn [cursor_loop]. rewrite (proj1 (H1 (S fuel) ltac:(lia))). simpl.
    unfold after_body. destruct (Z.ltb_spec 4 (laps s1)); [|lia].
    split; [done|]. split; [lia|]. simpl. lia.
  - destruct (IH (Cursor (x s1) (y s1) (beta s1) (dest_i s1) (laps s1)
                         (no_freeze s1 - 1) (visited_other_side s1) (track s1)))
      as (N2 & s' & why & H2); simpl; [lia..|].
    exists (S (N1 `max` N2)), s', why. intros fuel Hf.
    destruct fuel as [|fuel]; [lia|].
    cbn [cursor_loop]. rewrite (proj1 (H1 (S fuel) ltac:(lia))). simpl.
    unfold after_body. destruct (Z.ltb_spec 4 (laps s1)); [lia|]. simpl.
    destruct (Z.eqb_spec (no_freeze s1 - 1) 0); [lia|].
    apply H2. lia.
Qed.

(** C8, as amended: for every geometry and every draw of the
    checkpoints the cursor loop terminates (given enough fuel it returns,
    and the same state whatever the fuel).  It stops as soon as the lap
    counter exceeds 4, that is when the fifth wrap of the polar angle past
    0 is detected, after at most 2500 iterations; or else after exactly
    2500 iterations, when the budget [no_freeze] reaches 0, with at most 4
    laps counted.  Either way the loop is left by [break]: running out of
    budget returns no failure by itself. *)
Theorem cursor_loop_terminates :
  exists N s why, forall fuel, (N <= fuel)%nat ->
    cursor_loop fuel start_cursor = Some (s, why) /\ stopped s why.
Proof. apply (cursor_loop_total 2499); [reflexivity|simpl; lia|reflexivity]. Qed.

End cursor_loop.

(** A run in a synthetic geometry, where the polar angle changes sign
    every two steps of the cursor: the loop counts a fourth lap, goes on,
    and stops at the fifth, after 21 iterations. *)
Example cursor_loop_stops_at_fifth_lap :
  exists s,
    cursor_loop (fun y _ => if Z.even (Qfloor (y / 7)) then 1 else -1)
                (fun _ => 1) (fun _ => 0) (fun _ => 1 # 10) (fun _ => 100)
                100 start_cursor = Some (s, ByLaps) /\
    laps s = 5%Z /\ length (track s) = 21%nat.
Proof.
  eexists. split; [vm_compute; reflexivity|].
  split; vm_compute; reflexivity.
Qed.

(** C8, as stated, fails at the fourth lap: with four laps detected and
    budget left, neither test of lines 530-532 fires and the loop goes
    on; it is the fifth lap that stops it. *)
Lemma fourth_lap_does_not_stop :
  let s := Cursor ((3 # 2) * TRACK_RAD) 1 0 48%Z 4%Z 1500%Z false [] in
  laps s = 4%Z /\
  snd (after_body s) = None /\
  snd (after_body (Cursor (x s) (y s) (beta s) (dest_i s) 5%Z
                          (no_freeze s) false [])) = Some ByLaps.
Proof. cbv zeta. split; [reflexivity|]. split; reflexivity. Qed.

End Synth.

(** ** Generation attempts and the retry loop of [reset] *)

Module Reset.

Import Lanes.

(** The exceptions that the modelled lines raise, and a call that either
    returns or raises. *)
Inductive exn : Type := RuntimeError | IndexError.

Inductive result (A : Type) : Type :=
| Return (a : A)
| Raise (e : exn).
Arguments Return {A} a.
Arguments Raise {A} e.

(** A [for] loop whose body may raise: the first exception leaves it. *)
Fixpoint foldR {A B : Type} (f : B -> A -> result B) (l : list A) (b : B)
  : result B :=
  match l with
  | [] => Return b
  | a :: l' =>
      match f b a with
      | Return b' => foldR f l' b'
      | Raise e => Raise e
      end
  end.

Definition point : Type := (Q * Q)%type.

(** What one call of [_create_track] meets.  The geometry is not
    modelled: whether every [_get_track] call gave a track, whether
    [_remove_roads] kept both tracks, the classification of the tiles by
    [_create_info], the random draws of [_set_lanes], and [p3 j lane], the
    candidate points that the search of lines 950-959 finds for tile [j]
    and [lane]. *)
Record attempt : Type := Attempt {
  tracks_ok : bool;
  roads_ok : bool;
  raw_info : list tile_info;
  seeded : list Z;
  picks : nat -> bool;
  p3 : Z -> Z -> list point
}.

(** "Create tiles", one tile and lane: the body is created when the
    lane is enabled; a start or end tile needs candidate points. *)
Definition tile_body (p3 : Z -> Z -> list point) (j : Z) (ti : tile_info)
  (road : list (Z * Z)) (lane : Z) : result (list (Z * Z)) :=
  match py_index (lanes ti) lane with
  | None => Raise IndexError
  | Some false => Return road
  | Some true =>
      if end_ ti || start ti then
        match p3 j lane with
        | [] => Raise RuntimeError
        | _ :: _ => Return (road ++ [(j, lane)])
        end
      else Return (road ++ [(j, lane)])
  end.

Definition create_tiles (num_lanes : Z) (p3 : Z -> Z -> list point)
  (info : list tile_info) : result (list (Z * Z)) :=
  foldR (fun road (jt : nat * tile_info) =>
           foldR (tile_body p3 (Z.of_nat (fst jt)) (snd jt))
                 (zrange num_lanes) road)
        (imap (fun j ti => (j, ti)) info) [].

(** [_create_track]: [False] (or an empty track, as falsy) when a track
    did not close or the merge left a track empty, [True] at the end;
    an exception of [_set_lanes] or of the tile loop passes through. *)
Definition _create_track (c : config) (a : attempt) : result bool :=
  if negb (tracks_ok a) then Return false
  else if negb (roads_ok a) then Return false
  else
    match _set_lanes c (_create_info_lanes (raw_info a)) (seeded a) (picks a) with
    | None => Raise IndexError
    | Some info =>
        match create_tiles (num_lanes c) (p3 a) info with
        | Raise e => Raise e
        | Return _ => Return true
        end
    end.

(** The [while True] loop of [reset], from its [k]-th call of
    [_create_track] on.  There is no [try]: an exception leaves [reset].
    The result is the index of the last call made and how it ended;
    [None] is "still retrying". *)
Fixpoint reset_loop (fuel : nat) (c : config) (attempts : nat -> attempt)
  (k : nat) : option (nat * result bool) :=
  match fuel with
  | O => None
  | S fuel' =>
      match _create_track c (attempts k) with
      | Raise e => Some (k, Raise e)
      | Return true => Some (k, Return true)
      | Return false => reset_loop fuel' c attempts (S k)
      end
  end.

(** *** An exception is not retried *)

(** A loop raises [e] when one of its passes always does and the others
    return or raise [e]. *)
Lemma foldR_raise {A B : Type} (f : B -> A -> result B) e l :
  (forall b a, a ∈ l -> (exists b', f b a = Return b') \/ f b a = Raise e) ->
  (exists a, a ∈ l /\ forall b, f b a = Raise e) ->
  forall b, foldR f l b = Raise e.
Proof.
  induction l as [|a l IH]; intros Hall (a0 & Hin & Hbad) b.
  - by apply elem_of_nil in Hin.
  - simpl. destruct (Hall b a) as [[b' Hb]|Hb]; [left| |]; rewrite Hb; [|done].
    apply elem_of_cons in Hin as [->|Hin]; [by rewrite Hbad in Hb|].
    apply IH; [|by eauto]. intros b0 a1 ?. apply Hall. by right.
Qed.

Lemma foldR_return_or_raise {A B : Type} (f : B -> A -> result B) e l :
  (forall b a, a ∈ l -> (exists b', f b a = Return b') \/ f b a = Raise e) ->
  forall b, (exists b', foldR f l b = Return b') \/ foldR f l b = Raise e.
Proof.
  induction l as [|a l IH]; intros Hall b; simpl; [by eauto|].
  destruct (Hall b a) as [[b' Hb]|Hb]; [left| |]; rewrite Hb; [|by right].
  apply IH. intros b0 a1 ?. apply Hall. by right.
Qed.

(** The tile loop. *)
Lemma elem_of_zrange n i : i ∈ zrange n <-> 0 <= i < n.
Proof.
  unfold zrange. rewrite list_elem_of_fmap. split.
  - intros (k & -> & Hk). apply elem_of_seq in Hk. lia.
  - intros H. exists (Z.to_nat i). split; [lia|]. apply elem_of_seq. lia.
Qed.

Lemma ok_index m lane : ok m -> 0 <= lane < 2 -> exists b, py_index m lane = Some b.
Proof.
  intros Hok Hl. assert (lane = 0 \/ lane = 1) as [->| ->] by lia;
    destruct Hok as [->|[->| ->]]; by eexists.
Qed.

Lemma set_config_lanes nt nl nlc msl :
  num_lanes (_set_config nt nl nlc msl) = 1 \/ num_lanes (_set_config nt nl nlc msl) = 2.
Proof.
  simpl. destruct (Z.eqb_spec nl 1), (Z.eqb_spec nl 2); simpl; lia.
Qed.

Lemma tile_body_cases p3 j ti road lane :
  ok (lanes ti) -> 0 <= lane < 2 ->
  (exists road', tile_body p3 j ti road lane = Return road') \/
  tile_body p3 j ti road lane = Raise RuntimeError.
Proof.
  intros Hok Hl. unfold tile_body.
  destruct (ok_index _ _ Hok Hl) as [b ->].
  destruct b; [|by eauto]. destruct (_ || _); [|by eauto].
  destruct (p3 j lane); by eauto.
Qed.

Lemma create_tiles_raises nl p3 info j ti lane :
  all_ok info -> nl <= 2 ->
  info !! j = Some ti -> end_ ti || start ti = true ->
  0 <= lane < nl -> py_index (lanes ti) lane = Some true ->
  p3 (Z.of_nat j) lane = [] ->
  create_tiles nl p3 info = Raise RuntimeError.
Proof.
  intros Hok Hnl Hj Hse Hl Hon Hp3. unfold create_tiles.
  apply foldR_raise.
  - intros road [j' ti'] Hin.
    apply elem_of_lookup_imap in Hin as (i & t0 & Heq & Hi). simplify_eq.
    apply foldR_return_or_raise. intros road' lane' Hl'. simpl.
    apply tile_body_cases.
    + by eapply (Forall_lookup_1 _ _ _ _ Hok).
    + apply elem_of_zrange in Hl'. lia.
  - exists (j, ti). split.
    + apply elem_of_lookup_imap. by exists j, ti.
    + intros road. simpl. apply foldR_raise.
      * intros road' lane' Hl'. apply tile_body_cases.
        -- by eapply (Forall_lookup_1 _ _ _ _ Hok).
        -- apply elem_of_zrange in Hl'. lia.
      * exists lane. split; [by apply elem_of_zrange|].
        intros road'. unfold tile_body. by rewrite Hon, Hse, Hp3.
Qed.

Lemma reset_loop_skips c attempts n : forall fuel k,
  (forall i, (i < n)%nat -> _create_track c (attempts (k + i)%nat) = Return false) ->
  reset_loop (n + fuel) c attempts k = reset_loop fuel c attempts (k + n)%nat.
Proof.
  induction n as [|n IH]; intros fuel k Hfalse.
  - by rewrite Nat.add_0_r.
  - simpl. specialize (Hfalse 0%nat ltac:(lia)) as H0. rewrite Nat.add_0_r in H0.
    rewrite H0. rewrite IH; [f_equal; lia|].
    intros i Hi. specialize (Hfalse (S i) ltac:(lia)).
    by replace (S k + i)%nat with (k + S i)%nat by lia.
Qed.

(** C9: take any run of [reset] whose first [n] calls of [_create_track]
    fail the retryable way (they return [False]) and whose next call gets
    as far as building the tiles, where some start or end tile with an
    enabled lane has no candidate point.  That call raises
    [RuntimeError], which is not the [False] return; [reset] makes no
    further call and leaves with that exception. *)
Theorem no_candidates_is_fatal nt nl nlc msl (attempts : nat -> attempt)
  n info j ti lane :
  let c := _set_config nt nl nlc msl in
  (forall k, (k < n)%nat -> _create_track c (attempts k) = Return false) ->
  tracks_ok (attempts n) = true -> roads_ok (attempts n) = true ->
  _set_lanes c (_create_info_lanes (raw_info (attempts n)))
             (seeded (attempts n)) (picks (attempts n)) = Some info ->
  info !! j = Some ti -> end_ ti || start ti = true ->
  0 <= lane < num_lanes c -> py_index (lanes ti) lane = Some true ->
  p3 (attempts n) (Z.of_nat j) lane = [] ->
  _create_track c (attempts n) = Raise RuntimeError /\
  Raise RuntimeError <> @Return bool false /\
  forall fuel, (n < fuel)%nat ->
    reset_loop fuel c attempts 0 = Some (n, Raise RuntimeError).
Proof.
  intros c. subst c. intros Hfalse Htr Hrd Hinfo Hj Hse Hl Hon Hp3.
  set (c := _set_config nt nl nlc msl) in *.
  pose proof (set_config_lanes nt nl nlc msl) as Hnl. fold c in Hnl.
  assert (_create_track c (attempts n) = Raise RuntimeError) as Hraise.
  { unfold _create_track. rewrite Htr, Hrd, Hinfo. simpl.
    erewrite create_tiles_raises; [done| |..|done]; try done.
    - by eapply set_lanes_all_ok.
    - change (num_lanes c <= 2). lia. }
  split; [done|]. split; [done|].
  intros fuel Hf. replace fuel with (n + (fuel - n))%nat by lia.
  rewrite reset_loop_skips by (intros i Hi; by apply Hfalse).
  destruct (fuel - n)%nat as [|f] eqn:Hfn; [lia|].
  simpl. by rewrite Hraise.
Qed.

(** A first attempt whose track does not close, then an attempt on the
    spur track where the end tile 39 finds no candidate point. *)
Definition retry_then_fatal (k : nat) : attempt :=
  match k with
  | O => Attempt false true [] [] (fun _ => false) (fun _ _ => [])
  | S _ =>
      Attempt true true (Graph.info Graph.spur_env) [] (fun _ => false)
              (fun j _ => if j =? 39 then [] else [(0%Q, 0%Q)])
  end.

Lemma no_candidates_is_fatal_witness :
  _create_track (_set_config 2 1 0 0) (retry_then_fatal 1) = Raise RuntimeError /\
  Raise RuntimeError <> @Return bool false /\
  forall fuel, (1 < fuel)%nat ->
    reset_loop fuel (_set_config 2 1 0 0) retry_then_fatal 0
      = Some (1%nat, Raise RuntimeError).
Proof.
  apply (no_candidates_is_fatal 2 1 0 0 retry_then_fatal 1
           (_create_info_lanes (Graph.info Graph.spur_env)) 39
           (TileInfo 1 true false (-1) [true; true]) 0).
  - intros k Hk. assert (k = 0%nat) as -> by lia. reflexivity.
  - reflexivity.
  - reflexivity.
  - vm_compute; reflexivity.
  - vm_compute; reflexivity.
  - reflexivity.
  - vm_compute. split; [discriminate|reflexivity].
  - reflexivity.
  - reflexivity.
Defined.

End Reset.

(** ** Occupancy bookkeeping and the trail of [_update_predictions] *)

Module Occupancy.

Import Graph.

(** [d.keys()] *)
Definition keys {V : Type} (d : dict V) : list Z := map fst d.

(** [d.update(other)]: every item of [other], in order, assigned into [d]. *)
Definition dupdate {V : Type} (d other : dict V) : dict V :=
  fold_left (fun acc kv => dset (fst kv) (snd kv) acc) other d.

(** [_update_predictions], lines 415-417: the comprehension assigns the
    items of every frontier step in order, then [update] assigns the
    occupancy over them.  The result is [self._trail_nodes]. *)
Definition _update_predictions (st : state) : step :=
  dupdate (fold_left dupdate (_next_nodes st) []) (_current_nodes st).

(** The tracks' first tile in the table, as [add_current_tile] and
    [_get_next_node] compute it: [id - id_relative]. *)
Definition base (e : env) (k : Z) : option Z :=
  if 0 <? k then n ← py_index (tracks e) (k - 1); Some (Z.of_nat n)
  else Some 0.

(** A lane dict of the occupancy: some lane, no lane twice, headings +1
    or -1. *)
Definition wf_lanes (inner : dict Z) : Prop :=
  inner <> [] /\ NoDup (keys inner) /\
  Forall (fun ld : Z * Z => snd ld = 1 \/ snd ld = -1) inner.

Definition wf (cur : step) : Prop :=
  NoDup (keys cur) /\ Forall (fun kv : Z * dict Z => wf_lanes (snd kv)) cur.

(** *** Dicts *)

Section dict_more.
Context {V : Type}.
Implicit Types (d : dict V) (k : Z).

Lemma dget_elem_of k v d : dget k d = Some v -> (k, v) ∈ d.
Proof.
  induction d as [|[k0 v0] d IH]; simpl; [done|].
  destruct (Z.eqb_spec k k0) as [->|]; intros H.
  - simplify_eq. left.
  - right. auto.
Qed.

Lemma dget_None k d : dget k d = None <-> k ∉ keys d.
Proof.
  induction d as [|[k0 v0] d IH]; simpl.
  - split; [intros _ H; by apply elem_of_nil in H|done].
  - destruct (Z.eqb_spec k k0) as [->|Hne].
    + split; [done|]. intros H. exfalso. apply H. left.
    + rewrite IH. split.
      * intros H Hc. apply elem_of_cons in Hc as [?|?]; done.
      * intros H Hc. apply H. by right.
Qed.

Lemma elem_of_dget k v d : NoDup (keys d) -> (k, v) ∈ d -> dget k d = Some v.
Proof.
  induction d as [|[k0 v0] d IH]; simpl; intros Hnd Hin.
  - by apply elem_of_nil in Hin.
  - apply NoDup_cons in Hnd as [Hk0 Hnd].
    apply elem_of_cons in Hin as [Heq|Hin].
    + simplify_eq. by rewrite Z.eqb_refl.
    + destruct (Z.eqb_spec k k0) as [->|]; [|auto].
      exfalso. apply Hk0. unfold keys. apply list_elem_of_fmap.
      by exists (k0, v).
Qed.

Lemma keys_dset k v d :
  keys (dset k v d) = if dhas k d then keys d else keys d ++ [k].
Proof.
  unfold dhas. induction d as [|[k0 v0] d IH]; simpl; [done|].
  destruct (Z.eqb_spec k k0) as [->|]; simpl; [done|].
  rewrite IH. by destruct (dget k d).
Qed.

Lemma NoDup_dset k v d : NoDup (keys d) -> NoDup (keys (dset k v d)).
Proof.
  intros Hnd. rewrite keys_dset. unfold dhas.
  destruct (dget k d) eqn:Hg; [done|].
  apply NoDup_app. split; [done|]. split; [|apply NoDup_singleton].
  intros x Hx Hx'. apply list_elem_of_singleton in Hx' as ->.
  by apply dget_None in Hg.
Qed.

Lemma Forall_dset (P : Z * V -> Prop) k v d :
  Forall P d -> P (k, v) -> Forall P (dset k v d).
Proof.
  intros Hd Hkv. induction Hd as [|[k0 v0] d Hx Hd IH]; simpl.
  - by constructor.
  - destruct (k =? k0); by constructor.
Qed.

Lemma Forall_ddel (P : Z * V -> Prop) k d : Forall P d -> Forall P (ddel k d).
Proof.
  intros Hd. induction Hd as [|[k0 v0] d Hx Hd IH]; simpl; [done|].
  destruct (negb _); [by constructor|done].
Qed.

Lemma keys_ddel k d x : x ∈ keys (ddel k d) -> x ∈ keys d.
Proof.
  induction d as [|[k0 v0] d IH]; simpl; [done|].
  destruct (negb _); simpl; intros H.
  - apply elem_of_cons in H as [->|H]; [left|right; auto].
  - right; auto.
Qed.

Lemma NoDup_ddel k d : NoDup (keys d) -> NoDup (keys (ddel k d)).
Proof.
  induction d as [|[k0 v0] d IH]; simpl; [done|]. intros Hnd.
  apply NoDup_cons in Hnd as [Hk0 Hnd]. destruct (negb _); simpl; [|auto].
  apply NoDup_cons. split; [|auto]. intros Hc. apply Hk0. by eapply keys_ddel.
Qed.

Lemma dget_Forall (P : Z * V -> Prop) k v d :
  Forall P d -> dget k d = Some v -> P (k, v).
Proof.
  intros Hd Hg. apply dget_elem_of in Hg.
  by apply (proj1 (Forall_forall P d) Hd).
Qed.

(** Deleting one key of a dict with more than one leaves some key. *)
Lemma ddel_nonempty k d : NoDup (keys d) -> 1 < dlen d -> ddel k d <> [].
Proof.
  unfold dlen. destruct d as [|[k0 v0] [|[k1 v1] d]]; simpl; [lia..|].
  intros Hnd _. apply NoDup_cons in Hnd as [Hk0 _].
  destruct (Z.eqb_spec k0 k) as [->|]; simpl; [|done].
  destruct (Z.eqb_spec k1 k) as [->|]; simpl; [|done].
  exfalso. apply Hk0. left.
Qed.

(** Assigning a fresh key and deleting it again gives the dict back. *)
Lemma ddel_dset_fresh k v d : dget k d = None -> ddel k (dset k v d) = d.
Proof.
  induction d as [|[k0 v0] d IH]; simpl.
  - by rewrite Z.eqb_refl.
  - destruct (Z.eqb_spec k k0) as [->|Hne]; [done|]. intros Hg. simpl.
    destruct (Z.eqb_spec k0 k); [congruence|]. simpl. by rewrite IH.
Qed.

(** Assigning to a key the value it has changes nothing. *)
Lemma dset_same k v d : dget k d = Some v -> dset k v d = d.
Proof.
  induction d as [|[k0 v0] d IH]; simpl; [done|].
  destruct (Z.eqb_spec k k0) as [->|Hne]; intros Hg.
  - by simplify_eq.
  - by rewrite IH.
Qed.

Lemma dget_dupdate_notin k d other :
  dget k other = None -> dget k (dupdate d other) = dget k d.
Proof.
  unfold dupdate. revert d.
  induction other as [|[k0 v0] other IH]; intros d; simpl; [done|].
  destruct (Z.eqb_spec k k0) as [->|Hne]; [done|]. intros Hg.
  rewrite IH by done. apply dget_dset_ne. congruence.
Qed.

Lemma dget_dupdate_in k v d other :
  NoDup (keys other) -> dget k other = Some v ->
  dget k (dupdate d other) = Some v.
Proof.
  revert d.
  induction other as [|[k0 v0] other IH]; intros d Hnd; simpl; [done|].
  apply NoDup_cons in Hnd as [Hk0 Hnd].
  destruct (Z.eqb_spec k k0) as [->|Hne]; intros Hg.
  - simplify_eq.
    change (dget k0 (dupdate (dset k0 v d) other) = Some v).
    rewrite dget_dupdate_notin by (by apply dget_None). apply dget_dset_eq.
  - by apply (IH (dset k0 v0 d)).
Qed.

Lemma dget_dupdate_Some k v d other :
  dget k (dupdate d other) = Some v ->
  (k, v) ∈ other \/ (dget k other = None /\ dget k d = Some v).
Proof.
  revert d.
  induction other as [|[k0 v0] other IH]; intros d; simpl; [by right|].
  intros Hg. change (dget k (dupdate (dset k0 v0 d) other) = Some v) in Hg.
  apply IH in Hg as [Hin|[Hn Hg]]; [left; by right|].
  destruct (Z.eqb_spec k k0) as [->|Hne].
  - rewrite dget_dset_eq in Hg. simplify_eq. left. left.
  - right. split; [done|]. by rewrite dget_dset_ne in Hg by congruence.
Qed.

Lemma dget_dupdate_is_Some k d other :
  is_Some (dget k d) \/ is_Some (dget k other) ->
  is_Some (dget k (dupdate d other)).
Proof.
  revert d.
  induction other as [|[k0 v0] other IH]; intros d; simpl.
  - intros [H|[? H]]; done.
  - intros H. change (is_Some (dget k (dupdate (dset k0 v0 d) other))).
    apply IH. destruct (Z.eqb_spec k k0) as [->|Hne].
    + left. by rewrite dget_dset_eq.
    + destruct H as [H|H]; [left|by right].
      by rewrite dget_dset_ne by congruence.
Qed.

End dict_more.

(** *** The occupancy stays well formed *)

Lemma wf_lanes_dset lane w inner :
  NoDup (keys inner) ->
  Forall (fun ld : Z * Z => snd ld = 1 \/ snd ld = -1) inner ->
  wf_lanes (dset lane (direction_of w) inner).
Proof.
  intros Hnd Hd. split; [|split].
  - destruct inner as [|[k0 v0] inner]; simpl; [done|]. by destruct (lane =? k0).
  - by apply NoDup_dset.
  - apply Forall_dset; [done|]. simpl. destruct w; auto.
Qed.

Lemma add_current_tile_wf e st id lane w st' :
  wf (_current_nodes st) -> add_current_tile e st id lane w = Some st' ->
  wf (_current_nodes st').
Proof.
  intros [Hnd Hall]. unfold add_current_tile. intros H. bind_inv H.
  simplify_eq. simpl.
  match goal with
  | H : (if dhas _ _ then _ else _) = Some _ |- _ => rename H into Hc
  end.
  unfold dhas, dset2 in Hc.
  destruct (dget id (_current_nodes st)) as [inner|] eqn:Hin; simpl in Hc;
    simplify_eq.
  - pose proof (dget_Forall _ _ _ _ Hall Hin) as (_ & Hnd' & Hd'). simpl in *.
    split; [by apply NoDup_dset|]. apply Forall_dset; [done|]. simpl.
    by apply wf_lanes_dset.
  - split; [by apply NoDup_dset|]. apply Forall_dset; [done|]. simpl.
    apply (wf_lanes_dset lane w []); [apply NoDup_nil_2|done].
Qed.

Lemma remove_current_tile_wf st id lane st' :
  wf (_current_nodes st) -> remove_current_tile st id lane = Some st' ->
  wf (_current_nodes st').
Proof.
  intros [Hnd Hall]. unfold remove_current_tile.
  destruct (dget id (_current_nodes st)) as [inner|] eqn:Hin;
    [|intros; by simplify_eq].
  pose proof (dget_Forall _ _ _ _ Hall Hin) as (_ & Hnd' & Hd'). simpl in *.
  intros H. bind_inv H. simplify_eq. simpl.
  match goal with
  | H : (if 1 <? _ then _ else _) = Some _ |- _ => rename H into Hc
  end.
  destruct (Z.ltb_spec 1 (dlen inner)).
  - destruct (dhas lane inner); [|done]. simplify_eq.
    split; [by apply NoDup_dset|]. apply Forall_dset; [done|]. simpl.
    split; [by apply ddel_nonempty|]. split; [by apply NoDup_ddel|].
    by apply Forall_ddel.
  - simplify_eq. split; [by apply NoDup_ddel|by apply Forall_ddel].
Qed.

Lemma run_wf e evs st : run e evs = Some st -> wf (_current_nodes st).
Proof.
  unfold run. apply (foldM_preserve (fun s => wf (_current_nodes s))).
  - intros b [id lane w|id lane] b' Hb; simpl.
    + by apply add_current_tile_wf.
    + by apply remove_current_tile_wf.
  - split; [apply NoDup_nil_2|done].
Qed.

(** X1: a begin-contact records the tile and lane in the occupancy with
    the heading computed for it (an insert followed by a lookup returns
    the inserted heading) and leaves every other tile-and-lane entry of
    the occupancy as it was. *)
Theorem add_current_tile_records e st id lane w st' :
  add_current_tile e st id lane w = Some st' ->
  dget2 id lane (_current_nodes st') = Some (direction_of w) /\
  forall k l, (k, l) <> (id, lane) ->
    dget2 k l (_current_nodes st') = dget2 k l (_current_nodes st).
Proof.
  unfold add_current_tile. intros H. bind_inv H. simplify_eq. simpl.
  match goal with
  | H : (if dhas _ _ then _ else _) = Some _ |- _ => rename H into Hc
  end.
  unfold dhas, dset2 in Hc.
  destruct (dget id (_current_nodes st)) as [inner|] eqn:Hin; simpl in Hc;
    simplify_eq.
  - split.
    + rewrite dget2_unfold, dget_dset_eq. apply dget_dset_eq.
    + intros k' l' Hne. rewrite !dget2_unfold.
      destruct (Z.eq_dec id k') as [<-|Hk].
      * rewrite dget_dset_eq, Hin. apply dget_dset_ne. congruence.
      * by rewrite dget_dset_ne.
  - split.
    + rewrite dget2_unfold, dget_dset_eq. simpl. by rewrite Z.eqb_refl.
    + intros k' l' Hne. rewrite !dget2_unfold.
      destruct (Z.eq_dec id k') as [<-|Hk].
      * rewrite dget_dset_eq, Hin. simpl.
        destruct (Z.eqb_spec l' lane); [congruence|done].
      * by rewrite dget_dset_ne.
Qed.

Lemma add_current_tile_records_witness :
  add_current_tile spur_env on_tile_5 6 0 false = Some on_tile_6 /\
  dget2 6 0 (_current_nodes on_tile_6) = Some (direction_of false) /\
  forall k l, (k, l) <> (6, 0) ->
    dget2 k l (_current_nodes on_tile_6) = dget2 k l (_current_nodes on_tile_5).
Proof.
  split; [vm_compute; reflexivity|].
  apply (add_current_tile_records spur_env on_tile_5 6 0 false on_tile_6).
  vm_compute; reflexivity.
Defined.

(** X2: an end-contact that returns leaves no entry for the tile and
    lane in the occupancy and does not touch the entry of any other
    tile. *)
Theorem remove_current_tile_forgets st id lane st' :
  remove_current_tile st id lane = Some st' ->
  dget2 id lane (_current_nodes st') = None /\
  forall k, k <> id -> dget k (_current_nodes st') = dget k (_current_nodes st).
Proof.
  unfold remove_current_tile.
  destruct (dget id (_current_nodes st)) as [inner|] eqn:Hin.
  - intros H. bind_inv H. simplify_eq. simpl.
    match goal with
    | H : (if 1 <? _ then _ else _) = Some _ |- _ => rename H into Hc
    end.
    destruct (1 <? dlen inner).
    + destruct (dhas lane inner); [|done]. simplify_eq. split.
      * rewrite dget2_unfold, dget_dset_eq. apply dget_ddel_eq.
      * intros k Hk. by apply dget_dset_ne.
    + simplify_eq. split.
      * by rewrite dget2_unfold, dget_ddel_eq.
      * intros k Hk. apply dget_ddel_ne. congruence.
  - intros H. simplify_eq. split; [|done]. by rewrite dget2_unfold, Hin.
Qed.

Lemma remove_current_tile_forgets_witness :
  remove_current_tile on_tile_6 5 0
    = Some (State [(6, [(0, 1)])] (_next_nodes on_tile_6)) /\
  dget2 5 0 [(6, [(0, 1)])] = None /\
  forall k, k <> 5 -> dget k [(6, [(0, 1)])] = dget k (_current_nodes on_tile_6).
Proof.
  split; [vm_compute; reflexivity|].
  apply (remove_current_tile_forgets on_tile_6 5 0
           (State [(6, [(0, 1)])] (_next_nodes on_tile_6))).
  vm_compute; reflexivity.
Defined.

Lemma length_dset_fresh {V} k (v : V) d :
  dget k d = None -> dlen (dset k v d) = dlen d + 1.
Proof.
  unfold dlen. induction d as [|[k0 v0] d IH]; simpl; [done|].
  destruct (Z.eqb_spec k k0); [done|]. intros Hg. simpl.
  specialize (IH Hg). lia.
Qed.

(** X3: in any state an episode can reach, a begin-contact on a tile and
    lane that the occupancy does not hold, followed by the end-contact on
    the same tile and lane, gives the occupancy back exactly as it was
    (same tiles, same lanes, same order). *)
Theorem add_then_remove_restores e evs st id lane w st1 :
  run e evs = Some st ->
  dget2 id lane (_current_nodes st) = None ->
  add_current_tile e st id lane w = Some st1 ->
  exists st2, remove_current_tile st1 id lane = Some st2 /\
              _current_nodes st2 = _current_nodes st.
Proof.
  intros Hrun Hfree Hadd. apply run_wf in Hrun as [Hnd Hall].
  rewrite dget2_unfold in Hfree.
  unfold add_current_tile in Hadd. bind_inv Hadd. simplify_eq.
  match goal with
  | H : (if dhas _ _ then _ else _) = Some _ |- _ => rename H into Hc
  end.
  unfold dhas, dset2 in Hc. unfold remove_current_tile. simpl.
  destruct (dget id (_current_nodes st)) as [inner|] eqn:Hin; simpl in Hc;
    simplify_eq; rewrite dget_dset_eq.
  - pose proof (dget_Forall _ _ _ _ Hall Hin) as (Hne & _). simpl in Hne.
    pose proof (length_dset_fresh lane (direction_of w) inner Hfree) as Hlen.
    assert (0 < dlen inner) by (unfold dlen; destruct inner; simpl; [done|lia]).
    destruct (Z.ltb_spec 1 (dlen (dset lane (direction_of w) inner))); [|lia].
    unfold dhas. rewrite dget_dset_eq. simpl. eexists. split; [done|]. simpl.
    by rewrite ddel_dset_fresh, dset_dset, dset_same.
  - simpl. eexists. split; [done|]. simpl. by apply ddel_dset_fresh.
Qed.

Lemma add_then_remove_restores_witness :
  run spur_env [BeginContact 5 0 false] = Some on_tile_5 /\
  dget2 6 0 (_current_nodes on_tile_5) = None /\
  add_current_tile spur_env on_tile_5 6 0 false = Some on_tile_6 /\
  exists st2, remove_current_tile on_tile_6 6 0 = Some st2 /\
              _current_nodes st2 = _current_nodes on_tile_5.
Proof.
  split; [vm_compute; reflexivity|].
  split; [vm_compute; reflexivity|].
  split; [vm_compute; reflexivity|].
  apply (add_then_remove_restores spur_env [BeginContact 5 0 false]
           on_tile_5 6 0 false on_tile_6); vm_compute; reflexivity.
Defined.

(** X4: at every point of an episode, when no tile is occupied the
    prediction frontier is empty: the end-contact that empties the
    occupancy also drops the frontier. *)
Theorem frontier_dropped_when_unoccupied e evs st :
  run e evs = Some st -> _current_nodes st = [] -> _next_nodes st = [].
Proof.
  unfold run.
  apply (foldM_preserve
           (fun s => _current_nodes s = [] -> _next_nodes s = [])); [|done].
  intros b [id lane w|id lane] b' Hb; simpl; intros H.
  - intros Hc. by apply add_current_tile_occupied in H.
  - unfold remove_current_tile in H.
    destruct (dget id (_current_nodes b)); [|by simplify_eq].
    bind_inv H. simplify_eq. simpl. intros ->. done.
Qed.

Lemma frontier_dropped_when_unoccupied_witness :
  run spur_env [BeginContact 5 0 false; EndContact 5 0] = Some (State [] []) /\
  _current_nodes (State [] []) = [] /\
  _next_nodes (State [] []) = [].
Proof.
  split; [vm_compute; reflexivity|]. split; [reflexivity|].
  apply (frontier_dropped_when_unoccupied spur_env
           [BeginContact 5 0 false; EndContact 5 0] (State [] []));
    [vm_compute; reflexivity|reflexivity].
Defined.

(** X5: at every point of an episode every heading stored in the
    occupancy is +1 or -1, never 0, and no occupied tile is listed
    without a lane. *)
Theorem occupancy_headings e evs st :
  run e evs = Some st ->
  (forall id lane d,
     dget2 id lane (_current_nodes st) = Some d -> d = 1 \/ d = -1) /\
  (forall id inner, dget id (_current_nodes st) = Some inner -> inner <> []).
Proof.
  intros Hrun. apply run_wf in Hrun as [_ Hall]. split.
  - intros id lane d. rewrite dget2_unfold.
    destruct (dget id (_current_nodes st)) as [inner|] eqn:Hin; [|done].
    intros Hl. pose proof (dget_Forall _ _ _ _ Hall Hin) as (_ & _ & Hd).
    by apply (dget_Forall _ _ _ _ Hd Hl).
  - intros id inner Hin. by pose proof (dget_Forall _ _ _ _ Hall Hin) as (? & _).
Qed.

Lemma occupancy_headings_witness :
  run spur_env [BeginContact 5 0 false; BeginContact 6 0 false]
    = Some on_tile_6 /\
  (forall id lane d,
     dget2 id lane (_current_nodes on_tile_6) = Some d -> d = 1 \/ d = -1) /\
  (forall id inner,
     dget id (_current_nodes on_tile_6) = Some inner -> inner <> []).
Proof.
  split; [vm_compute; reflexivity|].
  apply (occupancy_headings spur_env
           [BeginContact 5 0 false; BeginContact 6 0 false] on_tile_6).
  vm_compute; reflexivity.
Defined.

Lemma trail_steps_is_Some k (nn : list step) : forall acc : step,
  is_Some (dget k acc) \/ (exists s, s ∈ nn /\ is_Some (dget k s)) ->
  is_Some (dget k (fold_left dupdate nn acc)).
Proof.
  induction nn as [|s0 nn IH]; intros acc; simpl.
  - intros [H|(s & Hs & _)]; [done|by apply elem_of_nil in Hs].
  - intros H. apply IH. destruct H as [H|(s & Hs & Hk)].
    + left. apply dget_dupdate_is_Some. by left.
    + apply elem_of_cons in Hs as [->|Hs].
      * left. apply dget_dupdate_is_Some. by right.
      * right. eauto.
Qed.

Lemma trail_steps_Some k v (nn : list step) : forall acc : step,
  dget k (fold_left dupdate nn acc) = Some v ->
  dget k acc = Some v \/ exists s, s ∈ nn /\ (k, v) ∈ s.
Proof.
  induction nn as [|s0 nn IH]; intros acc; simpl; [by left|].
  intros H. apply IH in H as [H|(s & Hs & Hin)].
  - apply dget_dupdate_Some in H as [H|[_ H]]; [right|by left].
    exists s0. split; [left|done].
  - right. exists s. split; [by right|done].
Qed.

(** X6: the trail that [_update_predictions] builds, at any point of an
    episode: every occupied tile is in it with its occupancy entry (the
    occupancy overrides a prediction for the same tile); every tile of
    every frontier step is in it; and it holds nothing else: an entry is
    the occupancy's, or else that of some frontier step for a tile that is
    not occupied. *)
Theorem trail_nodes_cover e evs st :
  run e evs = Some st ->
  (forall k v, dget k (_current_nodes st) = Some v ->
     dget k (_update_predictions st) = Some v) /\
  (forall s k, s ∈ _next_nodes st -> is_Some (dget k s) ->
     is_Some (dget k (_update_predictions st))) /\
  (forall k v, dget k (_update_predictions st) = Some v ->
     dget k (_current_nodes st) = Some v \/
     (dget k (_current_nodes st) = None /\
      exists s, s ∈ _next_nodes st /\ (k, v) ∈ s)).
Proof.
  intros Hrun. apply run_wf in Hrun as [Hnd _]. unfold _update_predictions.
  split; [|split].
  - intros k v Hk. by apply dget_dupdate_in.
  - intros s k Hs Hk. apply dget_dupdate_is_Some. left.
    apply trail_steps_is_Some. right. eauto.
  - intros k v H. apply dget_dupdate_Some in H as [H|[Hn H]].
    + left. by apply elem_of_dget.
    + right. split; [done|].
      apply trail_steps_Some in H as [H|H]; [done|done].
Qed.

Lemma trail_nodes_cover_witness :
  run spur_env [BeginContact 5 0 false; BeginContact 6 0 false]
    = Some on_tile_6 /\
  (forall k v, dget k (_current_nodes on_tile_6) = Some v ->
     dget k (_update_predictions on_tile_6) = Some v) /\
  (forall s k, s ∈ _next_nodes on_tile_6 -> is_Some (dget k s) ->
     is_Some (dget k (_update_predictions on_tile_6))) /\
  (forall k v, dget k (_update_predictions on_tile_6) = Some v ->
     dget k (_current_nodes on_tile_6) = Some v \/
     (dget k (_current_nodes on_tile_6) = None /\
      exists s, s ∈ _next_nodes on_tile_6 /\ (k, v) ∈ s)).
Proof.
  split; [vm_compute; reflexivity|].
  apply (trail_nodes_cover spur_env
           [BeginContact 5 0 false; BeginContact 6 0 false] on_tile_6).
  vm_compute; reflexivity.
Defined.

Lemma mod_succ_pred a n : 0 <= a < n -> ((a + 1) mod n - 1) mod n = a.
Proof.
  intros Ha. destruct (Z.eq_dec (a + 1) n) as [<-|Hne].
  - rewrite Z.mod_same by lia. symmetry.
    apply (Z.mod_unique _ _ (-1)); lia.
  - rewrite (Z.mod_small (a + 1)) by lia.
    replace (a + 1 - 1) with a by lia. apply Z.mod_small. lia.
Qed.

Lemma relative_base e k off n id ti :
  base e k = Some off -> py_index (tracks e) k = Some n ->
  track ti = k -> n <> 0%nat ->
  relative e id ti = Some (id - off, Z.of_nat n).
Proof.
  unfold base, relative. intros Hoff Hn -> Hn0. rewrite Hn.
  destruct (0 <? k).
  - destruct (py_index (tracks e) (k - 1)); simpl in *; [|done].
    simplify_eq. destruct (Z.eqb_spec (Z.of_nat n) 0); [lia|done].
  - simplify_eq. simpl. destruct (Z.eqb_spec (Z.of_nat n) 0); [lia|].
    by rewrite Z.sub_0_r.
Qed.

(** X7: on a stretch without junction, stepping forward and then
    backward comes back to the tile: when neither tile [id] nor its
    forward neighbour [j] on the same track (the index wraps at the end of
    the track) belongs to an intersection group, [id] is not an end tile
    and [j] is not a start tile, the successor of [id] heading +1 is the
    single entry [j] with the caller's lane and heading, and the successor
    of [j] heading -1 is the single entry [id]. *)
Theorem successor_round_trip e k off n id lane ti tj :
  base e k = Some off -> py_index (tracks e) k = Some n ->
  off <= id < off + Z.of_nat n ->
  py_index (info e) id = Some ti ->
  py_index (info e) (off + (id - off + 1) mod Z.of_nat n) = Some tj ->
  track ti = k -> track tj = k ->
  end_ ti = false -> start tj = false ->
  intersection_id ti = -1 -> intersection_id tj = -1 ->
  _get_next_node e id lane 1
    = Some [(off + (id - off + 1) mod Z.of_nat n, [(lane, 1)])] /\
  _get_next_node e (off + (id - off + 1) mod Z.of_nat n) lane (-1)
    = Some [(id, [(lane, -1)])].
Proof.
  intros Hoff Hn Hid Hti Htj Hk Hk' Hend Hstart Hi Hj.
  assert (n <> 0%nat) as Hn0 by lia.
  set (j := off + (id - off + 1) mod Z.of_nat n) in *.
  split.
  - unfold _get_next_node. rewrite Hti. simpl. rewrite Hend.
    rewrite andb_false_r. simpl.
    rewrite (relative_base e k off n id ti) by done. simpl.
    replace (id - (id - off) + (id - off + 1) mod Z.of_nat n) with j
      by (unfold j; lia).
    rewrite Htj. simpl. rewrite Hj. simpl.
    unfold dset2. simpl. by rewrite Z.eqb_refl.
  - unfold _get_next_node. rewrite Htj. simpl. rewrite Hstart. simpl.
    rewrite andb_false_r. simpl.
    rewrite (relative_base e k off n j tj) by done. simpl.
    assert ((j - off + -1) mod Z.of_nat n = id - off) as ->.
    { unfold j. replace (off + (id - off + 1) mod Z.of_nat n - off + -1)
        with ((id - off + 1) mod Z.of_nat n - 1) by lia.
      apply mod_succ_pred. lia. }
    replace (j - (j - off) + (id - off)) with id by lia.
    rewrite Hti. simpl. rewrite Hi. simpl.
    unfold dset2. simpl. by rewrite Z.eqb_refl.
Qed.

Lemma successor_round_trip_witness :
  _get_next_node spur_env 25 0 1 = Some [(26, [(0, 1)])] /\
  _get_next_node spur_env 26 0 (-1) = Some [(25, [(0, -1)])].
Proof.
  apply (successor_round_trip spur_env 1 20 20%nat 25 0
           (TileInfo 1 false false (-1) [true; true])
           (TileInfo 1 false false (-1) [true; true]));
    try (vm_compute; reflexivity).
  lia.
Defined.

(** *** The frontier on a plain stretch *)

(** A tile of track [k] that is neither cut end nor part of a junction. *)
Definition plain_tile (k : Z) (t : tile_info) : Prop :=
  track t = k /\ end_ t = false /\ start t = false /\ intersection_id t = -1.

(** The rows of [self.info] that belong to the track starting at row
    [off] with [n] tiles. *)
Definition track_rows (e : env) (off : Z) (n : nat) : list tile_info :=
  take n (drop (Z.to_nat off) (info e)).

(** The tile [i] steps ahead of [id] with heading [d] on that track; the
    index wraps at both ends of the track. *)
Definition ahead (off : Z) (n : nat) (id d : Z) (i : nat) : Z :=
  off + (id - off + d * Z.of_nat i) mod Z.of_nat n.

Section plain_track.

Variables (e : env) (k off : Z) (n : nat).
Hypothesis Hoff : base e k = Some off.
Hypothesis Hn : py_index (tracks e) k = Some n.
Hypothesis Hlen : length (track_rows e off n) = n.
Hypothesis Hplain : Forall (plain_tile k) (track_rows e off n).

Lemma base_nonneg : 0 <= off.
Proof.
  unfold base in Hoff. destruct (0 <? k); [|by simplify_eq].
  destruct (py_index (tracks e) (k - 1)); simpl in Hoff; [|done].
  simplify_eq. lia.
Qed.

Lemma plain_row j :
  off <= j < off + Z.of_nat n ->
  exists tj, py_index (info e) j = Some tj /\ plain_tile k tj.
Proof.
  intros Hj. pose proof base_nonneg as H0.
  destruct (track_rows e off n !! Z.to_nat (j - off)) as [tj|] eqn:Hrow.
  - exists tj. split.
    + unfold track_rows in Hrow. apply lookup_take_Some in Hrow as [Hrow _].
      rewrite lookup_drop in Hrow. unfold py_index.
      destruct (Z.leb_spec 0 j); [|lia]. rewrite <- Hrow. f_equal. lia.
    + rewrite Forall_forall in Hplain. apply Hplain.
      by eapply list_elem_of_lookup_2.
  - apply lookup_ge_None in Hrow. rewrite Hlen in Hrow. lia.
Qed.

Lemma ahead_range id d i : n <> 0%nat ->
  off <= ahead off n id d i < off + Z.of_nat n.
Proof.
  intros Hn0. unfold ahead.
  pose proof (Z.mod_pos_bound (id - off + d * Z.of_nat i) (Z.of_nat n)). lia.
Qed.

Lemma ahead_succ id d i : n <> 0%nat ->
  off + (ahead off n id d i - off + d) mod Z.of_nat n = ahead off n id d (S i).
Proof.
  intros Hn0. unfold ahead. f_equal.
  replace (off + (id - off + d * Z.of_nat i) mod Z.of_nat n - off)
    with ((id - off + d * Z.of_nat i) mod Z.of_nat n) by lia.
  rewrite Z.add_mod_idemp_l by lia. f_equal. lia.
Qed.

Lemma get_next_node_plain j lane d :
  off <= j < off + Z.of_nat n -> d = 1 \/ d = -1 ->
  _get_next_node e j lane d
    = Some [(off + (j - off + d) mod Z.of_nat n, [(lane, d)])].
Proof.
  intros Hj Hd. assert (n <> 0%nat) as Hn0 by lia.
  destruct (plain_row j Hj) as (tj & Htj & Hk & Hend & Hstart & Hi).
  unfold _get_next_node. rewrite Htj. cbn [mbind option_bind].
  rewrite Hend, Hstart. cbn [andb orb].
  rewrite (relative_base e k off n j tj) by done. cbn [mbind option_bind].
  replace (j - (j - off) + (j - off + d) mod Z.of_nat n)
    with (off + (j - off + d) mod Z.of_nat n) by lia.
  set (j' := off + (j - off + d) mod Z.of_nat n).
  assert (off <= j' < off + Z.of_nat n) as Hj'.
  { unfold j'. pose proof (Z.mod_pos_bound (j - off + d) (Z.of_nat n)). lia. }
  destruct (plain_row j' Hj') as (tn & Htn & _ & _ & _ & Hi').
  rewrite Htn. cbn [mbind option_bind]. rewrite Hi'. simpl.
  unfold dset2. simpl. by rewrite Z.eqb_refl.
Qed.

Lemma expand_plain j lane d :
  off <= j < off + Z.of_nat n -> d = 1 \/ d = -1 ->
  expand e [(j, [(lane, d)])]
    = Some [(off + (j - off + d) mod Z.of_nat n, [(lane, d)])].
Proof.
  intros Hj Hd. unfold expand. cbn [foldM fst snd mbind option_bind].
  assert ((d =? 0) = false) as -> by (apply Z.eqb_neq; lia).
  rewrite get_next_node_plain by done. cbn [mbind option_bind foldM].
  unfold merge_pred. simpl. unfold dset2. simpl. by rewrite Z.eqb_refl.
Qed.

Lemma refill_plain id lane d cur : n <> 0%nat -> d = 1 \/ d = -1 ->
  forall passes i nn,
    match last nn with None => cur | Some s => s end
      = [(ahead off n id d i, [(lane, d)])] ->
    refill passes e cur nn
      = Some (nn ++ map (fun j => [(ahead off n id d j, [(lane, d)])])
                        (seq (S i) passes)).
Proof.
  intros Hn0 Hd. induction passes as [|p IH]; intros i nn Hlast.
  - simpl. by rewrite app_nil_r.
  - cbn [refill].
    match goal with
    | |- context [expand e ?x] =>
        replace x with [(ahead off n id d i, [(lane, d)])]
    end.
    rewrite expand_plain by (done || by apply ahead_range).
    cbn [mbind option_bind]. rewrite ahead_succ by done.
    rewrite (IH (S i)) by (by rewrite last_snoc).
    by rewrite <- app_assoc.
Qed.

(** X8: what the frontier holds on a plain stretch.  On a track none of
    whose tiles is a cut end or belongs to a junction, a begin-contact on
    tile [id] with no tile occupied and no frontier (the first contact of
    an episode, or the first after the car left the road) records the
    tile and predicts the next ten tiles in the heading of the car, one
    tile per step, each with the lane of the contact and the same
    heading; the tile index wraps around at either end of the track. *)
Theorem frontier_on_plain_track id lane w :
  off <= id < off + Z.of_nat n ->
  add_current_tile e (State [] []) id lane w
    = Some (State [(id, [(lane, direction_of w)])]
                  (map (fun i : nat =>
                          [(ahead off n id (direction_of w) (S i),
                            [(lane, direction_of w)])])
                       (seq 0 SHOW_NEXT_N_TILES))).
Proof.
  intros Hid. assert (n <> 0%nat) as Hn0 by lia.
  destruct (plain_row id Hid) as (ti & Hti & Hk & _).
  unfold add_current_tile. rewrite Hti. cbn [mbind option_bind].
  rewrite (relative_base e k off n id ti) by done.
  cbn [mbind option_bind _current_nodes _next_nodes].
  change (dhas id []) with false. cbn [mbind option_bind dset].
  change (clean (reconcile id lane (direction_of w) [])) with (@nil step).
  rewrite (refill_plain id lane (direction_of w) _ Hn0) with (i := 0%nat).
  - reflexivity.
  - destruct w; auto.
  - cbn [last]. unfold ahead. rewrite Z.mul_0_r, Z.add_0_r.
    rewrite Z.mod_small by lia. by replace (off + (id - off)) with id by lia.
Qed.

End plain_track.

Lemma frontier_on_plain_track_witness :
  base spur_env 0 = Some 0 /\
  py_index (tracks spur_env) 0 = Some 20%nat /\
  length (track_rows spur_env 0 20) = 20%nat /\
  Forall (plain_tile 0) (track_rows spur_env 0 20) /\
  0 <= 15 < 0 + Z.of_nat 20 /\
  add_current_tile spur_env (State [] []) 15 0 false
    = Some (State [(15, [(0, 1)])]
                  [[(16, [(0, 1)])]; [(17, [(0, 1)])]; [(18, [(0, 1)])];
                   [(19, [(0, 1)])]; [(0, [(0, 1)])]; [(1, [(0, 1)])];
                   [(2, [(0, 1)])]; [(3, [(0, 1)])]; [(4, [(0, 1)])];
                   [(5, [(0, 1)])]]).
Proof.
  assert (Forall (plain_tile 0) (track_rows spur_env 0 20)) as Hp.
  { vm_compute. repeat (constructor; [by vm_compute|]). constructor. }
  split; [reflexivity|]. split; [reflexivity|]. split; [reflexivity|].
  split; [exact Hp|]. split; [lia|].
  apply (frontier_on_plain_track spur_env 0 0 20%nat eq_refl eq_refl eq_refl Hp
           15 0 false).
  lia.
Defined.

End Occupancy.

(** ** Credit and reward over an episode *)

Module Credit.

Import Contact.

Definition is_obstacle (b : body) : bool :=
  match b with Obstacle _ => true | Tile _ _ _ => false end.

(** The contact events between a wheel and an obstacle body. *)
Definition obstacle_hits (bodies : list body) (evs : list contact_event) : Z :=
  count_if (fun ev : contact_event =>
              let '(b, obj, _, _) := ev in
              match bodies !! b, obj with
              | Some (Obstacle _), Some _ => true
              | _, _ => false
              end)
           evs.

(** The bodies that a contact can still credit. *)
Definition unvisited_bodies (bodies : list body) : Z :=
  count_if (fun b => negb (road_visited_of b)) bodies.

(** [reward_episode] of lines 127-131 for a table of [n] tiles. *)
Definition reward_per_credit (e : Graph.env) (lo hi : option Q) : Q :=
  clip (1000 / inject_Z (Z.of_nat (length (Graph.info e))))%Q lo hi.

(** *** One contact *)

Lemma contact_kinds e lo hi w b obj begin wg w' :
  _contact e lo hi w b obj begin wg = Some w' ->
  is_obstacle <$> road w' = is_obstacle <$> road w.
Proof.
  unfold _contact. intros H.
  destruct (road w !! b) as [tile|] eqn:Hb; [|by simplify_eq].
  destruct obj as [wheel|]; [|by simplify_eq].
  destruct begin.
  - bind_inv H. destruct (road_visited_of tile); simpl in H.
    + by simplify_eq.
    + destruct (Nat.eqb _ 0); [done|]. simplify_eq. simpl.
      rewrite list_fmap_insert. apply list_insert_id.
      rewrite list_lookup_fmap, Hb. by destruct tile.
  - destruct (bool_decide _); [|done]. destruct tile; [|done].
    bind_inv H. by simplify_eq.
Qed.

Lemma contact_count_mono e lo hi w b obj begin wg w' :
  _contact e lo hi w b obj begin wg = Some w' ->
  tile_visited_count w <= tile_visited_count w'.
Proof.
  unfold _contact. intros H.
  destruct (road w !! b) as [tile|] eqn:Hb; [|simplify_eq; lia].
  destruct obj as [wheel|]; [|simplify_eq; lia].
  destruct begin.
  - bind_inv H. destruct (road_visited_of tile); simpl in H.
    + simplify_eq. simpl. lia.
    + destruct (Nat.eqb _ 0); [done|]. simplify_eq. simpl. lia.
  - destruct (bool_decide _); [|done]. destruct tile; [|done].
    bind_inv H. simplify_eq. simpl. lia.
Qed.

Lemma obstacle_hits_one bodies b obj begin wg :
  obstacle_hits bodies [(b, obj, begin, wg)]
  = match bodies !! b, obj with
    | Some (Obstacle _), Some _ => 1
    | _, _ => 0
    end.
Proof.
  unfold obstacle_hits, count_if. cbn [List.filter].
  by destruct (bodies !! b) as [[]|], obj.
Qed.

Ltac q_ring :=
  cbv beta iota;
  change (inject_Z 0) with 0%Q; change (inject_Z 1) with 1%Q; ring.

Lemma contact_reward e lo hi w b obj begin wg w' :
  _contact e lo hi w b obj begin wg = Some w' ->
  (reward w' ==
   reward w
   + inject_Z (tile_visited_count w' - tile_visited_count w)
     * reward_per_credit e lo hi
   + inject_Z (obstacle_hits (road w) [(b, obj, begin, wg)]) * OBSTACLE_VALUE)%Q.
Proof.
  unfold _contact, reward_per_credit. intros H. rewrite obstacle_hits_one.
  destruct (road w !! b) as [tile|] eqn:Hb.
  2:{ simplify_eq. rewrite Z.sub_diag. q_ring. }
  destruct obj as [wheel|].
  2:{ simplify_eq. rewrite Z.sub_diag. destruct tile; q_ring. }
  destruct begin.
  - bind_inv H. destruct (road_visited_of tile); simpl in H.
    + simplify_eq. cbn [reward tile_visited_count]. rewrite Z.sub_diag.
      destruct tile; q_ring.
    + destruct (Nat.eqb _ 0); [done|]. simplify_eq.
      cbn [reward tile_visited_count].
      replace (tile_visited_count w + 1 - tile_visited_count w) with 1 by lia.
      destruct tile; q_ring.
  - destruct (bool_decide _); [|done]. destruct tile; [|done].
    bind_inv H. simplify_eq. cbn [reward tile_visited_count].
    rewrite Z.sub_diag. q_ring.
Qed.

Lemma obstacle_hits_cons bodies ev evs :
  obstacle_hits bodies (ev :: evs)
  = obstacle_hits bodies [ev] + obstacle_hits bodies evs.
Proof.
  unfold obstacle_hits, count_if. cbn [List.filter].
  destruct ev as [[[b obj] begin] wg].
  destruct (match bodies !! b with Some (Obstacle _) => _ | _ => _ end);
    cbn [length]; lia.
Qed.

Lemma obstacle_hits_kinds bodies bodies' evs :
  is_obstacle <$> bodies' = is_obstacle <$> bodies ->
  obstacle_hits bodies' evs = obstacle_hits bodies evs.
Proof.
  intros Hk. unfold obstacle_hits, count_if. f_equal. f_equal.
  apply List.filter_ext. intros [[[b obj] begin] wg].
  assert (is_obstacle <$> bodies' !! b = is_obstacle <$> bodies !! b) as Hb
    by (by rewrite <- !list_lookup_fmap, Hk).
  destruct (bodies' !! b) as [[]|], (bodies !! b) as [[]|]; simpl in Hb; done.
Qed.

(** *** The episode *)

Lemma contacts_accounting e lo hi evs : forall w w',
  contacts e lo hi w evs = Some w' ->
  length (road w') = length (road w) /\
  tile_visited_count w <= tile_visited_count w' /\
  tile_visited_count w' - visited_bodies (road w')
  = tile_visited_count w - visited_bodies (road w) /\
  (reward w' ==
   reward w
   + inject_Z (tile_visited_count w' - tile_visited_count w)
     * reward_per_credit e lo hi
   + inject_Z (obstacle_hits (road w) evs) * OBSTACLE_VALUE)%Q.
Proof.
  unfold contacts. induction evs as [|ev evs IH]; intros w w' H.
  - simpl in H. simplify_eq. split; [done|]. split; [lia|]. split; [done|].
    rewrite Z.sub_diag. change (obstacle_hits (road w') []) with 0. q_ring.
  - cbn [foldM] in H. destruct ev as [[[b obj] begin] wg].
    destruct (_contact e lo hi w b obj begin wg) as [w1|] eqn:Hc;
      cbn [mbind option_bind] in H; [|done].
    apply IH in H as (Hlen & Hmono & Hcount & Hrew).
    pose proof (contact_kinds _ _ _ _ _ _ _ _ _ Hc) as Hk.
    pose proof (contact_count_mono _ _ _ _ _ _ _ _ _ Hc) as Hm1.
    pose proof (contact_credit_per_body _ _ _ _ _ _ _ _ _ Hc) as Hc1.
    pose proof (contact_reward _ _ _ _ _ _ _ _ _ Hc) as Hr1.
    split; [|split; [lia|split; [lia|]]].
    + rewrite Hlen. apply (f_equal length) in Hk. by rewrite !length_fmap in Hk.
    + rewrite Hrew, Hr1. rewrite (obstacle_hits_kinds _ _ _ Hk).
      rewrite (obstacle_hits_cons (road w) (b, obj, begin, wg) evs).
      replace (tile_visited_count w' - tile_visited_count w)
        with ((tile_visited_count w' - tile_visited_count w1)
              + (tile_visited_count w1 - tile_visited_count w)) by lia.
      rewrite !obstacle_hits_one, !inject_Z_plus. ring.
Qed.

(** X9: over any sequence of contacts of an episode, with obstacles on
    the road or not, the number of credits is the number of bodies whose
    visited flag was set during the episode; it is never negative and
    never more than the number of bodies that were unvisited at the start
    (one per tile and enabled lane), and the road keeps its bodies. *)
Theorem credits_count_newly_visited e lo hi bodies evs w' :
  contacts e lo hi (reset_world bodies) evs = Some w' ->
  tile_visited_count w' = visited_bodies (road w') - visited_bodies bodies /\
  0 <= tile_visited_count w' <= unvisited_bodies bodies /\
  length (road w') = length bodies.
Proof.
  intros H. apply contacts_accounting in H as (Hlen & Hmono & Hcount & _).
  simpl in *. split; [lia|]. split; [|done]. split; [done|].
  assert (visited_bodies (road w') <= Z.of_nat (length (road w'))) as Hv.
  { unfold visited_bodies, count_if.
    pose proof (List.filter_length_le road_visited_of (road w')). lia. }
  assert (visited_bodies bodies + unvisited_bodies bodies
          = Z.of_nat (length bodies)) as Hsplit.
  { unfold visited_bodies, unvisited_bodies, count_if.
    clear. induction bodies as [|b l IH]; simpl; [done|].
    destruct (road_visited_of b); simpl; lia. }
  lia.
Qed.

Lemma credits_count_newly_visited_witness :
  exists w',
    contacts two_lane_env None None (reset_world (two_lane_road ++ [Obstacle true]))
             [(10%nat, Some 0%nat, true, false); (24%nat, Some 0%nat, true, false);
              (10%nat, Some 1%nat, true, false)] = Some w' /\
    tile_visited_count w'
    = visited_bodies (road w') - visited_bodies (two_lane_road ++ [Obstacle true]) /\
    0 <= tile_visited_count w'
      <= unvisited_bodies (two_lane_road ++ [Obstacle true]) /\
    length (road w') = length (two_lane_road ++ [Obstacle true]).
Proof.
  eexists. split; [vm_compute; reflexivity|].
  apply (credits_count_newly_visited two_lane_env None None
           (two_lane_road ++ [Obstacle true])
           [(10%nat, Some 0%nat, true, false); (24%nat, Some 0%nat, true, false);
            (10%nat, Some 1%nat, true, false)]).
  vm_compute; reflexivity.
Defined.

(** X10: the reward that the contact listener accumulates over an
    episode, in exact arithmetic: the number of credits times the clipped
    per-tile value [clip(1000/len(track))], minus 10 for every contact
    event between a wheel and an obstacle.  Nothing else changes the
    reward in the listener. *)
Theorem episode_reward_accounting e lo hi bodies evs w' :
  contacts e lo hi (reset_world bodies) evs = Some w' ->
  (reward w' ==
   inject_Z (tile_visited_count w') * reward_per_credit e lo hi
   + inject_Z (obstacle_hits bodies evs) * OBSTACLE_VALUE)%Q.
Proof.
  intros H. apply contacts_accounting in H as (_ & _ & _ & Hrew).
  cbn [reset_world reward tile_visited_count road] in Hrew.
  rewrite Hrew, Z.sub_0_r. ring.
Qed.

Lemma episode_reward_accounting_witness :
  exists w',
    contacts two_lane_env None None (reset_world (two_lane_road ++ [Obstacle true]))
             [(10%nat, Some 0%nat, true, false); (24%nat, Some 0%nat, true, false);
              (10%nat, Some 1%nat, true, false)] = Some w' /\
    (reward w' ==
     inject_Z (tile_visited_count w') * reward_per_credit two_lane_env None None
     + inject_Z (obstacle_hits (two_lane_road ++ [Obstacle true])
                   [(10%nat, Some 0%nat, true, false);
                    (24%nat, Some 0%nat, true, false);
                    (10%nat, Some 1%nat, true, false)]) * OBSTACLE_VALUE)%Q.
Proof.
  eexists. split; [vm_compute; reflexivity|].
  apply (episode_reward_accounting two_lane_env None None
           (two_lane_road ++ [Obstacle true])
           [(10%nat, Some 0%nat, true, false); (24%nat, Some 0%nat, true, false);
            (10%nat, Some 1%nat, true, false)]).
  vm_compute; reflexivity.
Defined.

End Credit.

(** ** The bodies of the road *)

Module Bodies.

Import Lanes Reset.

(** [self.info[j]['lanes'][lane]] read as a test. *)
Definition enabled (ti : tile_info) (lane : Z) : bool :=
  match py_index (lanes ti) lane with Some true => true | _ => false end.

(** The bodies of tile [j]: one per enabled lane, in lane order. *)
Definition rows (nl : Z) (j : nat) (ti : tile_info) : list (Z * Z) :=
  map (fun lane => (Z.of_nat j, lane)) (List.filter (enabled ti) (zrange nl)).

Lemma lane_loop_rows p3 j ti ls : forall road road',
  foldR (tile_body p3 (Z.of_nat j) ti) ls road = Return road' ->
  road' = road ++ map (fun lane => (Z.of_nat j, lane)) (List.filter (enabled ti) ls).
Proof.
  induction ls as [|lane ls IH]; intros road road' H; simpl in *.
  - simplify_eq. by rewrite app_nil_r.
  - unfold tile_body at 1 in H. unfold enabled at 1.
    destruct (py_index (lanes ti) lane) as [[|]|]; [| |done].
    + assert (foldR (tile_body p3 (Z.of_nat j) ti) ls (road ++ [(Z.of_nat j, lane)])
              = Return road') as H'.
      { destruct (end_ ti || start ti); [|done].
        by destruct (p3 (Z.of_nat j) lane). }
      apply IH in H'. rewrite H'. simpl. by rewrite <- app_assoc.
    + by apply IH.
Qed.

Lemma tile_loop_rows nl p3 info : forall (g : nat -> nat) road road',
  foldR (fun road (jt : nat * tile_info) =>
           foldR (tile_body p3 (Z.of_nat (fst jt)) (snd jt)) (zrange nl) road)
        (imap (fun j ti => (g j, ti)) info) road = Return road' ->
  road' = road ++ mjoin (imap (fun j ti => rows nl (g j) ti) info).
Proof.
  induction info as [|ti info IH]; intros g road road' H; simpl in *.
  - simplify_eq. by rewrite app_nil_r.
  - destruct (foldR (tile_body p3 (Z.of_nat (g 0%nat)) ti) (zrange nl) road)
      as [road1|] eqn:H1; [|done].
    apply lane_loop_rows in H1. apply (IH (g ∘ S)) in H.
    rewrite H, H1. by rewrite <- app_assoc.
Qed.

Lemma elem_of_rows nl j ti x :
  x ∈ rows nl j ti <->
  exists lane, x = (Z.of_nat j, lane) /\ 0 <= lane < nl /\
               py_index (lanes ti) lane = Some true.
Proof.
  unfold rows. rewrite list_elem_of_fmap. split.
  - intros (lane & -> & Hin). apply list_elem_of_In, List.filter_In in Hin as [Hin He].
    apply list_elem_of_In, elem_of_zrange in Hin. exists lane.
    split; [done|]. split; [done|]. unfold enabled in He.
    by destruct (py_index (lanes ti) lane) as [[|]|].
  - intros (lane & -> & Hl & He). exists lane. split; [done|].
    apply list_elem_of_In, List.filter_In. split.
    + by apply list_elem_of_In, elem_of_zrange.
    + unfold enabled. by rewrite He.
Qed.

Lemma elem_of_all_rows nl info x :
  x ∈ mjoin (imap (fun j ti => rows nl j ti) info) <->
  exists j ti lane, info !! j = Some ti /\ x = (Z.of_nat j, lane) /\
                    0 <= lane < nl /\ py_index (lanes ti) lane = Some true.
Proof.
  rewrite list_elem_of_join. split.
  - intros (l & Hx & Hl). apply elem_of_lookup_imap in Hl as (j & ti & -> & Hj).
    apply elem_of_rows in Hx as (lane & ? & ? & ?). by exists j, ti, lane.
  - intros (j & ti & lane & Hj & -> & Hl & He). exists (rows nl j ti). split.
    + apply elem_of_rows. by exists lane.
    + apply elem_of_lookup_imap. by exists j, ti.
Qed.

Lemma NoDup_rows nl j ti : NoDup (rows nl j ti).
Proof.
  unfold rows. apply NoDup_fmap_2; [by intros a b ?; simplify_eq|].
  apply NoDup_ListNoDup, List.NoDup_filter, NoDup_ListNoDup. unfold zrange.
  apply NoDup_fmap_2; [intros a b; apply Nat2Z.inj|]. apply NoDup_seq.
Qed.

Lemma NoDup_all_rows nl info :
  NoDup (mjoin (imap (fun j ti => rows nl j ti) info)).
Proof.
  induction info as [|ti info IH] using rev_ind; [apply NoDup_nil_2|].
  rewrite imap_app, join_app. simpl. rewrite app_nil_r, Nat.add_0_r.
  apply NoDup_app. split; [done|]. split; [|apply NoDup_rows].
  intros x Hx Hx'. apply elem_of_all_rows in Hx as (j & t0 & lane & Hj & -> & _).
  apply elem_of_rows in Hx' as (lane' & Heq & _).
  apply lookup_lt_Some in Hj. simplify_eq. lia.
Qed.

(** X11: when the tile loop of [_create_track] returns, [self.road]
    holds exactly one body for every tile [j] of the table and every lane
    below [num_lanes] that is enabled on it, carrying that [id] and
    [lane], and no other body and no body twice: a disabled lane has no
    body to touch. *)
Theorem create_tiles_one_body_per_enabled_lane nl p3 info road :
  create_tiles nl p3 info = Return road ->
  NoDup road /\
  forall id lane, (id, lane) ∈ road <->
    exists j ti, id = Z.of_nat j /\ info !! j = Some ti /\
                 0 <= lane < nl /\ py_index (lanes ti) lane = Some true.
Proof.
  unfold create_tiles. intros H.
  apply (tile_loop_rows nl p3 info (fun j => j)) in H. simpl in H. subst road.
  split; [apply NoDup_all_rows|]. intros id lane.
  rewrite elem_of_all_rows. split.
  - intros (j & ti & lane' & Hj & Heq & Hl & He). simplify_eq. by exists j, ti.
  - intros (j & ti & -> & Hj & Hl & He). by exists j, ti, lane.
Qed.

Lemma create_tiles_one_body_per_enabled_lane_witness :
  create_tiles 2 (fun _ _ => [])
    [TileInfo 0 false false (-1) [true; false];
     TileInfo 0 false false (-1) [true; true]]
    = Return [(0, 0); (1, 0); (1, 1)] /\
  NoDup [(0, 0); (1, 0); (1, 1)] /\
  forall id lane, (id, lane) ∈ [(0, 0); (1, 0); (1, 1)] <->
    exists j ti, id = Z.of_nat j /\
                 [TileInfo 0 false false (-1) [true; false];
                  TileInfo 0 false false (-1) [true; true]] !! j = Some ti /\
                 0 <= lane < 2 /\ py_index (lanes ti) lane = Some true.
Proof.
  split; [vm_compute; reflexivity|].
  apply (create_tiles_one_body_per_enabled_lane 2 (fun _ _ => [])
           [TileInfo 0 false false (-1) [true; false];
            TileInfo 0 false false (-1) [true; true]]).
  vm_compute; reflexivity.
Defined.

End Bodies.

(** ** More on the configuration and the lane assigner *)

Module LaneFacts.

Import Lanes.

(** Everything of a tile but the values of its lane mask. *)
Definition frame (ti : tile_info) : Z * bool * bool * Z * nat :=
  (track ti, end_ ti, start ti, intersection_id ti, length (lanes ti)).

(** Lines 780-803 of [_set_lanes]: the sorted draws, the filter loop and
    [np.setdiff1d]; the result is the value of [changes] that the main
    loop reads. *)
Definition changes_kept (info : list tile_info) (seeded : list Z)
  : option (list Z) :=
  let changes := merge_sort Z.le seeded in
  changes_bad ← foldM (check_change info changes) changes [];
  Some (if (0 <? Z.of_nat (length changes_bad))
        then setdiff1d changes changes_bad else changes).

(** No end tile on the 50 tiles from [idx] on and no start tile on the 50
    tiles up to [idx], on the sub-track of [idx], as lines 797-801 test
    it. *)
Definition far_from_ends (info : list tile_info) (idx : Z) : Prop :=
  exists ti, py_index info idx = Some ti /\
    let track_info := List.filter (fun t => track t =? track ti) info in
    let idx_relative := idx - count_if (fun t => track t <? track ti) info in
    forall i, 0 <= i <= 50 ->
      (exists a, py_index track_info
                   ((idx_relative + i) mod Z.of_nat (length track_info)) = Some a /\
                 end_ a = false) /\
      (exists b, py_index track_info (idx_relative - i) = Some b /\
                 start b = false).

(** Tile [i] of sub-track [nt] ([i] counts from the end when negative)
    exists and has lane [lane] enabled. *)
Definition lit (info : list tile_info) (nt lane i : Z) : Prop :=
  exists p ti, py_index (positions info nt) i = Some p /\
               py_index info p = Some ti /\
               py_index (lanes ti) lane = Some true.

(** *** Indexing *)

Lemma py_index_pos {A B : Type} (l : list A) (l' : list B) i :
  length l = length l' ->
  exists k, py_index l i = l !! k /\ py_index l' i = l' !! k.
Proof.
  intros Hlen. unfold py_index. rewrite <- Hlen.
  destruct (0 <=? i); [by eexists|].
  destruct (- Z.of_nat (length l) <=? i); [by eexists|].
  exists (length l). split; symmetry; apply lookup_ge_None; lia.
Qed.

Lemma py_set_length {A : Type} (l : list A) i v m :
  py_set l i v = Some m -> length m = length l.
Proof.
  unfold py_set. intros H.
  destruct (_ && _); [|destruct (_ && _)]; simplify_eq;
    apply length_insert.
Qed.

Lemma py_set_get {A : Type} (l : list A) i v m :
  py_set l i v = Some m -> py_index m i = Some v.
Proof.
  intros H. pose proof (py_set_length _ _ _ _ H) as Hlen. revert H.
  unfold py_set, py_index. rewrite Hlen.
  destruct (Z.leb_spec 0 i) as [H0|H0].
  - destruct (Z.ltb_spec i (Z.of_nat (length l))) as [H1|H1]; simpl; intros H.
    + simplify_eq. apply list_lookup_insert_eq. lia.
    + destruct (Z.leb_spec (- Z.of_nat (length l)) i), (Z.ltb_spec i 0);
        simpl in H; try done; lia.
  - simpl.
    destruct (Z.leb_spec (- Z.of_nat (length l)) i) as [H2|H2],
             (Z.ltb_spec i 0) as [H3|H3]; simpl; intros H; try done; try lia.
    simplify_eq. apply list_lookup_insert_eq. lia.
Qed.

Lemma py_set_insert {A : Type} (l : list A) i v m :
  py_set l i v = Some m -> exists k, m = <[k := v]> l.
Proof.
  unfold py_set. intros H.
  destruct (_ && _); [|destruct (_ && _)]; simplify_eq; by eexists.
Qed.

(** A write of [v] leaves every slot that held [v] holding [v]. *)
Lemma py_set_keep {A : Type} (l : list A) i v m j :
  py_set l i v = Some m -> py_index l j = Some v -> py_index m j = Some v.
Proof.
  intros H Hj. pose proof (py_set_length _ _ _ _ H) as Hlen.
  apply py_set_insert in H as [k ->].
  destruct (py_index_pos l (<[k := v]> l) j) as (n & Hl & Hm);
    [by rewrite length_insert|].
  rewrite Hm. rewrite Hl in Hj. destruct (decide (k = n)) as [->|Hne].
  - apply list_lookup_insert_eq. by eapply lookup_lt_Some.
  - by rewrite list_lookup_insert_ne.
Qed.

(** *** Only the lane masks are written *)

Lemma set_lane_frame info i lane v info' :
  set_lane info i lane v = Some info' -> frame <$> info' = frame <$> info.
Proof.
  intros H. apply set_lane_Some in H as (j & ti & m & Hj & Hm & -> & _).
  rewrite list_fmap_insert. apply list_insert_id.
  rewrite list_lookup_fmap, Hj. simpl. unfold frame. simpl.
  by rewrite (py_set_length _ _ _ _ Hm).
Qed.

Lemma lane_body_frame c changes picks s i s' :
  lane_body c changes picks s i = Some s' ->
  frame <$> table s' = frame <$> table s.
Proof.
  unfold lane_body. intros H.
  destruct (_ && _);
    (destruct (negb _);
     [destruct (set_lane _ _ _ _) as [tb|] eqn:Hs; simpl in H; [|done];
      apply set_lane_frame in Hs
     |simpl in H]);
    (match type of H with
     | mbind _ ?x = _ => destruct x; simpl in H; [|done]
     end);
    by simplify_eq.
Qed.

Lemma override_one_frame nt lane info i info' :
  override_one nt lane info i = Some info' -> frame <$> info' = frame <$> info.
Proof.
  unfold override_one. intros H. bind_inv H.
  repeat match goal with
         | H : set_lane _ _ _ _ = Some _ |- _ => apply set_lane_frame in H
         end.
  congruence.
Qed.

Lemma override_frame c info info' :
  override c info = Some info' -> frame <$> info' = frame <$> info.
Proof.
  unfold override.
  apply (foldM_preserve (fun b => frame <$> b = frame <$> info)); [|done].
  intros b nt b' Hb.
  apply (foldM_preserve (fun b => frame <$> b = frame <$> info)); [|done].
  intros b1 ln b1' Hb1.
  apply (foldM_preserve (fun b => frame <$> b = frame <$> info)); [|done].
  intros b2 i b2' Hb2 H. apply override_one_frame in H. congruence.
Qed.

(** *** The tiles of a sub-track *)

Lemma positions_frame_gen nt l l' :
  Forall2 (fun a b => frame a = frame b) l l' ->
  forall F : nat -> nat,
    omap (fun p : nat * tile_info =>
            if track (snd p) =? nt then Some (Z.of_nat (fst p)) else None)
         (imap (fun i t => (F i, t)) l)
    = omap (fun p : nat * tile_info =>
              if track (snd p) =? nt then Some (Z.of_nat (fst p)) else None)
           (imap (fun i t => (F i, t)) l').
Proof.
  induction 1 as [|a b l l' Hab _ IH]; intros F; [done|].
  cbn [imap omap list_omap]. simpl.
  assert (track a = track b) as -> by (unfold frame in Hab; congruence).
  specialize (IH (F ∘ S)). destruct (track b =? nt); [f_equal|]; exact IH.
Qed.

Lemma positions_frame info info' nt :
  frame <$> info' = frame <$> info -> positions info' nt = positions info nt.
Proof.
  intros H. apply list_eq_Forall2 in H.
  rewrite Forall2_fmap in H.
  exact (positions_frame_gen nt info' info H (fun i => i)).
Qed.

Lemma set_lane_lit_keep info q l info' nt lane i :
  set_lane info q l true = Some info' -> lit info nt lane i -> lit info' nt lane i.
Proof.
  intros H (p & ti & Hp & Hti & Hl).
  pose proof (set_lane_frame _ _ _ _ _ H) as Hf.
  apply set_lane_Some in H as (j & t0 & m & Hj & Hm & -> & _).
  destruct (py_index_pos info (<[j := with_lanes t0 m]> info) p) as (n & Hn & Hn');
    [by rewrite length_insert|].
  rewrite Hn in Hti. destruct (decide (j = n)) as [->|Hne].
  - exists p, (with_lanes t0 m). rewrite (positions_frame _ _ _ Hf).
    split; [done|]. split.
    + rewrite Hn'. apply list_lookup_insert_eq. by eapply lookup_lt_Some.
    + simpl. simplify_eq. by eapply py_set_keep.
  - exists p, ti. rewrite (positions_frame _ _ _ Hf). split; [done|].
    split; [|done]. by rewrite Hn', list_lookup_insert_ne.
Qed.

Lemma set_lane_lit_set info q lane info' nt i :
  set_lane info q lane true = Some info' ->
  py_index (positions info nt) i = Some q -> lit info' nt lane i.
Proof.
  intros H Hq. pose proof (set_lane_frame _ _ _ _ _ H) as Hf.
  unfold set_lane in H. bind_inv H.
  match goal with
  | H1 : py_set (lanes _) _ _ = Some ?m, H2 : py_set info _ _ = Some _ |- _ =>
      apply py_set_get in H1; apply py_set_get in H2
  end.
  eexists q, _. rewrite (positions_frame _ _ _ Hf). split; [done|].
  split; [done|]. done.
Qed.

Lemma override_one_lit nt lane info i info' :
  override_one nt lane info i = Some info' ->
  lit info' nt lane i /\ lit info' nt lane (- i) /\
  forall nt' lane' i', lit info nt' lane' i' -> lit info' nt' lane' i'.
Proof.
  unfold override_one. intros H.
  destruct (py_index (positions info nt) i) as [p|] eqn:Hp; simpl in H; [|done].
  destruct (set_lane info p lane true) as [info1|] eqn:H1; simpl in H; [|done].
  destruct (py_index (positions info1 nt) (- i)) as [q|] eqn:Hq; simpl in H;
    [|done].
  split; [|split].
  - eapply set_lane_lit_keep; [done|]. by eapply set_lane_lit_set.
  - by eapply set_lane_lit_set.
  - intros nt' lane' i' Hl. eapply set_lane_lit_keep; [done|].
    by eapply set_lane_lit_keep.
Qed.

(** A loop whose every pass establishes its own fact, and keeps the facts
    of the other passes, ends with the facts of all its passes. *)
Lemma foldM_each {A B : Type} (Q : A -> B -> Prop) (f : B -> A -> option B) l :
  (forall b a b', f b a = Some b' -> Q a b') ->
  (forall a b a' b', Q a b -> f b a' = Some b' -> Q a b') ->
  forall b b', foldM f l b = Some b' -> forall a, a ∈ l -> Q a b'.
Proof.
  intros Hest Hkeep. induction l as [|a0 l IH]; intros b b' H a Ha.
  - by apply elem_of_nil in Ha.
  - simpl in H. destruct (f b a0) as [b1|] eqn:Hf; simpl in H; [|done].
    apply elem_of_cons in Ha as [->|Ha]; [|by eapply IH].
    revert H. apply (foldM_preserve (Q a0)); [|by eapply Hest].
    intros b2 a2 b2'. apply Hkeep.
Qed.

Definition restored (info : list tile_info) (nt lane : Z) : Prop :=
  forall i, -9 <= i <= 9 -> lit info nt lane i.

Lemma tile_loop_keeps nt lane info info' nt' lane' i' :
  foldM (override_one nt lane) (zrange 10) info = Some info' ->
  lit info nt' lane' i' -> lit info' nt' lane' i'.
Proof.
  intros H Hl. revert H.
  apply (foldM_preserve (fun b => lit b nt' lane' i')); [|done].
  intros b i b' Hb Ho. by apply override_one_lit in Ho as (_ & _ & Hk); auto.
Qed.

Lemma tile_loop_restores nt lane info info' :
  foldM (override_one nt lane) (zrange 10) info = Some info' ->
  restored info' nt lane.
Proof.
  intros H.
  assert (forall i, i ∈ zrange 10 ->
            lit info' nt lane i /\ lit info' nt lane (- i)) as Hall.
  { apply (foldM_each (fun i b => lit b nt lane i /\ lit b nt lane (- i))
                      (override_one nt lane) (zrange 10)) with (b := info);
      [| |done].
    - intros b a b' Ho. by apply override_one_lit in Ho as (? & ? & _).
    - intros a b a' b' [? ?] Ho. apply override_one_lit in Ho as (_ & _ & Hk).
      split; by apply Hk. }
  intros i Hi. destruct (Z.le_gt_cases 0 i).
  - apply Hall. apply Reset.elem_of_zrange. lia.
  - rewrite <- (Z.opp_involutive i). apply Hall.
    apply Reset.elem_of_zrange. lia.
Qed.

Lemma lane_loop_keeps nl nt info info' nt' lane' i' :
  foldM (fun info lane => foldM (override_one nt lane) (zrange 10) info)
        (zrange nl) info = Some info' ->
  lit info nt' lane' i' -> lit info' nt' lane' i'.
Proof.
  intros H Hl. revert H.
  apply (foldM_preserve (fun b => lit b nt' lane' i')); [|done].
  intros b lane b' Hb Ho. by eapply tile_loop_keeps.
Qed.

Lemma lane_loop_restores nl nt info info' lane :
  foldM (fun info lane => foldM (override_one nt lane) (zrange 10) info)
        (zrange nl) info = Some info' ->
  0 <= lane < nl -> restored info' nt lane.
Proof.
  intros H Hl.
  apply (foldM_each (fun lane b => restored b nt lane)
           (fun info lane => foldM (override_one nt lane) (zrange 10) info)
           (zrange nl)) with (b := info); [| |done|].
  - intros b a b'. apply tile_loop_restores.
  - intros a b a' b' Hr Ho i Hi. eapply tile_loop_keeps; [done|]. by apply Hr.
  - by apply Reset.elem_of_zrange.
Qed.

Lemma override_restores c info info' nt lane :
  override c info = Some info' ->
  0 <= nt < num_tracks c -> 0 <= lane < num_lanes c -> restored info' nt lane.
Proof.
  unfold override. intros H Hnt Hl.
  apply (foldM_each
           (fun nt b => forall lane, 0 <= lane < num_lanes c -> restored b nt lane)
           (fun info num_track =>
              foldM (fun info lane =>
                       foldM (override_one num_track lane) (zrange 10) info)
                    (zrange (num_lanes c)) info)
           (zrange (num_tracks c))) with (b := info) (a := nt); [| |done| |done].
  - intros b a b' Ho lane' Hl'. by eapply lane_loop_restores.
  - intros a b a' b' Hr Ho lane' Hl' i Hi. eapply lane_loop_keeps; [done|].
    by apply Hr.
  - by apply Reset.elem_of_zrange.
Qed.

(** *** The filter of the change points *)

Lemma near_boundary_false track_info idx_relative range_i :
  near_boundary track_info idx_relative range_i = Some false ->
  forall i, i ∈ range_i ->
    (exists a, py_index track_info
                 ((idx_relative + i) mod Z.of_nat (length track_info)) = Some a /\
               end_ a = false) /\
    (exists b, py_index track_info (idx_relative - i) = Some b /\
               start b = false).
Proof.
  induction range_i as [|i0 rng IH]; intros H i Hi.
  - by apply elem_of_nil in Hi.
  - cbn [near_boundary] in H.
    destruct (py_index track_info ((idx_relative + i0) mod _)) as [a|] eqn:Ha;
      simpl in H; [|done].
    destruct (end_ a) eqn:Hea; [done|].
    destruct (py_index track_info (idx_relative - i0)) as [b|] eqn:Hb;
      simpl in H; [|done].
    destruct (start b) eqn:Hsb; [done|].
    apply elem_of_cons in Hi as [->|Hi]; [|by apply IH].
    split; eauto.
Qed.

Lemma check_change_grows info changes bad idx bad' x :
  check_change info changes bad idx = Some bad' -> x ∈ bad -> x ∈ bad'.
Proof.
  unfold check_change. intros H Hx.
  destruct (py_index info idx) as [ti|]; cbn [mbind option_bind] in H; [|done].
  destruct (near_boundary _ _ _) as [near|]; cbn [mbind option_bind] in H;
    [|done].
  injection H as <-. destruct near, (0 <? _); rewrite ?elem_of_app; auto.
Qed.

Lemma check_change_kept info changes bad idx bad' :
  check_change info changes bad idx = Some bad' -> idx ∉ bad' ->
  far_from_ends info idx.
Proof.
  unfold check_change. intros H Hx.
  destruct (py_index info idx) as [ti|] eqn:Hti; cbn [mbind option_bind] in H;
    [|done].
  destruct (near_boundary _ _ _) as [near|] eqn:Hnear;
    cbn [mbind option_bind] in H; [|done].
  injection H as <-. destruct near.
  - exfalso. apply Hx. apply elem_of_app. right. left.
  - exists ti. split; [done|]. cbv zeta. intros i Hi.
    eapply near_boundary_false; [exact Hnear|]. apply Reset.elem_of_zrange. lia.
Qed.

Lemma filter_loop_kept info changes l : forall bad0 bad idx,
  foldM (check_change info changes) l bad0 = Some bad ->
  idx ∈ l -> idx ∉ bad -> far_from_ends info idx.
Proof.
  induction l as [|a l IH]; intros bad0 bad idx H Hin Hout.
  - by apply elem_of_nil in Hin.
  - simpl in H.
    destruct (check_change info changes bad0 a) as [bad1|] eqn:Hc; simpl in H;
      [|done].
    apply elem_of_cons in Hin as [->|Hin]; [|by eapply IH].
    eapply check_change_kept; [done|]. intros Hc1. apply Hout. revert H.
    apply (foldM_preserve (fun b => a ∈ b)); [|done].
    intros b x b' Hb Hcc. by eapply check_change_grows.
Qed.

Lemma elem_of_setdiff1d x a b : x ∈ setdiff1d a b -> x ∈ a /\ x ∉ b.
Proof.
  unfold setdiff1d. rewrite merge_sort_Permutation, elem_of_remove_dups.
  intros H. apply list_elem_of_In, List.filter_In in H as [Hin Hb].
  split; [by apply list_elem_of_In|]. intros Hc.
  by rewrite bool_decide_eq_true_2 in Hb.
Qed.

(** X12: whatever arguments [_set_config] is given, the four settings
    it stores for the track generator are in range: one or two lanes, one
    or two tracks, a number of lane changes that is not negative and a
    single-lane limit above 10.  An argument in range is stored as given
    and one out of range is replaced by the default (1, 1, 0 and 50), so
    configuring again with the stored values changes nothing. *)
Theorem set_config_sanitises nt nl nlc msl :
  let c := _set_config nt nl nlc msl in
  (num_lanes c = 1 \/ num_lanes c = 2) /\
  (num_tracks c = 1 \/ num_tracks c = 2) /\
  0 <= num_lanes_changes c /\ 10 < max_single_lane c /\
  num_lanes c = (if decide (nl = 1 \/ nl = 2) then nl else 1) /\
  num_tracks c = (if decide (nt = 1 \/ nt = 2) then nt else 1) /\
  num_lanes_changes c = (if decide (0 <= nlc) then nlc else 0) /\
  max_single_lane c = (if decide (10 < msl) then msl else 50) /\
  _set_config (num_tracks c) (num_lanes c) (num_lanes_changes c)
              (max_single_lane c) = c.
Proof.
  unfold _set_config. cbn [num_lanes num_tracks num_lanes_changes max_single_lane].
  destruct (Z.eqb_spec nl 1), (Z.eqb_spec nl 2),
           (Z.ltb_spec 0 nt), (Z.leb_spec nt 2),
           (Z.leb_spec 0 nlc), (Z.ltb_spec 10 msl);
    cbn [orb andb]; subst;
    (split; [lia|]); (split; [lia|]); (split; [lia|]); (split; [lia|]);
    (split; [by case_decide; lia|]); (split; [by case_decide; lia|]);
    (split; [by case_decide; lia|]); (split; [by case_decide; lia|]);
    f_equal;
    repeat match goal with
           | |- context [?a =? ?b] => destruct (Z.eqb_spec a b); try lia
           | |- context [?a <? ?b] => destruct (Z.ltb_spec a b); try lia
           | |- context [?a <=? ?b] => destruct (Z.leb_spec a b); try lia
           end;
    reflexivity.
Qed.

Lemma set_lanes_changes_kept c info seeded picks :
  _set_lanes c info seeded picks
  = if (0 <? num_lanes_changes c) && (1 <? num_lanes c) then
      changes ← changes_kept info seeded;
      s ← foldM (lane_body c changes picks)
                (zrange (Z.of_nat (length info))) (Walk 0 0 0 O info);
      override c (table s)
    else Some info.
Proof.
  unfold _set_lanes, changes_kept. destruct (_ && _); [|done].
  by destruct (foldM (check_change info _) _ []).
Qed.

(** X13: [_set_lanes] writes lane masks and nothing else.  When it
    returns, the table has the same number of tiles, and every tile has
    the track number, the end and start flags, the intersection group and
    the number of lane slots it had before. *)
Theorem set_lanes_only_writes_lanes c info seeded picks info' :
  _set_lanes c info seeded picks = Some info' ->
  frame <$> info' = frame <$> info.
Proof.
  rewrite set_lanes_changes_kept. destruct (_ && _); [|by intros; simplify_eq].
  intros H.
  destruct (changes_kept info seeded) as [changes|];
    cbn [mbind option_bind] in H; [|done].
  destruct (foldM _ _ _) as [s|] eqn:Hloop; cbn [mbind option_bind] in H;
    [|done].
  apply override_frame in H. rewrite H. revert Hloop.
  apply (foldM_preserve (fun s => frame <$> table s = frame <$> info)); [|done].
  intros b i b' Hb Hl. apply lane_body_frame in Hl. congruence.
Qed.

Lemma set_lanes_only_writes_lanes_witness :
  exists info',
    _set_lanes two_lanes_one_change ring100 [90] (fun _ => false) = Some info' /\
    frame <$> info' = frame <$> ring100.
Proof.
  eexists. split; [vm_compute; reflexivity|].
  apply (set_lanes_only_writes_lanes two_lanes_one_change ring100 [90]
           (fun _ => false)).
  vm_compute; reflexivity.
Defined.

(** X14: what the final override of [_set_lanes] does restore.  When
    lanes are assigned at all and [_set_lanes] returns, then on every
    sub-track below [num_tracks] and for every lane below [num_lanes], the
    first ten tiles (index 0 to 9) and the last nine tiles (index -1 to
    -9) of the sub-track exist and have that lane enabled. *)
Theorem set_lanes_restores_track_ends c info seeded picks info' nt lane i :
  (0 <? num_lanes_changes c) && (1 <? num_lanes c) = true ->
  _set_lanes c info seeded picks = Some info' ->
  0 <= nt < num_tracks c -> 0 <= lane < num_lanes c -> -9 <= i <= 9 ->
  exists p ti, py_index (positions info' nt) i = Some p /\
               py_index info' p = Some ti /\
               py_index (lanes ti) lane = Some true.
Proof.
  intros Hguard H Hnt Hl Hi. rewrite set_lanes_changes_kept, Hguard in H.
  destruct (changes_kept info seeded) as [changes|];
    cbn [mbind option_bind] in H; [|done].
  destruct (foldM _ _ _) as [s|]; cbn [mbind option_bind] in H; [|done].
  by apply (override_restores c (table s) info' nt lane H Hnt Hl i Hi).
Qed.

Lemma set_lanes_restores_track_ends_witness :
  exists info',
    _set_lanes two_lanes_one_change ring100 [90] (fun _ => false) = Some info' /\
    exists p ti, py_index (positions info' 0) (-9) = Some p /\
                 py_index info' p = Some ti /\
                 py_index (lanes ti) 0 = Some true.
Proof.
  eexists. split; [vm_compute; reflexivity|].
  apply (set_lanes_restores_track_ends two_lanes_one_change ring100 [90]
           (fun _ => false) _ 0 0 (-9));
    try (vm_compute; reflexivity);
    vm_compute; split; first [discriminate|reflexivity].
Defined.

(** X15: a lane-change point that the filter of [_set_lanes] keeps is
    far from the ends of its sub-track.  [changes_kept] is the list of
    change points that the main loop of [_set_lanes] reads; for every
    point [idx] in it, none of the 51 tiles from [idx] on (wrapping at the
    end of the sub-track) is an end tile and none of the 51 tiles from
    [idx] back is a start tile. *)
Theorem kept_changes_far_from_ends info seeded changes idx :
  changes_kept info seeded = Some changes -> idx ∈ changes ->
  far_from_ends info idx.
Proof.
  unfold changes_kept. intros H Hin.
  destruct (foldM _ _ _) as [bad|] eqn:Hloop; cbn [mbind option_bind] in H;
    [|done].
  injection H as <-.
  destruct (Z.ltb_spec 0 (Z.of_nat (length bad))) as [Hbad|Hbad].
  - apply elem_of_setdiff1d in Hin as [Hin Hout].
    by eapply filter_loop_kept.
  - eapply filter_loop_kept; [done|done|].
    destruct bad; [|simpl in Hbad; lia]. intros Hc. by apply elem_of_nil in Hc.
Qed.

Lemma kept_changes_far_from_ends_witness :
  changes_kept ring100 [60] = Some [60] /\ 60 ∈ [60] /\ far_from_ends ring100 60.
Proof.
  split; [vm_compute; reflexivity|]. split; [left|].
  apply (kept_changes_far_from_ends ring100 [60] [60] 60);
    [vm_compute; reflexivity|left].
Defined.

End LaneFacts.

(** ** The heading and the destination of the cursor *)

Module Steering.

Import Synth.

Local Open Scope Q_scope.

Lemma beta_down_post fuel : forall b alpha b1,
  beta_down fuel b alpha = Some b1 ->
  b1 - alpha <= (3 # 2) * pi /\
  exists k : Z, (0 <= k)%Z /\ b1 == b - inject_Z k * (2 * pi).
Proof.
  induction fuel as [|fuel IH]; intros b alpha b1 H; [done|].
  cbn [beta_down] in H. destruct (gt _ _) eqn:Hgt.
  - apply IH in H as (Hle & k & Hk & Heq). split; [done|].
    exists (k + 1)%Z. split; [lia|]. rewrite Heq, inject_Z_plus.
    change (inject_Z 1) with 1. ring.
  - simplify_eq. split; [by apply gt_false|]. exists 0%Z. split; [done|].
    change (inject_Z 0) with 0. ring.
Qed.

Lemma beta_up_post fuel : forall b alpha b2,
  beta_up fuel b alpha = Some b2 ->
  - ((3 # 2) * pi) <= b2 - alpha /\
  (b - alpha <= (3 # 2) * pi -> b2 - alpha <= (3 # 2) * pi) /\
  exists k : Z, (0 <= k)%Z /\ b2 == b + inject_Z k * (2 * pi).
Proof.
  induction fuel as [|fuel IH]; intros b alpha b2 H; [done|].
  cbn [beta_up] in H. destruct (lt _ _) eqn:Hlt.
  - apply lt_true in Hlt. apply IH in H as (Hge & Hle & k & Hk & Heq).
    split; [done|]. split.
    + intros _. apply Hle. pose proof pi_bounds. lra.
    + exists (k + 1)%Z. split; [lia|]. rewrite Heq, inject_Z_plus.
      change (inject_Z 1) with 1. ring.
  - simplify_eq. split; [|split; [done|]].
    + unfold lt in Hlt. apply negb_false_iff, Qle_bool_iff in Hlt. done.
    + exists 0%Z. split; [done|]. change (inject_Z 0) with 0. ring.
Qed.

Lemma div12_succ d :
  ((d + 1) / 12 = if (d + 1) mod 12 =? 0 then d / 12 + 1 else d / 12)%Z.
Proof.
  destruct (Z.eqb_spec ((d + 1) mod 12) 0); Z.div_mod_to_equations; lia.
Qed.

Section steering.

Variables (cos sin : Q -> Q) (uniform_alpha uniform_rad : nat -> Q).

(** X18: the destination search returns a checkpoint that is not behind
    the cursor.  When it returns angle [alpha'], index [d'] and checkpoint
    [dest]: [dest] is the checkpoint of index [d' mod 12], its angle is at
    least [alpha'], the index did not go back, and [alpha'] is the
    cursor's polar angle less one full turn for every multiple of 12 that
    the index passed. *)
Theorem find_dest_ahead fuel : forall alpha d alpha' d' dest,
  find_dest cos sin uniform_alpha uniform_rad fuel alpha d
    = Some (alpha', d', dest) ->
  alpha' <= fst (fst dest) /\
  dest = nth (Z.to_nat (d' mod 12))
             (checkpoints cos sin uniform_alpha uniform_rad) (0, 0, 0) /\
  (d <= d')%Z /\
  alpha' == alpha - inject_Z (d' / 12 - d / 12) * (2 * pi).
Proof.
  induction fuel as [|fuel IH]; intros alpha d alpha' d' dest H; [done|].
  cbn [find_dest] in H. destruct (Qle_bool alpha _) eqn:Hle.
  - simplify_eq. split; [by apply Qle_bool_iff|]. split; [done|].
    split; [lia|]. rewrite Z.sub_diag. change (inject_Z 0) with 0. ring.
  - pose proof (div12_succ d) as Hdiv.
    destruct (Z.eqb_spec ((d + 1) mod 12) 0) as [Hw|Hw];
      apply IH in H as (Ha & Hd & Hmono & Heq);
      (split; [done|]); (split; [done|]); (split; [lia|]); rewrite Heq, Hdiv.
    + replace (d' / 12 - d / 12)%Z with ((d' / 12 - (d / 12 + 1)) + 1)%Z by lia.
      rewrite (inject_Z_plus _ 1). change (inject_Z 1) with 1. ring.
    + reflexivity.
Qed.

End steering.

(** X19: the two loops that normalise the heading leave it within one
    and a half [pi] of the polar angle [alpha], and change it by a whole
    number of turns only. *)
Theorem heading_normalised fuel b alpha b1 b2 :
  beta_down fuel b alpha = Some b1 -> beta_up fuel b1 alpha = Some b2 ->
  - ((3 # 2) * pi) <= b2 - alpha /\ b2 - alpha <= (3 # 2) * pi /\
  exists k : Z, b2 == b + inject_Z k * (2 * pi).
Proof.
  intros Hd Hu. apply beta_down_post in Hd as (Hle & k1 & _ & H1).
  apply beta_up_post in Hu as (Hge & Hkeep & k2 & _ & H2).
  split; [done|]. split; [by apply Hkeep|].
  exists (k2 - k1)%Z. rewrite H2, H1. unfold Z.sub.
  rewrite inject_Z_plus, inject_Z_opp. ring.
Qed.

Lemma heading_normalised_witness :
  exists b1 b2,
    beta_down 5 10 0 = Some b1 /\ beta_up 5 b1 0 = Some b2 /\
    - ((3 # 2) * pi) <= b2 - 0 /\ b2 - 0 <= (3 # 2) * pi /\
    exists k : Z, b2 == 10 + inject_Z k * (2 * pi).
Proof.
  eexists _, _. split; [vm_compute; reflexivity|].
  split; [vm_compute; reflexivity|].
  eapply (heading_normalised 5 10 0); vm_compute; reflexivity.
Defined.

Lemma find_dest_ahead_witness :
  exists alpha' d' dest,
    find_dest (fun _ => 1) (fun _ => 0) (fun _ => 1 # 10) (fun _ => 100)
              40 7 3 = Some (alpha', d', dest) /\
    alpha' <= fst (fst dest) /\
    dest = nth (Z.to_nat (d' mod 12))
               (checkpoints (fun _ => 1) (fun _ => 0) (fun _ => 1 # 10)
                            (fun _ => 100)) (0, 0, 0) /\
    (3 <= d')%Z /\
    alpha' == 7 - inject_Z (d' / 12 - 3 / 12) * (2 * pi).
Proof.
  eexists _, _, _. split; [vm_compute; reflexivity|].
  apply (find_dest_ahead (fun _ => 1) (fun _ => 0) (fun _ => 1 # 10)
           (fun _ => 100) 40 7 3).
  vm_compute; reflexivity.
Defined.

End Steering.

(** ** Closing the loop: the end of [_get_track] *)

Module Closure.

Import Synth Reset.

Local Open Scope Q_scope.

(** A point of the cursor's track: [(alpha, beta, x, y)]. *)
Definition track_point : Type := (Q * Q * Q * Q)%type.

Definition alpha_of (p : track_point) : Q := fst (fst (fst p)).
Definition beta_of (p : track_point) : Q := snd (fst (fst p)).
Definition x_of (p : track_point) : Q := snd (fst p).
Definition y_of (p : track_point) : Q := snd p.

(** [self.start_alpha = 2*math.pi*(-0.5)/CHECKPOINTS] *)
Definition start_alpha : Q := 2 * pi * (- (1 # 2)) / 12.

(** [track[i][0] > self.start_alpha and track[i-1][0] <= self.start_alpha] *)
Definition pass_through_start (a b : track_point) : bool :=
  gt (alpha_of a) start_alpha && Qle_bool (alpha_of b) start_alpha.

(** The backward scan of lines 536-546.  The argument [i] is the value of
    the loop variable before [i -= 1]; [i1] is -1 as long as the loop
    runs.  The result is [None] for [return False] and the pair [(i1, i2)]
    after [break]. *)
Fixpoint scan (track : list track_point) (i : nat) (i2 : Z)
  : result (option (nat * Z)) :=
  match i with
  | O =>
      (* [i] becomes -1: the track is empty and [track[-1]] raises *)
      Raise IndexError
  | S i' =>
      if Nat.eqb i' 0 then Return None
      else
        match py_index track (Z.of_nat i'), py_index track (Z.of_nat i' - 1) with
        | Some a, Some b =>
            if pass_through_start a b && (i2 =? -1)%Z
            then scan track i' (Z.of_nat i')
            else if pass_through_start a b then Return (Some (i', i2))
            else scan track i' i2
        | _, _ => Raise IndexError
        end
  end.

(** [[[track[i-1], track[i]] for i in range(len(track))]] *)
Definition segments {A : Type} (track : list A) : option (list (A * A)) :=
  mapM (fun i => a ← py_index track (i - 1); b ← py_index track i; Some (a, b))
       (zrange (Z.of_nat (length track))).

(** Lines 535-564: scan, [track = track[i1:i2-1]], the test that head
    and tail are glued, and the pairing.  The source compares the square
    root of a sum of squares with [TRACK_DETAIL_STEP]; the model compares
    the sum of squares with the square of [TRACK_DETAIL_STEP]. *)
Definition close_track (cos sin : Q -> Q) (track : list track_point)
  : result (option (list (track_point * track_point))) :=
  match scan track (length track) (-1) with
  | Raise e => Raise e
  | Return None => Return None
  | Return (Some (i1, i2)) =>
      let track := take (Z.to_nat (i2 - 1) - i1) (drop i1 track) in
      match py_index track 0, py_index track (-1) with
      | Some first, Some final =>
          let first_perp_x := cos (beta_of first) in
          let first_perp_y := sin (beta_of first) in
          let dx := first_perp_x * (x_of first - x_of final) in
          let dy := first_perp_y * (y_of first - y_of final) in
          if gt (dx * dx + dy * dy) (TRACK_DETAIL_STEP * TRACK_DETAIL_STEP)
          then Return None
          else
            match segments track with
            | Some segs => Return (Some segs)
            | None => Raise IndexError
            end
      | _, _ => Raise IndexError
      end
  end.

(** The cursor passes the start angle between point [j - 1] and point [j]. *)
Definition crossing (track : list track_point) (j : nat) : Prop :=
  (1 <= j)%nat /\
  exists a b, track !! j = Some a /\ track !! (j - 1)%nat = Some b /\
              pass_through_start a b = true.

(** *** The scan *)

Lemma scan_index (track : list track_point) i' :
  (1 <= i')%nat -> (i' < length track)%nat ->
  exists a b, track !! i' = Some a /\ track !! (i' - 1)%nat = Some b /\
    py_index track (Z.of_nat i') = Some a /\
    py_index track (Z.of_nat i' - 1) = Some b.
Proof.
  intros H1 Hlt.
  destruct (lookup_lt_is_Some_2 track i' Hlt) as [a Ha].
  destruct (lookup_lt_is_Some_2 track (i' - 1)%nat ltac:(lia)) as [b Hb].
  exists a, b. split; [done|]. split; [done|].
  rewrite py_index_nat. split; [done|].
  replace (Z.of_nat i' - 1)%Z with (Z.of_nat (i' - 1)) by lia.
  by rewrite py_index_nat.
Qed.

Lemma not_crossing track j a b :
  track !! j = Some a -> track !! (j - 1)%nat = Some b ->
  pass_through_start a b = false -> ~ crossing track j.
Proof.
  intros Ha Hb Hp (_ & a' & b' & Ha' & Hb' & Hp'). simplify_eq. congruence.
Qed.

(** With [i2] found already: the scan stops at the next crossing below. *)
Lemma scan_second track i2 : forall i r,
  (i <= length track)%nat -> (1 <= i)%nat ->
  scan track i (Z.of_nat i2) = r -> (1 <= i2)%nat ->
  match r with
  | Raise _ => False
  | Return None => forall j, (j < i)%nat -> ~ crossing track j
  | Return (Some (i1, z)) =>
      z = Z.of_nat i2 /\ (i1 < i)%nat /\ crossing track i1 /\
      forall j, (i1 < j < i)%nat -> ~ crossing track j
  end.
Proof.
  induction i as [|i' IH]; intros r Hi Hlen H Hi2.
  - lia.
  - cbn [scan] in H. destruct (Nat.eqb_spec i' 0) as [->|Hne].
    + subst r. intros j Hj (Hj1 & _). lia.
    + destruct (scan_index track i') as (a & b & Ha & Hb & -> & ->) in H;
        [lia..|].
      destruct (Z.eqb_spec (Z.of_nat i2) (-1)) as [?|_]; [lia|].
      rewrite andb_false_r in H.
      destruct (pass_through_start a b) eqn:Hp.
      * subst r. split; [done|]. split; [lia|]. split.
        -- split; [lia|]. by exists a, b.
        -- intros j Hj. lia.
      * specialize (IH r ltac:(lia) ltac:(lia) H Hi2).
        destruct r as [[[i1 z]|]|e]; [| |done].
        -- destruct IH as (? & ? & ? & Hnone).
           split; [done|]. split; [lia|]. split; [done|].
           intros j Hj. destruct (decide (j = i')) as [->|?];
             [by eapply not_crossing|apply Hnone; lia].
        -- intros j Hj. destruct (decide (j = i')) as [->|?];
             [by eapply not_crossing|apply IH; lia].
Qed.

Lemma scan_first track : forall i r,
  (i <= length track)%nat -> (1 <= i)%nat ->
  scan track i (-1) = r ->
  match r with
  | Raise _ => False
  | Return None =>
      forall j k, (j < i)%nat -> (k < i)%nat ->
                  crossing track j -> crossing track k -> j = k
  | Return (Some (i1, z)) =>
      exists i2, z = Z.of_nat i2 /\ (i1 < i2 < i)%nat /\
        crossing track i1 /\ crossing track i2 /\
        forall j, (i1 < j < i)%nat -> j <> i2 -> ~ crossing track j
  end.
Proof.
  induction i as [|i' IH]; intros r Hi Hlen H.
  - lia.
  - cbn [scan] in H. destruct (Nat.eqb_spec i' 0) as [->|Hne].
    + subst r. intros j k Hj Hk. lia.
    + destruct (scan_index track i') as (a & b & Ha & Hb & -> & ->) in H;
        [lia..|].
      change (-1 =? -1)%Z with true in H. rewrite andb_true_r in H.
      destruct (pass_through_start a b) eqn:Hp.
      * pose proof (scan_second track i' i' r ltac:(lia) ltac:(lia) H ltac:(lia)) as Hs.
        destruct r as [[[i1 z]|]|e]; [| |done].
        -- destruct Hs as (-> & ? & ? & Hnone). exists i'.
           split; [done|]. split; [lia|]. split; [done|]. split.
           { split; [lia|]. by exists a, b. }
           intros j Hj Hne'. apply Hnone. lia.
        -- intros j k Hj Hk Hcj Hck.
           destruct (decide (j = i')) as [->|?], (decide (k = i')) as [->|?];
             [done| | |].
           ++ exfalso. apply (Hs k); [lia|done].
           ++ exfalso. apply (Hs j); [lia|done].
           ++ exfalso. apply (Hs j); [lia|done].
      * specialize (IH r ltac:(lia) ltac:(lia) H).
        destruct r as [[[i1 z]|]|e]; [| |done].
        -- destruct IH as (i2 & -> & ? & ? & ? & Hnone). exists i2.
           split; [done|]. split; [lia|]. split; [done|]. split; [done|].
           intros j Hj Hne'. destruct (decide (j = i')) as [->|?];
             [by eapply not_crossing|apply Hnone; [lia|done]].
        -- intros j k Hj Hk Hcj Hck.
           destruct (decide (j = i')) as [->|?];
             [exfalso; by eapply (not_crossing track i')|].
           destruct (decide (k = i')) as [->|?];
             [exfalso; by eapply (not_crossing track i')|].
           apply IH; [lia|lia|done|done].
Qed.

(** Two crossings are never next to each other. *)
Lemma crossings_apart track i1 i2 :
  crossing track i1 -> crossing track i2 -> (i1 < i2)%nat -> (i1 + 2 <= i2)%nat.
Proof.
  intros (_ & a1 & b1 & Ha1 & _ & Hp1) (_ & a2 & b2 & _ & Hb2 & Hp2) Hlt.
  destruct (decide (i2 = S i1)) as [->|?]; [|lia]. exfalso.
  replace (S i1 - 1)%nat with i1 in Hb2 by lia. simplify_eq.
  unfold pass_through_start in *.
  apply andb_true_iff in Hp1 as [Hg _]. apply andb_true_iff in Hp2 as [_ Hl].
  unfold gt in Hg. rewrite Hl in Hg. done.
Qed.

(** *** The pairing *)

Lemma zrange_lookup n k :
  (k < n)%nat -> zrange (Z.of_nat n) !! k = Some (Z.of_nat k).
Proof.
  intros Hk. unfold zrange. rewrite Nat2Z.id, list_lookup_fmap.
  by rewrite lookup_seq_lt.
Qed.

Lemma py_index_minus_one {A : Type} (l : list A) :
  (0 < length l)%nat -> py_index l (-1) = l !! (length l - 1)%nat.
Proof.
  intros Hl. unfold py_index. simpl.
  destruct (Z.leb_spec (- Z.of_nat (length l)) (-1)); [|lia]. f_equal. lia.
Qed.

Lemma segment_at {A : Type} (track : list A) k b :
  track !! k = Some b ->
  exists a, py_index track (Z.of_nat k - 1) = Some a /\
            py_index track (Z.of_nat k) = Some b /\
            (a ← py_index track (Z.of_nat k - 1);
             b ← py_index track (Z.of_nat k); Some (a, b)) = Some (a, b).
Proof.
  intros Hb. pose proof (lookup_lt_Some _ _ _ Hb) as Hlt.
  assert (is_Some (py_index track (Z.of_nat k - 1))) as [a Ha].
  { destruct k as [|k].
    - change (Z.of_nat 0 - 1)%Z with (-1)%Z.
      rewrite py_index_minus_one by lia. apply lookup_lt_is_Some_2. lia.
    - replace (Z.of_nat (S k) - 1)%Z with (Z.of_nat k) by lia.
      rewrite py_index_nat. apply lookup_lt_is_Some_2. lia. }
  exists a. rewrite Ha, py_index_nat, Hb. done.
Qed.

Lemma segments_spec {A : Type} (track : list A) :
  exists segs, segments track = Some segs /\
    Forall2 (fun i ab => py_index track (i - 1) = Some (fst ab) /\
                         py_index track i = Some (snd ab))
            (zrange (Z.of_nat (length track))) segs.
Proof.
  unfold segments.
  destruct (mapM _ _) as [segs|] eqn:Hm.
  - exists segs. split; [done|]. apply mapM_Some in Hm.
    eapply Forall2_impl; [done|]. intros i [a b] H. simpl in H.
    destruct (py_index track (i - 1)); simpl in H; [|done].
    destruct (py_index track i); simpl in H; [|done]. by simplify_eq.
  - exfalso. apply eq_None_not_Some in Hm. apply Hm, mapM_is_Some.
    apply Forall_forall. intros i Hi.
    apply elem_of_zrange in Hi.
    destruct (lookup_lt_is_Some_2 track (Z.to_nat i) ltac:(lia)) as [b Hb].
    destruct (segment_at track _ _ Hb) as (a & _ & _ & Hs).
    rewrite Z2Nat.id in Hs by lia. simpl. by rewrite Hs.
Qed.

Lemma scan_spec track :
  track <> [] ->
  match scan track (length track) (-1) with
  | Raise _ => False
  | Return None => forall j k, crossing track j -> crossing track k -> j = k
  | Return (Some (i1, z)) =>
      exists i2, z = Z.of_nat i2 /\
        (i1 + 2 <= i2)%nat /\ (i2 < length track)%nat /\
        crossing track i1 /\ crossing track i2 /\
        forall j, (i1 < j)%nat -> j <> i2 -> ~ crossing track j
  end.
Proof.
  intros Hne.
  assert (1 <= length track)%nat as Hlen by (destruct track; [done|simpl; lia]).
  assert (forall j, crossing track j -> (j < length track)%nat) as Hin.
  { intros j (_ & a & _ & Ha & _). by eapply lookup_lt_Some. }
  pose proof (scan_first track (length track) _ (le_n _) Hlen eq_refl) as H.
  destruct (scan track (length track) (-1)) as [[[i1 z]|]|e]; [| |done].
  - destruct H as (i2 & -> & Hlt & H1 & H2 & Hnone). exists i2.
    split; [done|]. split; [apply (crossings_apart track); [done|done|lia]|].
    split; [lia|]. split; [done|]. split; [done|].
    intros j Hj Hne' Hc. apply (Hnone j); [|done|done].
    specialize (Hin j Hc). lia.
  - intros j k Hj Hk. apply H; auto.
Qed.

(** X20: the backward scan for the closed loop.  On a track with at
    least one point it never raises.  When it returns a pair, [i2] is the
    last place where the cursor's angle passes the start angle upwards and
    [i1] is the last such place before it; they are at least two points
    apart.  It gives up ([False]) only when the track has fewer than two
    such places. *)
Theorem scan_finds_last_two_crossings track :
  track <> [] ->
  match scan track (length track) (-1) with
  | Raise _ => False
  | Return None => forall j k, crossing track j -> crossing track k -> j = k
  | Return (Some (i1, z)) =>
      exists i2, z = Z.of_nat i2 /\
        (i1 + 2 <= i2)%nat /\ (i2 < length track)%nat /\
        crossing track i1 /\ crossing track i2 /\
        forall j, (i1 < j)%nat -> j <> i2 -> ~ crossing track j
  end.
Proof. apply scan_spec. Qed.

Lemma segments_chain {A : Type} (track : list A) :
  exists segs, segments track = Some segs /\
    length segs = length track /\
    forall k a b, segs !! k = Some (a, b) ->
      track !! k = Some b /\
      exists c, segs !! ((k + 1) mod length track)%nat = Some (b, c).
Proof.
  destruct (segments_spec track) as (segs & Hs & Hall).
  exists segs. split; [done|].
  pose proof (Forall2_length _ _ _ Hall) as Hlen.
  unfold zrange in Hlen. rewrite length_fmap, length_seq, Nat2Z.id in Hlen.
  split; [done|]. intros k a b Hk.
  pose proof (lookup_lt_Some _ _ _ Hk) as Hlt. rewrite <- Hlen in Hlt.
  destruct (Forall2_lookup_r _ _ _ _ _ Hall Hk) as (i & Hi & _ & Hb).
  rewrite zrange_lookup in Hi by done. simplify_eq. simpl in Hb.
  rewrite py_index_nat in Hb. split; [done|].
  assert ((k + 1) mod length track < length track)%nat as Hnext
    by (apply Nat.mod_upper_bound; lia).
  destruct (Forall2_lookup_l _ _ _ ((k + 1) mod length track)%nat _ Hall
              (zrange_lookup _ _ Hnext)) as ([a' c] & Hseg & Ha' & _).
  exists c. rewrite Hseg. f_equal. f_equal. simpl in Ha'.
  assert (py_index track (Z.of_nat ((k + 1) mod length track) - 1) = Some b)
    as Heq; [|congruence].
  destruct (decide (k + 1 = length track)%nat) as [Hlast|Hmid].
  - rewrite Hlast, Nat.Div0.mod_same. change (Z.of_nat 0 - 1)%Z with (-1)%Z.
    rewrite py_index_minus_one by lia. rewrite <- Hb. f_equal. lia.
  - rewrite Nat.mod_small by lia.
    replace (Z.of_nat (k + 1) - 1)%Z with (Z.of_nat k) by lia.
    by rewrite py_index_nat.
Qed.


Lemma segments_lookup {A : Type} (track : list A) segs k :
  segments track = Some segs -> (k < length track)%nat ->
  exists a b, segs !! k = Some (a, b) /\ track !! k = Some b /\
    track !! ((k + length track - 1) mod length track)%nat = Some a.
Proof.
  intros Hs Hk. destruct (segments_spec track) as (segs' & Hs' & Hall).
  rewrite Hs in Hs'. simplify_eq.
  destruct (Forall2_lookup_l _ _ _ k _ Hall (zrange_lookup _ _ Hk))
    as ([a b] & Hseg & Ha & Hb).
  simpl in Ha, Hb. exists a, b. split; [done|]. rewrite py_index_nat in Hb.
  split; [done|]. rewrite <- Ha. destruct k as [|k].
  - change (Z.of_nat 0 - 1)%Z with (-1)%Z.
    rewrite py_index_minus_one by lia. f_equal.
    replace (0 + length track - 1)%nat with (length track - 1)%nat by lia.
    by rewrite Nat.mod_small by lia.
  - replace (Z.of_nat (S k) - 1)%Z with (Z.of_nat k) by lia.
    rewrite py_index_nat. f_equal.
    replace (S k + length track - 1)%nat with (k + 1 * length track)%nat by lia.
    by rewrite Nat.Div0.mod_add, Nat.mod_small by lia.
Qed.

(** X21: the pairing at the end of [_get_track] makes a closed chain.
    For every list of points it returns one segment per point; segment [k]
    ends at point [k], and the segment after it, the first one after the
    last, starts at that same point. *)
Theorem segments_closed_chain {A : Type} (track : list A) :
  exists segs, segments track = Some segs /\
    length segs = length track /\
    forall k a b, segs !! k = Some (a, b) ->
      track !! k = Some b /\
      exists c, segs !! ((k + 1) mod length track)%nat = Some (b, c).
Proof. apply segments_chain. Qed.

(** X22: what [_get_track] returns when it returns a track.  The
    segments end at the points of the cursor's track from the crossing
    [i1] up to two points before the crossing [i2], where [i2] is the last
    upward passage of the start angle and [i1] the last one before it; the
    track returned is never empty. *)
Theorem close_track_loop cos sin track segs :
  close_track cos sin track = Return (Some segs) ->
  exists i1 i2,
    crossing track i1 /\ crossing track i2 /\ (i1 + 2 <= i2)%nat /\
    (forall j, (i1 < j)%nat -> j <> i2 -> ~ crossing track j) /\
    length segs = (i2 - 1 - i1)%nat /\ segs <> [] /\
    forall k a b, segs !! k = Some (a, b) -> track !! (i1 + k)%nat = Some b.
Proof.
  unfold close_track. intros H.
  destruct track as [|p0 track0] eqn:Htrack; [done|]. rewrite <- Htrack in *.
  assert (track <> []) as Hne by (by rewrite Htrack).
  pose proof (scan_spec track Hne) as Hscan.
  destruct (scan track (length track) (-1)) as [[[i1 z]|]|e]; [|done|done].
  destruct Hscan as (i2 & -> & Hap & Hlt & H1 & H2 & Hnone).
  exists i1, i2. split; [done|]. split; [done|]. split; [done|].
  split; [done|].
  replace (Z.to_nat (Z.of_nat i2 - 1) - i1)%nat with (i2 - 1 - i1)%nat in H
    by lia.
  set (pts := take (i2 - 1 - i1) (drop i1 track)) in *.
  destruct (py_index pts 0); [|done]. destruct (py_index pts (-1)); [|done].
  destruct (gt _ _); [done|].
  destruct (segments_chain pts) as (segs' & Hs & Hlen & Hchain).
  rewrite Hs in H. simplify_eq.
  assert (length pts = (i2 - 1 - i1)%nat) as Hpts.
  { unfold pts. rewrite length_take, length_drop. lia. }
  split; [lia|]. split.
  - intros ->. simpl in Hlen. lia.
  - intros k a b Hk. apply Hchain in Hk as [Hk _]. unfold pts in Hk.
    apply lookup_take_Some in Hk as [Hk _]. by rewrite lookup_drop in Hk.
Qed.

(** A cursor track of seven points whose angle passes the start angle
    upwards at points 2 and 5. *)
Definition seven_points : list track_point :=
  map (fun k : nat =>
         ((if Nat.eqb k 1 || Nat.eqb k 4 then - 1 else 0),
          0, inject_Z (Z.of_nat k), 0))
      (seq 0 7).

Lemma scan_finds_last_two_crossings_witness :
  seven_points <> [] /\
  scan seven_points (length seven_points) (-1) = Return (Some (2%nat, 5%Z)) /\
  exists i2, 5%Z = Z.of_nat i2 /\
    (2 + 2 <= i2)%nat /\ (i2 < length seven_points)%nat /\
    crossing seven_points 2 /\ crossing seven_points i2 /\
    forall j, (2 < j)%nat -> j <> i2 -> ~ crossing seven_points j.
Proof.
  split; [discriminate|]. split; [vm_compute; reflexivity|].
  exact (scan_finds_last_two_crossings seven_points ltac:(discriminate)).
Defined.

Lemma close_track_loop_witness :
  exists segs,
    close_track (fun _ => 0) (fun _ => 0) seven_points = Return (Some segs) /\
    exists i1 i2,
      crossing seven_points i1 /\ crossing seven_points i2 /\
      (i1 + 2 <= i2)%nat /\
      (forall j, (i1 < j)%nat -> j <> i2 -> ~ crossing seven_points j) /\
      length segs = (i2 - 1 - i1)%nat /\ segs <> [] /\
      forall k a b, segs !! k = Some (a, b) ->
                    seven_points !! (i1 + k)%nat = Some b.
Proof.
  eexists. split; [vm_compute; reflexivity|].
  apply (close_track_loop (fun _ => 0) (fun _ => 0) seven_points).
  vm_compute; reflexivity.
Defined.

End Closure.

(** ** Start and end tiles: the first loop of [_create_info] *)

Module Marks.

(** The table as lines 606-625 leave it: zeros, [intersection_id = -1]
    and both lanes enabled. *)
Definition blank : tile_info := TileInfo 0 false false (-1) [true; true].

Definition with_track (i : Z) (ti : tile_info) : tile_info :=
  TileInfo i (end_ ti) (start ti) (intersection_id ti) (lanes ti).
Definition with_end (ti : tile_info) : tile_info :=
  TileInfo (track ti) true (start ti) (intersection_id ti) (lanes ti).
Definition with_start (ti : tile_info) : tile_info :=
  TileInfo (track ti) (end_ ti) true (intersection_id ti) (lanes ti).

(** [info[a:b]['track'] = i] for bounds that are not negative: numpy
    clips the slice to the array. *)
Definition set_track (a b i : Z) (info : list tile_info) : list tile_info :=
  imap (fun k ti => if (a <=? Z.of_nat k) && (Z.of_nat k <? b)
                    then with_track i ti else ti) info.

(** [info[pos][field] = True] *)
Definition mark (f : tile_info -> tile_info) (info : list tile_info) (pos : Z)
  : option (list tile_info) :=
  ti ← py_index info pos; py_set info pos (f ti).

(** [np.delete(track2, list(removed_idx), axis=0)], line 1288 of
    [_remove_roads]: the rows whose index is not in [removed_idx].  The
    indices come from [np.where]: they are in range and not negative. *)
Definition np_delete {A : Type} (l : list A) (removed_idx : list Z) : list A :=
  omap (fun p : nat * A =>
          if bool_decide (Z.of_nat (fst p) ∈ removed_idx) then None
          else Some (snd p))
       (imap (fun i x => (i, x)) l).

Section classify.

(** A row [alpha, beta, x, y] of the track array; [np.array_equal] on
    two rows is equality (no NaN). *)
Context {P : Type} `{EqDecision P}.

(** Body of [for j in range(len(track))], lines 630-640; [prev] is
    [len(self.tracks[i-1])]. *)
Definition mark_tile (prev : Z) (track : list (P * P)) (info : list tile_info)
  (j : Z) : option (list tile_info) :=
  let pos := j + prev in
  p ← py_index track j;
  next_p ← py_index track ((j + 1) mod Z.of_nat (length track));
  last_p ← py_index track (j - 1);
  if negb (bool_decide (snd p = fst next_p)) then mark with_end info pos
  else if negb (bool_decide (fst p = snd last_p)) then mark with_start info pos
  else Some info.

(** Lines 606-640 of [_create_info]. *)
Definition _create_info_marks (tracks : list (list (P * P)))
  : option (list tile_info) :=
  let info := replicate (foldr (fun t n => (length t + n)%nat) 0%nat tracks) blank in
  foldM (fun info i =>
           track ← py_index tracks i;
           before ← py_index tracks (i - 1);
           let prev := Z.of_nat (length before) in
           let info := set_track prev (prev + Z.of_nat (length track)) i info in
           foldM (mark_tile prev track) (zrange (Z.of_nat (length track))) info)
        (seqZ 1 (Z.of_nat (length tracks) - 1)) info.

(** The tile that the loop leaves for tile [j] of the second track. *)
Definition marked (track : list (P * P)) (j : nat) (ti : tile_info) : Prop :=
  exists p next_p last_p,
    track !! j = Some p /\
    track !! ((j + 1) mod length track)%nat = Some next_p /\
    track !! ((j + length track - 1) mod length track)%nat = Some last_p /\
    ti = TileInfo 1 (negb (bool_decide (snd p = fst next_p)))
                  (bool_decide (snd p = fst next_p)
                   && negb (bool_decide (fst p = snd last_p)))
                  (-1) [true; true].

(** *** The loop over the tiles of the second track *)

Lemma foldM_zrange_inv {B : Type} (Inv : nat -> B -> Prop)
  (f : B -> Z -> option B) n :
  (forall j b, (j < n)%nat -> Inv j b ->
     exists b', f b (Z.of_nat j) = Some b' /\ Inv (S j) b') ->
  forall b, Inv 0%nat b ->
    exists b', foldM f (zrange (Z.of_nat n)) b = Some b' /\ Inv n b'.
Proof.
  intros Hstep. unfold zrange. rewrite Nat2Z.id.
  assert (forall m k b, (k + m = n)%nat -> Inv k b ->
            exists b', foldM f (map Z.of_nat (seq k m)) b = Some b' /\ Inv n b')
    as Hgen.
  { induction m as [|m IH]; intros k b Hk Hb; simpl.
    - exists b. split; [done|]. by replace n with k by lia.
    - destruct (Hstep k b ltac:(lia) Hb) as (b1 & -> & Hb1). simpl.
      apply IH; [lia|done]. }
  intros b Hb. by apply Hgen.
Qed.

(** The state of the table after [j] tiles of the second track. *)
Definition after (t0 t1 : list (P * P)) (j : nat) (info : list tile_info)
  : Prop :=
  length info = (length t0 + length t1)%nat /\
  (forall k, (k < length t0)%nat -> info !! k = Some blank) /\
  (forall k, (k < j)%nat ->
     exists ti, info !! (length t0 + k)%nat = Some ti /\ marked t1 k ti) /\
  (forall k, (j <= k < length t1)%nat ->
     info !! (length t0 + k)%nat = Some (with_track 1 blank)).

Lemma set_track_after t0 t1 :
  after t0 t1 0
    (set_track (Z.of_nat (length t0))
               (Z.of_nat (length t0) + Z.of_nat (length t1)) 1
               (replicate (length t0 + (length t1 + 0)) blank)).
Proof.
  unfold after, set_track. rewrite Nat.add_0_r.
  split; [by rewrite length_imap, length_replicate|].
  split; [|split].
  - intros k Hk. rewrite list_lookup_imap, lookup_replicate_2 by lia. simpl.
    destruct (Z.leb_spec (Z.of_nat (length t0)) (Z.of_nat k)); [lia|done].
  - intros k Hk. lia.
  - intros k Hk. rewrite list_lookup_imap, lookup_replicate_2 by lia. simpl.
    destruct (Z.leb_spec (Z.of_nat (length t0)) (Z.of_nat (length t0 + k)));
      [|lia].
    destruct (Z.ltb_spec (Z.of_nat (length t0 + k))
                         (Z.of_nat (length t0) + Z.of_nat (length t1)));
      [done|lia].
Qed.

Lemma mark_at (f : tile_info -> tile_info) info (pos : nat) ti :
  info !! pos = Some ti ->
  mark f info (Z.of_nat pos) = Some (<[pos := f ti]> info).
Proof.
  intros Hpos. unfold mark. rewrite py_index_nat, Hpos. simpl.
  unfold py_set. pose proof (lookup_lt_Some _ _ _ Hpos).
  destruct (Z.leb_spec 0 (Z.of_nat pos)); [|lia].
  destruct (Z.ltb_spec (Z.of_nat pos) (Z.of_nat (length info))); [|lia].
  simpl. by rewrite Nat2Z.id.
Qed.

Lemma after_insert t0 t1 j info ti :
  after t0 t1 j info -> (j < length t1)%nat -> marked t1 j ti ->
  after t0 t1 (S j) (<[(length t0 + j)%nat := ti]> info).
Proof.
  intros (Hlen & Hmain & Hdone & Htodo) Hj Hm.
  split; [by rewrite length_insert|]. split; [|split].
  - intros k Hk. rewrite list_lookup_insert_ne by lia. by apply Hmain.
  - intros k Hk. destruct (decide (k = j)) as [->|Hne].
    + exists ti. split; [|done]. apply list_lookup_insert_eq. lia.
    + rewrite list_lookup_insert_ne by lia. apply Hdone. lia.
  - intros k Hk. rewrite list_lookup_insert_ne by lia. apply Htodo. lia.
Qed.

Lemma mark_tile_after t0 t1 j info :
  (j < length t1)%nat -> after t0 t1 j info ->
  exists info', mark_tile (Z.of_nat (length t0)) t1 info (Z.of_nat j) = Some info'
                /\ after t0 t1 (S j) info'.
Proof.
  intros Hj Hinv. pose proof Hinv as (Hlen & Hmain & Hdone & Htodo).
  destruct (lookup_lt_is_Some_2 t1 j Hj) as [p Hp].
  assert ((j + 1) mod length t1 < length t1)%nat as Hn
    by (apply Nat.mod_upper_bound; lia).
  destruct (lookup_lt_is_Some_2 t1 _ Hn) as [next_p Hnext].
  assert ((j + length t1 - 1) mod length t1 < length t1)%nat as Hl
    by (apply Nat.mod_upper_bound; lia).
  destruct (lookup_lt_is_Some_2 t1 _ Hl) as [last_p Hlast].
  assert (py_index t1 ((Z.of_nat j + 1) mod Z.of_nat (length t1)) = Some next_p)
    as Hnext'.
  { replace ((Z.of_nat j + 1) mod Z.of_nat (length t1))%Z
      with (Z.of_nat ((j + 1) mod length t1)).
    - by rewrite py_index_nat.
    - rewrite Nat2Z.inj_mod. f_equal. lia. }
  assert (py_index t1 (Z.of_nat j - 1) = Some last_p) as Hlast'.
  { destruct j as [|j].
    - change (Z.of_nat 0 - 1) with (-1).
      rewrite Closure.py_index_minus_one, <- Hlast by lia. f_equal.
      replace (0 + length t1 - 1)%nat with (length t1 - 1)%nat by lia.
      rewrite Nat.mod_small by lia. lia.
    - replace (Z.of_nat (S j) - 1)%Z with (Z.of_nat j) by lia.
      rewrite py_index_nat, <- Hlast. f_equal.
      replace (S j + length t1 - 1)%nat with (j + 1 * length t1)%nat by lia.
      rewrite Nat.Div0.mod_add, Nat.mod_small by lia. done. }
  unfold mark_tile. rewrite py_index_nat, Hp, Hnext', Hlast'. simpl.
  replace (Z.of_nat j + Z.of_nat (length t0))%Z
    with (Z.of_nat (length t0 + j)) by lia.
  pose proof (Htodo j ltac:(lia)) as Hcur.
  destruct (bool_decide (snd p = fst next_p)) eqn:He; simpl.
  - destruct (bool_decide (fst p = snd last_p)) eqn:Hs; simpl.
    + exists info. split; [done|].
      rewrite <- (list_insert_id info (length t0 + j) _ Hcur).
      apply after_insert; [done|done|].
      exists p, next_p, last_p. by rewrite He, Hs.
    + rewrite (mark_at _ _ _ _ Hcur). eexists. split; [done|].
      apply after_insert; [done|done|].
      exists p, next_p, last_p. by rewrite He, Hs.
  - rewrite (mark_at _ _ _ _ Hcur). eexists. split; [done|].
    apply after_insert; [done|done|].
    exists p, next_p, last_p. by rewrite He.
Qed.

Lemma create_info_marks_spec (t0 t1 : list (P * P)) :
  exists info, _create_info_marks [t0; t1] = Some info /\
               after t0 t1 (length t1) info.
Proof.
  unfold _create_info_marks. cbn [foldr length].
  change (seqZ 1 (Z.of_nat 2 - 1)) with [1]. cbn [foldM].
  change (py_index [t0; t1] 1) with (Some t1).
  change (py_index [t0; t1] (1 - 1)) with (Some t0).
  cbn [mbind option_bind].
  destruct (foldM_zrange_inv (after t0 t1)
              (mark_tile (Z.of_nat (length t0)) t1) (length t1))
    with (b := set_track (Z.of_nat (length t0))
                 (Z.of_nat (length t0) + Z.of_nat (length t1)) 1
                 (replicate (length t0 + (length t1 + 0)) blank))
    as (info & Hloop & Hinv).
  - intros j b Hj Hb. by apply mark_tile_after.
  - apply set_track_after.
  - exists info. rewrite Hloop. done.
Qed.

(** X23: the tiles that [_create_info] classifies as start or end.
    With one track no tile is marked.  With two tracks the loop never
    raises; the table lists the main track first, all with track 0 and
    neither flag; tile [j] of the second track comes at [len(tracks[0]) +
    j] with track 1, is an end tile exactly when its second point differs
    from the first point of the next tile (circularly), and a start tile
    exactly when it is not an end tile and its first point differs from
    the second point of the tile before it.  No tile is both. *)
Theorem create_info_marks_classifies (t0 t1 : list (P * P)) :
  _create_info_marks [t0] = Some (replicate (length t0) blank) /\
  exists info, _create_info_marks [t0; t1] = Some info /\
    length info = (length t0 + length t1)%nat /\
    (forall k, (k < length t0)%nat -> info !! k = Some blank) /\
    (forall j, (j < length t1)%nat ->
       exists ti, info !! (length t0 + j)%nat = Some ti /\ marked t1 j ti) /\
    Forall (fun ti => end_ ti && start ti = false) info.
Proof.
  split.
  - unfold _create_info_marks. cbn [foldr length].
    change (seqZ 1 (Z.of_nat 1 - 1)) with (@nil Z). cbn [foldM].
    by rewrite Nat.add_0_r.
  - destruct (create_info_marks_spec t0 t1)
      as (info & Hinfo & Hlen & Hmain & Hsecond & _).
    exists info. split; [done|]. split; [done|]. split; [done|].
    split; [done|]. apply Forall_lookup_2. intros k ti Hk.
    pose proof (lookup_lt_Some _ _ _ Hk) as Hlt.
    destruct (Nat.lt_ge_cases k (length t0)) as [Hm|Hs].
    + rewrite (Hmain k Hm) in Hk. by simplify_eq.
    + destruct (Hsecond (k - length t0)%nat ltac:(lia))
        as (ti' & Hk' & p & n & l & _ & _ & _ & ->).
      replace (length t0 + (k - length t0))%nat with k in Hk' by lia.
      simplify_eq. simpl. by destruct (bool_decide (snd p = fst n)).
Qed.

Lemma pred_succ_mod j n :
  (j < n)%nat -> (((j + n - 1) mod n + 1) mod n = j)%nat.
Proof.
  intros Hj. destruct j as [|j].
  - replace (0 + n - 1)%nat with (n - 1)%nat by lia.
    rewrite (Nat.mod_small (n - 1)) by lia.
    replace (n - 1 + 1)%nat with n by lia. apply Nat.Div0.mod_same.
  - replace (S j + n - 1)%nat with (j + 1 * n)%nat by lia.
    rewrite Nat.Div0.mod_add, (Nat.mod_small j) by lia.
    rewrite Nat.mod_small by lia. lia.
Qed.

(** X24: a track that comes out of [_get_track] uncut has no start and
    no end tile.  When the second track is the list of segments that the
    pairing at the end of [_get_track] makes of any list of points,
    [_create_info] leaves both flags unset on every tile of the table. *)
Theorem uncut_track_has_no_ends (t0 : list (P * P)) (pts : list P) segs :
  Closure.segments pts = Some segs ->
  exists info, _create_info_marks [t0; segs] = Some info /\
    Forall (fun ti => end_ ti = false /\ start ti = false) info.
Proof.
  intros Hsegs.
  destruct (Closure.segments_chain pts) as (segs' & Hs & Hlen & Hchain).
  rewrite Hs in Hsegs. simplify_eq.
  destruct (create_info_marks_spec t0 segs)
    as (info & Hinfo & Hilen & Hmain & Hsecond & _).
  exists info. split; [done|]. apply Forall_lookup_2. intros k ti Hk.
  pose proof (lookup_lt_Some _ _ _ Hk) as Hlt.
  destruct (Nat.lt_ge_cases k (length t0)) as [Hm|Hge].
  - rewrite (Hmain k Hm) in Hk. by simplify_eq.
  - set (j := (k - length t0)%nat).
    assert (j < length segs)%nat as Hj by (unfold j; lia).
    destruct (Hsecond j Hj)
      as (ti' & Hk' & [a b] & [a1 b1] & [a0 b0] & Hp & Hnext & Hlast & ->).
    replace (length t0 + j)%nat with k in Hk' by (unfold j; lia).
    simplify_eq. simpl.
    destruct (Hchain _ _ _ Hp) as (_ & c & Hn). rewrite <- Hlen in Hn.
    rewrite Hnext in Hn. simplify_eq.
    destruct (Hchain _ _ _ Hlast) as (_ & c0 & Hn0). rewrite <- Hlen in Hn0.
    rewrite (pred_succ_mod j (length segs) Hj), Hp in Hn0. simplify_eq.
    by rewrite !bool_decide_eq_true_2.
Qed.

(** *** Cutting a section out of a closed track *)

Lemma np_delete_keep {A : Type} (removed : list Z) (l : list A) :
  forall G : nat -> nat,
    (forall i, (i < length l)%nat -> Z.of_nat (G i) ∉ removed) ->
    omap (fun p : nat * A =>
            if bool_decide (Z.of_nat (fst p) ∈ removed) then None
            else Some (snd p))
         (imap (fun i x => (G i, x)) l) = l.
Proof.
  induction l as [|x l IH]; intros G HG; [done|]. cbn [imap omap list_omap].
  simpl. rewrite bool_decide_eq_false_2 by (apply (HG 0%nat); simpl; lia).
  f_equal. apply (IH (G ∘ S)). intros i Hi. apply HG. simpl. lia.
Qed.

Lemma np_delete_drop {A : Type} (removed : list Z) (l : list A) :
  forall G : nat -> nat,
    (forall i, (i < length l)%nat -> Z.of_nat (G i) ∈ removed) ->
    omap (fun p : nat * A =>
            if bool_decide (Z.of_nat (fst p) ∈ removed) then None
            else Some (snd p))
         (imap (fun i x => (G i, x)) l) = [].
Proof.
  induction l as [|x l IH]; intros G HG; [done|]. cbn [imap omap list_omap].
  simpl. rewrite bool_decide_eq_true_2 by (apply (HG 0%nat); simpl; lia).
  apply (IH (G ∘ S)). intros i Hi. apply HG. simpl. lia.
Qed.

Lemma np_delete_block {A : Type} (l : list A) removed a b :
  (a <= b <= length l)%nat ->
  (forall i, (i < length l)%nat -> Z.of_nat i ∈ removed <-> (a <= i < b)%nat) ->
  np_delete l removed = take a l ++ drop b l.
Proof.
  intros Hab Hrem. unfold np_delete.
  rewrite <- (take_drop a l) at 1.
  rewrite <- (take_drop (b - a) (drop a l)) at 1.
  rewrite drop_drop. replace (a + (b - a))%nat with b by lia.
  rewrite !imap_app, !omap_app. rewrite length_take, Nat.min_l by lia.
  rewrite length_take, length_drop, Nat.min_l by lia.
  rewrite (np_delete_keep removed (take a l) (fun i => i)).
  2:{ intros i Hi. rewrite length_take in Hi. rewrite Hrem by lia. lia. }
  rewrite (np_delete_drop removed (take (b - a) (drop a l))).
  2:{ intros i Hi. rewrite length_take, length_drop in Hi.
      apply Hrem; lia. }
  rewrite (np_delete_keep removed (drop b l)); [done|].
  intros i Hi. rewrite length_drop in Hi. rewrite Hrem by lia. lia.
Qed.

(** The index in the closed track of tile [j] of the cut track. *)
Definition orig (a b j : nat) : nat := if decide (j < a)%nat then j else (j + (b - a))%nat.

Lemma next_orig n a b j :
  (1 <= a)%nat -> (a < b)%nat -> (b <= n - 1)%nat -> (j < n - (b - a))%nat ->
  ((orig a b ((j + 1) mod (n - (b - a))) + n - 1) mod n = orig a b j)%nat
  <-> j <> (a - 1)%nat.
Proof.
  intros Ha Hab Hb Hj. unfold orig.
  destruct (decide (j + 1 = n - (b - a))%nat) as [Hlast|Hmid].
  - rewrite Hlast, Nat.Div0.mod_same.
    destruct (decide (0 < a)%nat); [|lia]. destruct (decide (j < a)%nat); [lia|].
    replace (0 + n - 1)%nat with (n - 1)%nat by lia.
    rewrite Nat.mod_small by lia. lia.
  - rewrite (Nat.mod_small (j + 1)) by lia.
    destruct (decide (j + 1 < a)%nat), (decide (j < a)%nat); try lia.
    + replace (j + 1 + n - 1)%nat with (j + 1 * n)%nat by lia.
      rewrite Nat.Div0.mod_add, Nat.mod_small by lia. lia.
    + replace (j + 1 + (b - a) + n - 1)%nat with (j + (b - a) + 1 * n)%nat by lia.
      rewrite Nat.Div0.mod_add, Nat.mod_small by lia. lia.
    + replace (j + 1 + (b - a) + n - 1)%nat with (j + (b - a) + 1 * n)%nat by lia.
      rewrite Nat.Div0.mod_add, Nat.mod_small by lia. lia.
Qed.

Lemma prev_orig n a b j :
  (1 <= a)%nat -> (a < b)%nat -> (b <= n - 1)%nat -> (j < n - (b - a))%nat ->
  ((orig a b j + n - 1) mod n
   = orig a b ((j + (n - (b - a)) - 1) mod (n - (b - a))))%nat
  <-> j <> a.
Proof.
  intros Ha Hab Hb Hj. unfold orig.
  destruct j as [|j].
  - replace (0 + (n - (b - a)) - 1)%nat with (n - (b - a) - 1)%nat by lia.
    rewrite (Nat.mod_small (n - (b - a) - 1)) by lia.
    destruct (decide (0 < a)%nat); [|lia].
    destruct (decide (n - (b - a) - 1 < a)%nat); [lia|].
    replace (0 + n - 1)%nat with (n - 1)%nat by lia.
    rewrite Nat.mod_small by lia. lia.
  - replace (S j + (n - (b - a)) - 1)%nat with (j + 1 * (n - (b - a)))%nat by lia.
    rewrite Nat.Div0.mod_add, (Nat.mod_small j) by lia.
    destruct (decide (S j < a)%nat), (decide (j < a)%nat); try lia.
    + replace (S j + n - 1)%nat with (j + 1 * n)%nat by lia.
      rewrite Nat.Div0.mod_add, Nat.mod_small by lia. lia.
    + replace (S j + (b - a) + n - 1)%nat with (j + (b - a) + 1 * n)%nat by lia.
      rewrite Nat.Div0.mod_add, Nat.mod_small by lia. lia.
    + replace (S j + (b - a) + n - 1)%nat with (j + (b - a) + 1 * n)%nat by lia.
      rewrite Nat.Div0.mod_add, Nat.mod_small by lia. lia.
Qed.

(** X25: cutting one section out of a closed track makes one end tile
    and one start tile.  Take the segments that [_get_track] makes of a
    list of pairwise different points, delete the tiles [a] to [b - 1]
    with [np.delete] as [_remove_roads] does ([1 <= a < b <= n - 1], so
    the first and the last tile stay), and classify the result as second
    track: the tile just before the cut is the only end tile and the tile
    just after the cut is the only start tile. *)
Theorem cut_makes_one_end_and_one_start (t0 : list (P * P)) (pts : list P)
  segs removed a b :
  NoDup pts -> Closure.segments pts = Some segs ->
  (1 <= a)%nat -> (a < b)%nat -> (b <= length pts - 1)%nat ->
  (forall i, (i < length pts)%nat ->
     Z.of_nat i ∈ removed <-> (a <= i < b)%nat) ->
  exists info,
    _create_info_marks [t0; np_delete segs removed] = Some info /\
    length info = (length t0 + (length pts - (b - a)))%nat /\
    forall j ti, (j < length pts - (b - a))%nat ->
      info !! (length t0 + j)%nat = Some ti ->
      end_ ti = bool_decide (j = (a - 1)%nat) /\
      start ti = bool_decide (j = a).
Proof.
  intros Hnd Hsegs Ha Hab Hb Hrem.
  set (n := length pts) in *. set (m := (n - (b - a))%nat).
  destruct (Closure.segments_chain pts) as (segs' & Hs' & Hlen & _).
  assert (segs' = segs) as -> by congruence. clear Hs'. fold n in Hlen.
  assert (np_delete segs removed = take a segs ++ drop b segs) as Hcut.
  { apply np_delete_block; rewrite Hlen; [lia|done]. }
  set (kept := np_delete segs removed) in *.
  assert (length kept = m) as Hm.
  { rewrite Hcut, length_app, length_take, length_drop. unfold m. lia. }
  assert (forall j, (j < m)%nat -> kept !! j = segs !! orig a b j) as Hkept.
  { intros j Hj. rewrite Hcut. unfold orig. destruct (decide (j < a)%nat).
    - rewrite lookup_app_l by (rewrite length_take; lia).
      by rewrite lookup_take_lt by lia.
    - rewrite lookup_app_r by (rewrite length_take; lia).
      rewrite length_take, lookup_drop. f_equal. lia. }
  assert (forall j, (j < m)%nat -> (orig a b j < n)%nat) as Horig.
  { intros j Hj. unfold orig, m in *. destruct (decide (j < a)%nat); lia. }
  assert (forall j, (j < m)%nat ->
            exists x y, kept !! j = Some (x, y) /\
                        pts !! orig a b j = Some y /\
                        pts !! ((orig a b j + n - 1) mod n)%nat = Some x) as Hpt.
  { intros j Hj. rewrite Hkept by done.
    by apply Closure.segments_lookup; [|apply Horig]. }
  destruct (create_info_marks_spec t0 kept)
    as (info & Hinfo & Hilen & _ & Hsecond & _).
  exists info. split; [done|]. split; [by rewrite Hilen, Hm|].
  intros j ti Hj Hti. fold m in Hj.
  destruct (Hsecond j ltac:(lia))
    as (ti' & Hti' & p & next_p & last_p & Hp & Hnext & Hlast & Heq).
  rewrite Hti' in Hti. injection Hti as <-. rewrite Heq. cbn [end_ start].
  clear Heq Hti'. rewrite Hm in Hnext, Hlast.
  assert ((j + 1) mod m < m)%nat as Hjn by (apply Nat.mod_upper_bound; lia).
  assert ((j + m - 1) mod m < m)%nat as Hjl by (apply Nat.mod_upper_bound; lia).
  destruct (Hpt j Hj) as (x & y & Hp' & Hy & Hx).
  destruct (Hpt _ Hjn) as (xn & yn & Hn' & _ & Hxn).
  destruct (Hpt _ Hjl) as (xl & yl & Hl' & Hyl & _).
  rewrite Hp' in Hp. injection Hp as <-.
  rewrite Hn' in Hnext. injection Hnext as <-.
  rewrite Hl' in Hlast. injection Hlast as <-.
  cbn [fst snd].
  assert (y = xn <-> j <> (a - 1)%nat) as Hend.
  { rewrite <- (next_orig n a b j Ha Hab Hb Hj). split.
    - intros ->. by eapply NoDup_lookup.
    - intros Heq. unfold m in Hxn. rewrite Heq in Hxn. congruence. }
  assert (x = yl <-> j <> a) as Hstart.
  { rewrite <- (prev_orig n a b j Ha Hab Hb Hj). split.
    - intros ->. by eapply NoDup_lookup.
    - intros Heq. unfold m in Hyl. rewrite <- Heq in Hyl. congruence. }
  split.
  - destruct (decide (j = (a - 1)%nat)) as [Hj1|Hj1].
    + rewrite (bool_decide_eq_true_2 _ Hj1).
      rewrite bool_decide_eq_false_2; [done|]. intros Heq. by apply Hend.
    + rewrite (bool_decide_eq_false_2 _ Hj1).
      rewrite bool_decide_eq_true_2; [done|]. by apply Hend.
  - destruct (decide (j = a)) as [Hj2|Hj2].
    + rewrite (bool_decide_eq_true_2 _ Hj2).
      rewrite (bool_decide_eq_true_2 (y = xn)) by (apply Hend; lia).
      rewrite bool_decide_eq_false_2; [done|]. intros Heq. by apply Hstart.
    + rewrite (bool_decide_eq_false_2 _ Hj2).
      rewrite (bool_decide_eq_true_2 (x = yl)) by (by apply Hstart).
      by rewrite andb_false_r.
Qed.

End classify.

Lemma uncut_track_has_no_ends_witness :
  Closure.segments [1%nat; 2%nat; 3%nat]
    = Some [(3%nat, 1%nat); (1%nat, 2%nat); (2%nat, 3%nat)] /\
  exists info,
    _create_info_marks [[(7%nat, 8%nat)];
                        [(3%nat, 1%nat); (1%nat, 2%nat); (2%nat, 3%nat)]]
      = Some info /\
    Forall (fun ti => end_ ti = false /\ start ti = false) info.
Proof.
  split; [vm_compute; reflexivity|].
  apply (uncut_track_has_no_ends [(7%nat, 8%nat)] [1%nat; 2%nat; 3%nat]).
  vm_compute; reflexivity.
Defined.

Lemma cut_makes_one_end_and_one_start_witness :
  exists segs,
    Closure.segments [10%nat; 11%nat; 12%nat; 13%nat; 14%nat; 15%nat]
      = Some segs /\
    exists info,
      _create_info_marks [[(7%nat, 8%nat)]; np_delete segs [2; 3]] = Some info /\
      length info = (1 + (6 - (4 - 2)))%nat /\
      forall j ti, (j < 6 - (4 - 2))%nat ->
        info !! (1 + j)%nat = Some ti ->
        end_ ti = bool_decide (j = (2 - 1)%nat) /\
        start ti = bool_decide (j = 2%nat).
Proof.
  eexists. split; [vm_compute; reflexivity|].
  apply (cut_makes_one_end_and_one_start [(7%nat, 8%nat)]
           [10%nat; 11%nat; 12%nat; 13%nat; 14%nat; 15%nat] _ [2; 3] 2 4).
  - apply (bool_decide_unpack
             (NoDup [10%nat; 11%nat; 12%nat; 13%nat; 14%nat; 15%nat])).
    vm_compute. exact I.
  - vm_compute; reflexivity.
  - lia.
  - lia.
  - simpl. lia.
  - intros i Hi. simpl in Hi. rewrite !elem_of_cons, elem_of_nil. lia.
Defined.

End Marks.

(** ** Grouping the intersection candidates in [_create_info] *)

Module Groups.

(** [backwards()], lines 654-662.  The list [intersections] is shared
    with the caller: the function pops from its end and the caller sees
    the rest, so the model returns the run and the list that is left.
    [None] is an exception ([IndexError] on an empty list,
    [ZeroDivisionError] when [track_len] is 0) or a recursion deeper than
    [fuel]. *)
Fixpoint backwards (fuel : nat) (track_len : Z) (intersections : list Z)
  : option (list Z * list Z) :=
  match fuel with
  | O => None
  | S fuel' =>
      me ← py_index intersections (-1);
      let intersections := removelast intersections in
      if Z.of_nat (length intersections) =? 0 then Some ([me], intersections)
      else if track_len =? 0 then None
      else
        nxt ← py_index intersections (-1);
        if (me - 1) mod track_len =? nxt then
          '(run, intersections) ← backwards fuel' track_len intersections;
          Some (me :: run, intersections)
        else Some ([me], intersections)
  end.

(** [forward()], lines 664-672: the same from the front of the list. *)
Fixpoint forward (fuel : nat) (track_len : Z) (intersections : list Z)
  : option (list Z * list Z) :=
  match fuel with
  | O => None
  | S fuel' =>
      me ← py_index intersections 0;
      let intersections := drop 1 intersections in
      if Z.of_nat (length intersections) =? 0 then Some ([me], intersections)
      else if track_len =? 0 then None
      else
        nxt ← py_index intersections 0;
        if (me + 1) mod track_len =? nxt then
          '(run, intersections) ← forward fuel' track_len intersections;
          Some (me :: run, intersections)
        else Some ([me], intersections)
  end.

(** The [while len(intersections) != 0] loop, lines 674-684; [fuel]
    bounds its passes and the recursion of each call. *)
Fixpoint group_loop (fuel : nat) (track_len : Z) (intersections : list Z)
  (groups : list (list Z)) : option (list (list Z)) :=
  match fuel with
  | O => None
  | S fuel' =>
      if Z.of_nat (length intersections) =? 0 then Some groups
      else
        me ← py_index intersections 0;
        '(tmp_lst, intersections) ← backwards fuel track_len intersections;
        '(tmp_lst, intersections) ←
          (if negb (Z.of_nat (length intersections) =? 0) then
             if track_len =? 0 then None
             else
               final ← py_index intersections (-1);
               if (me - 1) mod track_len =? final then
                 '(more, intersections) ← forward fuel track_len intersections;
                 Some (tmp_lst ++ more, intersections)
               else Some (tmp_lst, intersections)
           else Some (tmp_lst, intersections));
        group_loop fuel' track_len intersections (groups ++ [tmp_lst])
  end.

(** The list after [intersections.sort()]: a set in increasing order. *)
Definition increasing (l : list Z) : Prop :=
  forall i j x y, (i < j)%nat -> l !! i = Some x -> l !! j = Some y -> x < y.

(** A run of consecutive integers, listed downwards. *)
Definition run_down (g : list Z) : Prop :=
  g <> [] /\
  forall k x y, g !! k = Some x -> g !! S k = Some y -> y = x - 1.

(** Two groups that follow each other are not adjacent on the track. *)
Definition apart (gs : list (list Z)) : Prop :=
  forall k g g' x y, gs !! k = Some g -> gs !! S k = Some g' ->
    last g = Some x -> head g' = Some y -> y <> x - 1.

Definition in_range (track_len : Z) (l : list Z) : Prop :=
  Forall (fun x => 0 <= x < track_len) l.

Lemma py_index_snoc {A : Type} (l : list A) a : py_index (l ++ [a]) (-1) = Some a.
Proof.
  rewrite Closure.py_index_minus_one by (rewrite length_app; simpl; lia).
  rewrite length_app. simpl.
  replace (length l + 1 - 1)%nat with (length l + 0)%nat by lia.
  by rewrite lookup_app_r, Nat.add_0_r, Nat.sub_diag by lia.
Qed.

Lemma increasing_app_l l k : increasing (l ++ k) -> increasing l.
Proof.
  intros H i j x y Hij Hi Hj. apply (H i j); [done|..];
    by apply lookup_app_l_Some.
Qed.

Lemma increasing_snoc l a x : increasing (l ++ [a]) -> x ∈ l -> x < a.
Proof.
  intros H Hx. apply list_elem_of_lookup in Hx as [i Hi].
  apply (H i (length l)).
  - by eapply lookup_lt_Some.
  - by apply lookup_app_l_Some.
  - by rewrite lookup_app_r, Nat.sub_diag by lia.
Qed.

Lemma in_range_app track_len l k :
  in_range track_len (l ++ k) -> in_range track_len l /\ in_range track_len k.
Proof. apply Forall_app. Qed.

Lemma in_range_snoc track_len l a :
  in_range track_len (l ++ [a]) -> in_range track_len l /\ 0 <= a < track_len.
Proof.
  unfold in_range. rewrite Forall_app, Forall_singleton. done.
Qed.

Lemma backwards_run track_len init : forall fuel me,
  increasing (init ++ [me]) -> in_range track_len (init ++ [me]) ->
  (length init < fuel)%nat ->
  exists run rest,
    backwards fuel track_len (init ++ [me]) = Some (run, rest) /\
    init ++ [me] = rest ++ reverse run /\
    run_down run /\ head run = Some me /\
    forall x y, last run = Some x -> last rest = Some y -> y <> x - 1.
Proof.
  induction init as [|nxt init IH] using rev_ind; intros fuel me Hinc Hrng Hfuel;
    (destruct fuel as [|fuel]; [lia|]); cbn [backwards].
  - exists [me], []. cbn. split; [done|]. split; [done|]. split; [|done].
    split; [done|]. intros [|k] x y Hx Hy; done.
  - rewrite py_index_snoc. cbn [mbind option_bind].
    rewrite removelast_last.
    destruct (Z.eqb_spec (Z.of_nat (length (init ++ [nxt]))) 0) as [H0|_].
    { rewrite length_app in H0. simpl in H0. lia. }
    apply in_range_snoc in Hrng as [Hrng Hme].
    destruct (Z.eqb_spec track_len 0) as [?|_]; [lia|].
    rewrite py_index_snoc. cbn [mbind option_bind].
    assert (0 <= nxt < me) as Hnxt.
    { split.
      - apply in_range_snoc in Hrng as [_ Hn]. lia.
      - eapply increasing_snoc; [done|]. apply elem_of_app. right. left. }
    rewrite (Z.mod_small (me - 1)) by lia.
    destruct (Z.eqb_spec (me - 1) nxt) as [Heq|Hne].
    + destruct (IH fuel nxt) as (run & rest & Hb & Hsplit & Hrun & Hhead & Hgap).
      * by eapply increasing_app_l.
      * done.
      * rewrite length_app in Hfuel. simpl in Hfuel. lia.
      * exists (me :: run), rest. rewrite Hb. cbn [mbind option_bind].
        split; [done|]. split.
        { rewrite Hsplit, reverse_cons. by rewrite app_assoc. }
        split; [|split; [done|]].
        -- split; [done|]. intros [|k] x y Hx Hy.
           ++ simpl in Hx, Hy. simplify_eq. destruct run; simpl in *; [done|].
              simplify_eq. lia.
           ++ by apply (proj2 Hrun k).
        -- intros x y Hx Hy. destruct Hrun as [Hne' _].
           destruct run as [|r0 run]; [done|]. by apply Hgap.
    + exists [me], (init ++ [nxt]). split; [done|]. split; [done|].
      split; [|split; [done|]].
      * split; [done|]. intros [|k] x y Hx Hy; done.
      * intros x y Hx Hy. rewrite last_snoc in Hy. simpl in Hx. simplify_eq.
        lia.
Qed.

Lemma group_loop_runs track_len : forall fuel intersections groups,
  increasing intersections -> in_range track_len intersections ->
  (length intersections < fuel)%nat ->
  exists gs,
    group_loop fuel track_len intersections groups = Some (groups ++ gs) /\
    mjoin gs = reverse intersections /\ Forall run_down gs /\ apart gs.
Proof.
  induction fuel as [|fuel IH]; intros ints groups Hinc Hrng Hfuel; [lia|].
  cbn [group_loop].
  destruct ints as [|first tl] using rev_ind.
  { exists []. simpl. rewrite app_nil_r. split; [done|]. split; [done|].
    split; [done|]. intros k g g' x y Hg. done. }
  clear IHtl. rename first into mx, tl into init.
  destruct (Z.eqb_spec (Z.of_nat (length (init ++ [mx]))) 0) as [H0|_].
  { rewrite length_app in H0. simpl in H0. lia. }
  assert (exists me, (init ++ [mx]) !! 0%nat = Some me) as [me Hme].
  { apply lookup_lt_is_Some_2. rewrite length_app. simpl. lia. }
  change (py_index (init ++ [mx]) 0)
    with (py_index (init ++ [mx]) (Z.of_nat 0)).
  rewrite py_index_nat, Hme.
  cbn [mbind option_bind].
  destruct (backwards_run track_len init (S fuel) mx Hinc Hrng)
    as (run & rest & Hb & Hsplit & Hrun & Hhead & Hgap).
  { rewrite length_app in Hfuel. simpl in Hfuel. lia. }
  rewrite Hb. cbn [mbind option_bind].
  assert (increasing rest) as Hinc'
    by (rewrite Hsplit in Hinc; by eapply increasing_app_l).
  assert (in_range track_len rest) as Hrng'
    by (rewrite Hsplit in Hrng; by apply in_range_app in Hrng as [? _]).
  assert (length rest < length (init ++ [mx]))%nat as Hshort.
  { rewrite Hsplit, length_app, length_reverse. destruct Hrun as [Hne _].
    destruct run; [done|]. simpl. lia. }
  assert ((if negb (Z.of_nat (length rest) =? 0) then
             if track_len =? 0 then None
             else
               final ← py_index rest (-1);
               if (me - 1) mod track_len =? final then
                 '(more, intersections) ← forward (S fuel) track_len rest;
                 Some (run ++ more, intersections)
               else Some (run, rest)
           else Some (run, rest)) = Some (run, rest)) as ->.
  { destruct rest as [|l0 rest0] using rev_ind; [done|]. clear IHrest0.
    destruct (Z.eqb_spec (Z.of_nat (length (rest0 ++ [l0]))) 0) as [H0|_].
    { rewrite length_app in H0. simpl in H0. lia. }
    cbn [negb].
    assert (0 <= mx < track_len) as Hmx.
    { apply in_range_snoc in Hrng as [_ Hm]. lia. }
    destruct (Z.eqb_spec track_len 0) as [?|_]; [lia|].
    rewrite py_index_snoc. cbn [mbind option_bind].
    assert (0 <= me <= l0) as Hmel.
    { rewrite Hsplit in Hme. rewrite <- app_assoc in Hme.
      split.
      - apply in_range_snoc in Hrng' as [Hr0 Hl0].
        destruct rest0 as [|r0 rest0]; simpl in Hme; simplify_eq; [lia|].
        apply Forall_cons in Hr0 as [? _]. lia.
      - destruct rest0 as [|r0 rest0]; simpl in Hme; simplify_eq; [lia|].
        apply Z.lt_le_incl.
        apply (increasing_snoc (me :: rest0) l0); [done|left]. }
    assert (l0 < mx) as Hl0.
    { destruct (decide (l0 = mx)) as [->|Hne].
      - exfalso.
        assert ((init ++ [mx]) !! length rest0 = Some mx) as H1.
        { rewrite Hsplit, <- app_assoc.
          by rewrite lookup_app_r, Nat.sub_diag by lia. }
        assert ((init ++ [mx]) !! length init = Some mx) as H2.
        { by rewrite lookup_app_r, Nat.sub_diag by lia. }
        rewrite length_app in Hshort. simpl in Hshort.
        rewrite length_app in Hshort. simpl in Hshort.
        pose proof (Hinc (length rest0) (length init) mx mx ltac:(lia) H1 H2).
        lia.
      - assert (l0 ∈ init) as Hin.
        { assert (l0 ∈ init ++ [mx]) as Hin'.
          { rewrite Hsplit. apply elem_of_app. left. apply elem_of_app.
            right. left. }
          apply elem_of_app in Hin' as [?|Hin']; [done|].
          apply list_elem_of_singleton in Hin'. done. }
        by eapply increasing_snoc. }
    destruct (Z.eq_dec me 0) as [->|Hpos].
    - change (0 - 1) with (-1).
      assert ((-1) mod track_len = track_len - 1) as ->.
      { symmetry. apply (Z.mod_unique _ _ (-1)); lia. }
      destruct (Z.eqb_spec (track_len - 1) l0); [lia|done].
    - rewrite Z.mod_small by lia.
      destruct (Z.eqb_spec (me - 1) l0); [lia|done]. }
  cbn [mbind option_bind].
  destruct (IH rest (groups ++ [run]) Hinc' Hrng' ltac:(lia))
    as (gs & Hloop & Hjoin & Hruns & Hapart).
  exists (run :: gs). rewrite Hloop, <- app_assoc. split; [done|]. split.
  { simpl. rewrite Hjoin, Hsplit, reverse_app, reverse_involutive. done. }
  split; [by constructor|].
  intros [|k] g g' x y Hg Hg' Hx Hy.
  - simpl in Hg, Hg'. simplify_eq. eapply Hgap; [done|].
    destruct gs as [|g0 gs]; simpl in Hg'; simplify_eq.
    simpl in Hjoin. rewrite <- head_reverse, <- Hjoin.
    apply Forall_cons in Hruns as [[Hne _] _].
    destruct g'; [done|]. done.
  - by apply (Hapart k g g').
Qed.

(** X26: how [_create_info] groups the intersection candidates of the
    main track.  For a sorted list of distinct tile indices below
    [track_len] the loop returns; every group is a run of consecutive
    indices listed downwards; the groups, put end to end, are the
    candidates from the highest to the lowest, none lost and none twice;
    and two groups that follow each other are not adjacent indices, so
    every group is a maximal run of consecutive integers: a run that
    wraps from the last tile to tile 0 is left as two groups. *)
Theorem groups_are_maximal_runs track_len intersections fuel :
  increasing intersections -> in_range track_len intersections ->
  (length intersections < fuel)%nat ->
  exists gs,
    group_loop fuel track_len intersections [] = Some gs /\
    mjoin gs = reverse intersections /\ Forall run_down gs /\ apart gs.
Proof.
  intros Hinc Hrng Hfuel.
  destruct (group_loop_runs track_len fuel intersections [] Hinc Hrng Hfuel)
    as (gs & Hloop & Hrest).
  by exists gs.
Qed.

Lemma increasing_example : increasing [0; 1; 2; 50; 51; 98; 99].
Proof.
  intros i j x y Hij Hi Hj.
  do 7 (destruct i as [|i]; [simpl in Hi; simplify_eq;
        do 7 (destruct j as [|j]; [try lia; simpl in Hj; simplify_eq; lia|]);
        done|]).
  done.
Qed.

Lemma groups_are_maximal_runs_witness :
  group_loop 8 100 [0; 1; 2; 50; 51; 98; 99] []
    = Some [[99; 98]; [51; 50]; [2; 1; 0]] /\
  exists gs,
    group_loop 8 100 [0; 1; 2; 50; 51; 98; 99] [] = Some gs /\
    mjoin gs = reverse [0; 1; 2; 50; 51; 98; 99] /\
    Forall run_down gs /\ apart gs.
Proof.
  split; [vm_compute; reflexivity|].
  apply (groups_are_maximal_runs 100 [0; 1; 2; 50; 51; 98; 99] 8).
  - exact increasing_example.
  - unfold in_range. repeat (constructor; [lia|]). constructor.
  - simpl. lia.
Defined.

End Groups.

(** ** The stack of frames of the observation *)

Module Frames.

(** [self.frames_per_state] as [_set_config] stores it (line 283). *)
Definition frames_per_state_of (frames_per_state : Z) : Z :=
  if 0 <? frames_per_state then frames_per_state else 1.

(** [self._update_index], lines 287-288:
    [lst = list(range(n)); [lst[-1]] + lst[:-1]]. *)
Definition _update_index (n : Z) : option (list Z) :=
  let lst := zrange n in
  x ← py_index lst (-1);
  Some (x :: take (length lst - 1) lst).

Section frames.

(** A rendered frame, and the frame of zeros. *)
Context {A : Type} (zero : A).

(** [self.state] after [reset], line 1016: an array of zeros of the
    shape of the observation space, that is [n] frames when [n > 1] and
    one frame otherwise.  The observation is modelled as its list of
    frames. *)
Definition reset_state (n : Z) : list A :=
  if 1 <? n then replicate (Z.to_nat n) zero else [zero].

(** [_update_state], lines 1029-1034; [state[self._update_index]]
    indexes with a list and builds a new array. *)
Definition _update_state (n : Z) (state : list A) (new_frame : A)
  : option (list A) :=
  if 1 <? n then
    state ← py_set state (-1) new_frame;
    index ← _update_index n;
    mapM (py_index state) index
  else Some [new_frame].

(** The observation after the frames of an episode, oldest first. *)
Definition observe (n : Z) (frames : list A) : option (list A) :=
  foldM (_update_state n) frames (reset_state n).

Lemma mapM_range (l : list A) m : forall k,
  (k + m <= length l)%nat ->
  mapM (py_index l) (map Z.of_nat (seq k m)) = Some (take m (drop k l)).
Proof.
  induction m as [|m IH]; intros k Hk; simpl; [done|].
  rewrite py_index_nat.
  destruct (lookup_lt_is_Some_2 l k ltac:(lia)) as [x Hx]. rewrite Hx. simpl.
  rewrite IH by lia. simpl. f_equal.
  rewrite (drop_S l x k Hx). done.
Qed.

Lemma update_index_spec N :
  (1 <= N)%nat ->
  _update_index (Z.of_nat N)
  = Some (Z.of_nat (N - 1) :: map Z.of_nat (seq 0 (N - 1))).
Proof.
  intros HN. unfold _update_index, zrange. rewrite Nat2Z.id.
  rewrite Closure.py_index_minus_one by (rewrite length_map, length_seq; lia).
  rewrite length_map, length_seq, list_lookup_fmap, lookup_seq_lt by lia.
  simpl. f_equal. f_equal. rewrite <- fmap_take. f_equal.
  by rewrite take_seq, Nat.min_l by lia.
Qed.

Lemma update_state_shift n state new_frame :
  1 < n -> length state = Z.to_nat n ->
  _update_state n state new_frame
  = Some (new_frame :: take (Z.to_nat n - 1) state).
Proof.
  intros Hn Hlen. unfold _update_state.
  destruct (Z.ltb_spec 1 n); [|lia].
  assert (py_set state (-1) new_frame
          = Some (<[(length state - 1)%nat := new_frame]> state)) as ->.
  { unfold py_set. simpl.
    destruct (Z.leb_spec (- Z.of_nat (length state)) (-1)); [|lia]. simpl.
    f_equal. f_equal. lia. }
  simpl. rewrite <- (Z2Nat.id n) at 1 by lia.
  rewrite update_index_spec by lia. simpl.
  replace (Z.of_nat (Z.to_nat n - 1)) with (-1 + Z.of_nat (length state)) by lia.
  assert (py_index (<[(length state - 1)%nat := new_frame]> state)
                   (-1 + Z.of_nat (length state)) = Some new_frame) as ->.
  { replace (-1 + Z.of_nat (length state)) with (Z.of_nat (length state - 1))
      by lia.
    rewrite py_index_nat. apply list_lookup_insert_eq. lia. }
  simpl. rewrite mapM_range by (rewrite length_insert; lia). simpl.
  rewrite drop_0, Hlen, take_insert_ge by lia. done.
Qed.

(** X27: the observation is the stack of the latest frames, newest
    first.  For every setting of [frames_per_state], with [n] the value
    that [_set_config] stores, after any sequence of calls of
    [_update_state] since [reset] the state holds exactly [n] frames: the
    frames rendered so far from the newest back, and frames of zeros for
    those not rendered yet.  No call raises. *)
Theorem observation_is_latest_frames fps frames :
  observe (frames_per_state_of fps) frames
  = Some (take (Z.to_nat (frames_per_state_of fps))
               (rev frames
                ++ replicate (Z.to_nat (frames_per_state_of fps)) zero)).
Proof.
  set (n := frames_per_state_of fps).
  assert (1 <= n) as Hn.
  { unfold n, frames_per_state_of. destruct (Z.ltb_spec 0 fps); lia. }
  induction frames as [|f frames IH] using rev_ind.
  - unfold observe, reset_state. simpl.
    destruct (Z.ltb_spec 1 n).
    + by rewrite take_replicate, Nat.min_id.
    + replace n with 1 by lia. done.
  - unfold observe in *. rewrite foldM_snoc, IH. cbn [mbind option_bind].
    rewrite rev_unit.
    assert (1 <= Z.to_nat n)%nat as HN by lia.
    destruct (Z.ltb_spec 1 n) as [Hgt|Hle].
    + rewrite update_state_shift;
        [|done|rewrite length_take, length_app, length_replicate; lia].
      rewrite take_take. destruct (Z.to_nat n) as [|N]; [lia|].
      cbn [app take]. do 3 f_equal. lia.
    + unfold _update_state. destruct (Z.ltb_spec 1 n); [lia|].
      replace (Z.to_nat n) with 1%nat by lia. done.
Qed.

End frames.

End Frames.

(** ** What [reset] comes back with *)

Module Retry.

Import Lanes Reset.

Lemma reset_loop_from c attempts fuel : forall s k r,
  reset_loop fuel c attempts s = Some (k, r) <->
  (s <= k < s + fuel)%nat /\
  (forall i, (s <= i < k)%nat -> _create_track c (attempts i) = Return false) /\
  _create_track c (attempts k) = r /\ r <> Return false.
Proof.
  induction fuel as [|fuel IH]; intros s k r.
  - simpl. split; [done|]. intros [? _]. lia.
  - cbn [reset_loop].
    destruct (_create_track c (attempts s)) as [[|]|e] eqn:Hs.
    + split.
      * intros ?; simplify_eq. split; [lia|]. split; [intros; lia|done].
      * intros (Hk & Hfalse & Hr & _).
        destruct (decide (k = s)) as [->|?]; [congruence|].
        rewrite (Hfalse s) in Hs by lia. done.
    + rewrite IH. split.
      * intros (Hk & Hfalse & Hr & Hne). split; [lia|]. split; [|done].
        intros i Hi. destruct (decide (i = s)) as [->|?]; [done|].
        apply Hfalse. lia.
      * intros (Hk & Hfalse & Hr & Hne).
        assert (k <> s) by (intros ->; congruence).
        split; [lia|]. split; [|done]. intros i Hi. apply Hfalse. lia.
    + split.
      * intros ?; simplify_eq. split; [lia|]. split; [intros; lia|done].
      * intros (Hk & Hfalse & Hr & _).
        destruct (decide (k = s)) as [->|?]; [congruence|].
        rewrite (Hfalse s) in Hs by lia. done.
Qed.

(** X28: what the retry loop of [reset] ends with.  The loop ends at
    its call number [k] with outcome [r] exactly when every earlier call
    of [_create_track] returned [False], call [k] did not, and [r] is what
    call [k] did: it returned [True] or raised.  So [reset] never goes on
    with a track that [_create_track] rejected, and never makes a call
    after one that succeeded or raised. *)
Theorem reset_loop_first_outcome c attempts fuel k r :
  reset_loop fuel c attempts 0 = Some (k, r) <->
  (k < fuel)%nat /\
  (forall i, (i < k)%nat -> _create_track c (attempts i) = Return false) /\
  _create_track c (attempts k) = r /\
  (r = Return true \/ exists e, r = Raise e).
Proof.
  rewrite reset_loop_from. split.
  - intros (Hk & Hfalse & Hr & Hne). split; [lia|]. split.
    + intros i Hi. apply Hfalse. lia.
    + split; [done|]. destruct r as [[|]|e]; [by left|done|right; by exists e].
  - intros (Hk & Hfalse & Hr & Hne). split; [lia|]. split.
    + intros i Hi. apply Hfalse. lia.
    + split; [done|]. by destruct Hne as [->|[e ->]].
Qed.

End Retry.
